(** * Crossword CSP solver (crossword/generate.py): model and properties

    A shallow embedding of [CrosswordCreator] and of the properties its
    design document states about it.

    Python objects are modelled as follows.
    - A [set] or a [dict] is a list in iteration order; a well-formed set has
      no duplicates.
    - [self.domains] is a dictionary from variables to *references* to set
      objects; the set objects live in a heap ([heap]).  [dict.copy()] copies
      the dictionary, not the sets it refers to.
    - A raised exception is the result [Raise e]; nothing in generate.py
      catches exceptions. *)

From Stdlib Require Import List String Ascii Arith Bool Lia Permutation Sorted.
Import ListNotations.
Local Open Scope string_scope.
Local Open Scope list_scope.
Local Open Scope nat_scope.

Set Implicit Arguments.

(** ** Exceptions and results *)

Inductive exn :=
| KeyError | IndexError | TypeError | ValueError | AttributeError
| OutOfFuel (* never raised by Python: the model's recursion bound *).

Inductive res (A : Type) :=
| Ok (a : A)
| Raise (e : exn).
Arguments Ok {A} a.
Arguments Raise {A} e.

Definition bind {A B} (m : res A) (k : A -> res B) : res B :=
  match m with
  | Ok a => k a
  | Raise e => Raise e
  end.

Notation "x <- m ;; k" := (bind m (fun x => k))
  (at level 61, m at next level, right associativity).
Notation "' p <- m ;; k" := (bind m (fun x => match x with p => k end))
  (at level 61, p pattern, m at next level, right associativity).

(** A [for] loop whose body may raise: left fold in the [res] monad. *)
Fixpoint mfold {A B} (f : A -> B -> res A) (l : list B) (a : A) : res A :=
  match l with
  | [] => Ok a
  | b :: l' => a' <- f a b ;; mfold f l' a'
  end.

Fixpoint mmap {A B} (f : A -> res B) (l : list A) : res (list B) :=
  match l with
  | [] => Ok []
  | a :: l' => b <- f a ;; bs <- mmap f l' ;; Ok (b :: bs)
  end.

(** ** Variables and words *)

Inductive Direction := ACROSS | DOWN.

(** [Variable] of crossword.py: (i, j, direction, length). *)
Record Var := mkVar {
  var_i : nat;
  var_j : nat;
  var_direction : Direction;
  var_length : nat
}.

Definition word := string.

Definition Direction_eq_dec (a b : Direction) : {a = b} + {a <> b}.
Proof. decide equality. Defined.

Definition Var_eq_dec (a b : Var) : {a = b} + {a <> b}.
Proof. decide equality; auto using Nat.eq_dec, Direction_eq_dec. Defined.

Definition arc := (Var * Var)%type.

Definition arc_eq_dec (a b : arc) : {a = b} + {a <> b}.
Proof. decide equality; apply Var_eq_dec. Defined.

Definition word_eq_dec : forall a b : word, {a = b} + {a <> b} := string_dec.

(** [word[k]]: IndexError when out of range (indices are never negative
    here). *)
Definition char_at (w : word) (k : nat) : res ascii :=
  match String.get k w with
  | Some c => Ok c
  | None => Raise IndexError
  end.

(** ** Dictionaries *)

Section Dict.
Context {K V : Type}.
Variable K_eq_dec : forall a b : K, {a = b} + {a <> b}.

Definition dict := list (K * V).

Fixpoint dict_get (k : K) (d : dict) : option V :=
  match d with
  | [] => None
  | (k', v) :: d' => if K_eq_dec k k' then Some v else dict_get k d'
  end.

(** [k in d] *)
Definition dict_mem (k : K) (d : dict) : bool :=
  match dict_get k d with Some _ => true | None => false end.

(** [d[k]] *)
Definition dict_item (k : K) (d : dict) : res V :=
  match dict_get k d with Some v => Ok v | None => Raise KeyError end.

(** [d[k] = v]: replaces in place, or appends a new key. *)
Fixpoint dict_set (k : K) (v : V) (d : dict) : dict :=
  match d with
  | [] => [(k, v)]
  | (k', v') :: d' =>
      if K_eq_dec k k' then (k', v) :: d' else (k', v') :: dict_set k v d'
  end.

Definition keys (d : dict) : list K := map fst d.
Definition values (d : dict) : list V := map snd d.
End Dict.

Arguments dict : clear implicits.

(** ** Sorting

    [sorted] and [list.sort] are stable; a stable sort is determined by its
    input and its order, so insertion from the right models both.
    [le x y] says that [x] may stand before [y]. *)

Section Sort.
Context {A : Type}.
Variable le : A -> A -> bool.

Fixpoint insert_by (x : A) (l : list A) : list A :=
  match l with
  | [] => [x]
  | y :: l' => if le x y then x :: y :: l' else y :: insert_by x l'
  end.

Fixpoint sort_by (l : list A) : list A :=
  match l with
  | [] => []
  | x :: l' => insert_by x (sort_by l')
  end.
End Sort.

(** ** The grid model

    crossword.py is an external collaborator: the solver reads
    [crossword.variables], [crossword.words], the table
    [crossword.overlaps] and calls [crossword.neighbors(var)]. *)

Record Crossword := {
  variables : list Var;
  words : list word;
  overlaps : dict arc (option (nat * nat));
  neighbors : Var -> list Var
}.

(** ** The solver object

    [domains] maps a variable to the location of its set of words in [heap].
    [calls] is a ghost counter of the invocations of [backtrack]. *)

Definition loc := nat.

Record Creator := {
  domains : dict Var loc;
  heap : list (list word);
  calls : nat
}.

Definition with_heap (h : list (list word)) (s : Creator) : Creator :=
  {| domains := domains s; heap := h; calls := calls s |}.

Definition with_domains (d : dict Var loc) (s : Creator) : Creator :=
  {| domains := d; heap := heap s; calls := calls s |}.

Definition tick (s : Creator) : Creator :=
  {| domains := domains s; heap := heap s; calls := S (calls s) |}.

Fixpoint upd {A} (n : nat) (x : A) (l : list A) : list A :=
  match l, n with
  | [], _ => []
  | _ :: l', 0 => x :: l'
  | y :: l', S n' => y :: upd n' x l'
  end.

(** The set object at a location. *)
Definition deref (s : Creator) (l : loc) : list word := nth l (heap s) [].

(** [self.domains[var]], read. *)
Definition domain_of (s : Creator) (var : Var) : res (list word) :=
  l <- dict_item Var_eq_dec var (domains s) ;;
  Ok (deref s l).

(** [set.remove(w)]: KeyError when [w] is not a member. *)
Definition set_remove (w : word) (d : list word) : res (list word) :=
  if in_dec word_eq_dec w d then Ok (remove word_eq_dec w d)
  else Raise KeyError.

(** [self.domains[var].remove(w)]: mutates the set object in place. *)
Definition domain_remove (var : Var) (w : word) (s : Creator) : res Creator :=
  l <- dict_item Var_eq_dec var (domains s) ;;
  d <- set_remove w (deref s l) ;;
  Ok (with_heap (upd l d (heap s)) s).

(** ** CrosswordCreator *)

Definition assignment := dict Var word.

(** The kind of Python object that holds the arcs in [ac3]: a list when
    [arcs is None], otherwise a copy of [arcs], which is a list or a set as
    the caller chose; [backtrack] passes a set. *)
Inductive qkind := PyList | PySet.

Section Solver.
Variable cw : Crossword.

(** [__init__]: every variable gets its own copy of the vocabulary. *)
Definition init : Creator :=
  let n := List.length (variables cw) in
  {| domains := combine (variables cw) (seq 0 n);
     heap := repeat (words cw) n;
     calls := 0 |}.

Definition enforce_node_consistency (s : Creator) : res Creator :=
  mfold (fun s var =>
           words <- domain_of s var ;;
           mfold (fun s w =>
                    if negb (String.length w =? var_length var)
                    then domain_remove var w s
                    else Ok s)
                 words s)
        (variables cw) s.

Definition revise (x y : Var) (s : Creator) : res (bool * Creator) :=
  overlap <- dict_item arc_eq_dec (x, y) (overlaps cw) ;;
  match overlap with
  | None => Ok (false, s)
  | Some (ox, oy) =>
      words <- domain_of s x ;;
      mfold (fun '(revised, s) x_word =>
               dy <- domain_of s y ;;
               consistent_y_value <-
                 mfold (fun found y_word =>
                          cx <- char_at x_word ox ;;
                          cy <- char_at y_word oy ;;
                          Ok (if Ascii.eqb cx cy then true else found))
                       dy false ;;
               if negb consistent_y_value
               then s' <- domain_remove x x_word s ;; Ok (true, s')
               else Ok (revised, s))
            words (false, s)
  end.

(** The arcs of the problem, in the order of [overlaps.items()]. *)
Definition all_arcs : list arc :=
  map fst (filter (fun kv => match snd kv with Some _ => true | None => false end)
                  (overlaps cw)).

(** The pending arcs are kept in the order in which [queue.pop()] yields
    them: for a list the last element first, so that [queue.append] is a
    cons; for a set its iteration order.  A set has no [append]. *)
Definition q_append (k : qkind) (a : arc) (pending : list arc) : res (list arc) :=
  match k with
  | PyList => Ok (a :: pending)
  | PySet => Raise AttributeError
  end.

Definition requeue (k : qkind) (x : Var) (pending : list arc) : res (list arc) :=
  mfold (fun q neighbor =>
           q1 <- (if in_dec arc_eq_dec (x, neighbor) q then Ok q
                  else q_append k (x, neighbor) q) ;;
           if in_dec arc_eq_dec (neighbor, x) q1 then Ok q1
           else q_append k (neighbor, x) q1)
        (neighbors cw x) pending.

(** The [while] loop up to and including its next successful revision;
    [again] is the rest of the loop. *)
Fixpoint ac3_drain (again : list arc -> Creator -> res (bool * Creator))
         (k : qkind) (pending : list arc) (s : Creator) : res (bool * Creator) :=
  match pending with
  | [] => Ok (true, s)
  | (x, y) :: rest =>
      '(revised, s1) <- revise x y s ;;
      if revised then
        d <- domain_of s1 x ;;
        if List.length d =? 0 then Ok (false, s1)
        else q <- requeue k x rest ;; again q s1
      else ac3_drain again k rest s1
  end.

(** [n] bounds the number of successful revisions. *)
Fixpoint ac3_loop (n : nat) (k : qkind) (pending : list arc) (s : Creator)
  : res (bool * Creator) :=
  match n with
  | 0 => Raise OutOfFuel
  | S n' => ac3_drain (ac3_loop n' k) k pending s
  end.

(** Number of words held by all set objects: every successful revision
    removes at least one. *)
Definition heap_size (s : Creator) : nat :=
  list_sum (map (@List.length word) (heap s)).

Definition ac3 (arcs : option (qkind * list arc)) (s : Creator)
  : res (bool * Creator) :=
  match arcs with
  | None => ac3_loop (S (heap_size s)) PyList (rev all_arcs) s
  | Some (PyList, a) => ac3_loop (S (heap_size s)) PyList (rev a) s
  | Some (PySet, a) => ac3_loop (S (heap_size s)) PySet a s
  end.

Definition assignment_complete (a : assignment) : bool :=
  forallb (fun var => dict_mem Var_eq_dec var a) (variables cw).

(** The inner loop of [consistent]; [Ok false] is its [return False]. *)
Fixpoint consistent_neighbors (a : assignment) (var : Var) (w : word)
         (ns : list Var) : res bool :=
  match ns with
  | [] => Ok true
  | neighbor :: ns' =>
      if dict_mem Var_eq_dec neighbor a then
        overlap <- dict_item arc_eq_dec (var, neighbor) (overlaps cw) ;;
        match overlap with
        | None => Raise TypeError
        | Some (ov, on) =>
            c1 <- char_at w ov ;;
            w2 <- dict_item Var_eq_dec neighbor a ;;
            c2 <- char_at w2 on ;;
            if negb (Ascii.eqb c1 c2) then Ok false
            else consistent_neighbors a var w ns'
        end
      else consistent_neighbors a var w ns'
  end.

Fixpoint consistent_items (a : assignment) (items : list (Var * word)) : res bool :=
  match items with
  | [] => Ok true
  | (var, w) :: rest =>
      if negb (var_length var =? String.length w) then Ok false
      else
        ok <- consistent_neighbors a var w (neighbors cw var) ;;
        if ok then consistent_items a rest else Ok false
  end.

(** When the loop over the items ends, [all_values] holds every value. *)
Definition consistent (a : assignment) : res bool :=
  ok <- consistent_items a a ;;
  if ok then
    let all_values := values a in
    if negb (List.length (nodup word_eq_dec all_values) =? List.length all_values)
    then Ok false
    else Ok true
  else Ok false.

Definition order_domain_values (var : Var) (a : assignment) (s : Creator)
  : res (list word) :=
  let neighbors :=
    filter (fun v => negb (dict_mem Var_eq_dec v a)) (neighbors cw var) in
  dom <- domain_of s var ;;
  let words_ruled_out : dict word nat := map (fun w => (w, 0)) dom in
  words_ruled_out <-
    mfold (fun counts w =>
             mfold (fun counts neighbor =>
                      overlap <- dict_item arc_eq_dec (var, neighbor) (overlaps cw) ;;
                      dn <- domain_of s neighbor ;;
                      mfold (fun counts possible_choice =>
                               match overlap with
                               | None => Raise TypeError
                               | Some (ov, on) =>
                                   c1 <- char_at w ov ;;
                                   c2 <- char_at possible_choice on ;;
                                   if negb (Ascii.eqb c1 c2) then
                                     n <- dict_item word_eq_dec w counts ;;
                                     Ok (dict_set word_eq_dec w (n + 1) counts)
                                   else Ok counts
                               end)
                            dn counts)
                   neighbors counts)
          dom words_ruled_out ;;
  keyed <- mmap (fun w => n <- dict_item word_eq_dec w words_ruled_out ;; Ok (n, w)) dom ;;
  Ok (map snd (sort_by (fun p q => fst p <=? fst q) keyed)).

(** [min] of a collection: ValueError when it is empty. *)
Definition py_min (l : list nat) : res nat :=
  match l with
  | [] => Raise ValueError
  | x :: l' => Ok (fold_left Nat.min l' x)
  end.

Definition degree (v : Var) : nat := List.length (neighbors cw v).

Definition select_unassigned_variable (a : assignment) (s : Creator) : res Var :=
  unassigned_dict <-
    mfold (fun (d : dict Var nat) var =>
             if negb (dict_mem Var_eq_dec var a) then
               dom <- domain_of s var ;;
               Ok (dict_set Var_eq_dec var (List.length dom) d)
             else Ok d)
          (variables cw) [] ;;
  lowest_value <- py_min (values unassigned_dict) ;;
  let lowest_list :=
    map fst (filter (fun kv => snd kv =? lowest_value) unassigned_dict) in
  let lowest_list :=
    if 1 <? List.length lowest_list
    then sort_by (fun x y => degree y <=? degree x) lowest_list
    else lowest_list in
  match lowest_list with
  | v :: _ => Ok v
  | [] => Raise IndexError
  end.

(** The body of [for word in ...] of [backtrack], as a loop over the
    candidates; [recurse] is the recursive call.  [prev_domains] is a copy
    of the dictionary: it refers to the same set objects. *)
Fixpoint backtrack_loop
         (recurse : assignment -> Creator -> res (option assignment * Creator))
         (var : Var) (a : assignment) (candidates : list word) (s : Creator)
  : res (option assignment * Creator) :=
  match candidates with
  | [] => Ok (None, s)
  | w :: rest =>
      let new_assignment := dict_set Var_eq_dec var w a in
      ok <- consistent new_assignment ;;
      if ok then
        let prev_domains := domains s in
        '(_, s1) <- ac3 (Some (PySet, map (fun x => (x, var)) (neighbors cw var))) s ;;
        '(result, s2) <- recurse new_assignment s1 ;;
        match result with
        | Some r => Ok (Some r, s2)
        | None => backtrack_loop recurse var a rest (with_domains prev_domains s2)
        end
      else backtrack_loop recurse var a rest s
  end.

Fixpoint backtrack_rec (fuel : nat) (a : assignment) (s : Creator)
  : res (option assignment * Creator) :=
  match fuel with
  | 0 => Raise OutOfFuel
  | S fuel' =>
      let s := tick s in
      if assignment_complete a then Ok (Some a, s)
      else
        var <- select_unassigned_variable a s ;;
        candidates <- order_domain_values var a s ;;
        backtrack_loop (backtrack_rec fuel') var a candidates s
  end.

(** The recursion is at most one deeper than the number of unassigned
    variables. *)
Definition unassigned (a : assignment) : list Var :=
  filter (fun v => negb (dict_mem Var_eq_dec v a)) (variables cw).

Definition backtrack (a : assignment) (s : Creator)
  : res (option assignment * Creator) :=
  backtrack_rec (S (List.length (unassigned a))) a s.

Definition solve (s : Creator) : res (option assignment * Creator) :=
  s1 <- enforce_node_consistency s ;;
  '(_, s2) <- ac3 None s1 ;;
  backtrack [] s2.

End Solver.

(** ** letter_grid

    [crossword.width] and [crossword.height] are read from the grid model;
    they are arguments here. *)

(** The 2D array: rows of cells, a cell holding a letter or None. *)
Definition letters := list (list (option ascii)).

(** [letters[i][j] = c]: IndexError when the row or the column does not
    exist. *)
Definition set_letter (i j : nat) (c : ascii) (g : letters) : res letters :=
  match nth_error g i with
  | None => Raise IndexError
  | Some row =>
      if j <? List.length row then Ok (upd i (upd j (Some c) row) g)
      else Raise IndexError
  end.

Definition letter_grid (width height : nat) (a : assignment) : res letters :=
  mfold (fun letters '(variable, word) =>
           let direction := var_direction variable in
           mfold (fun letters k =>
                    let i := var_i variable
                             + (match direction with DOWN => k | ACROSS => 0 end) in
                    let j := var_j variable
                             + (match direction with ACROSS => k | DOWN => 0 end) in
                    c <- char_at word k ;;
                    set_letter i j c letters)
                 (seq 0 (String.length word)) letters)
        a (repeat (repeat None width) height).

(** * Notions used by the properties *)

(** [raises_only P m]: every exception that [m] raises satisfies [P]. *)
Definition raises_only {A} (P : exn -> Prop) (m : res A) : Prop :=
  forall e, m = Raise e -> P e.

Definition inb (w : word) (ws : list word) : bool :=
  if in_dec word_eq_dec w ws then true else false.

(** Removing from the set [d], one after the other, the members of [ws] that
    satisfy [P]: what the loops of [enforce_node_consistency] and [revise]
    do to a set object. *)
Definition remove_where (P : word -> bool) (ws d : list word) : list word :=
  fold_left (fun d w => if P w then remove word_eq_dec w d else d) ws d.

(** The current domain of a variable, as a total function. *)
Definition dom (s : Creator) (v : Var) : list word :=
  match dict_get Var_eq_dec v (domains s) with
  | Some l => deref s l
  | None => []
  end.

(** [self.domains[var]] rebound to hold [d]: the effect of removals. *)
Definition set_dom (l : loc) (d : list word) (s : Creator) : Creator :=
  with_heap (upd l d (heap s)) s.

Fixpoint nodupb {A} (dec : forall a b : A, {a = b} + {a <> b}) (l : list A) : bool :=
  match l with
  | [] => true
  | x :: l' => (if in_dec dec x l' then false else true) && nodupb dec l'
  end.

(** ** Concrete puzzles *)

(** Two crossing slots: an across slot of length 3 and a down slot of length
    4, the second letter of the first being the third letter of the second. *)
Definition slot_across : Var := mkVar 2 0 ACROSS 3.
Definition slot_down : Var := mkVar 0 1 DOWN 4.

Definition grid1 : Crossword :=
  {| variables := [slot_across; slot_down];
     words := ["cat"; "dog"; "frog"; "acts"]%string;
     overlaps := [((slot_across, slot_down), Some (1, 2));
                  ((slot_down, slot_across), Some (2, 1))];
     neighbors := fun v =>
       if Var_eq_dec v slot_across then [slot_down]
       else if Var_eq_dec v slot_down then [slot_across] else [] |}.

(** [grid1] after [enforce_node_consistency]. *)
Definition grid1_nc : Creator :=
  Eval vm_compute in
    match enforce_node_consistency grid1 (init grid1) with
    | Ok s => s
    | Raise _ => init grid1
    end.

(** Two slots that share their first cell, of lengths 2 and 3; no word of
    length 2 starts with the letter of the only word of length 3. *)
Definition slot_a : Var := mkVar 0 0 ACROSS 2.
Definition slot_b : Var := mkVar 0 0 DOWN 3.

Definition grid2 : Crossword :=
  {| variables := [slot_a; slot_b];
     words := ["ab"; "ef"; "cyy"]%string;
     overlaps := [((slot_a, slot_b), Some (0, 0));
                  ((slot_b, slot_a), Some (0, 0))];
     neighbors := fun v =>
       if Var_eq_dec v slot_a then [slot_b]
       else if Var_eq_dec v slot_b then [slot_a] else [] |}.

(** [grid2] after [enforce_node_consistency], and after [ac3()] on top. *)
Definition grid2_nc : Creator :=
  Eval vm_compute in
    match enforce_node_consistency grid2 (init grid2) with
    | Ok s => s
    | Raise _ => init grid2
    end.

Definition grid2_ac3 : Creator :=
  Eval vm_compute in
    match ac3 grid2 None grid2_nc with
    | Ok (_, s) => s
    | Raise _ => grid2_nc
    end.

(** The slots of [grid2] with a vocabulary in which one word of length 2
    starts with the letter of the word of length 3 and one does not. *)
Definition grid3 : Crossword :=
  {| variables := variables grid2;
     words := ["ab"; "cd"; "cyy"]%string;
     overlaps := overlaps grid2;
     neighbors := neighbors grid2 |}.

Definition grid3_nc : Creator :=
  Eval vm_compute in
    match enforce_node_consistency grid3 (init grid3) with
    | Ok s => s
    | Raise _ => init grid3
    end.

(** [grid1] after [enforce_node_consistency] and [ac3()] on top, and the one
    way of filling it. *)
Definition grid1_ac3 : Creator :=
  Eval vm_compute in
    match ac3 grid1 None grid1_nc with
    | Ok (_, s) => s
    | Raise _ => grid1_nc
    end.

Definition grid1_answer : assignment :=
  [(slot_across, "dog"); (slot_down, "frog")]%string.

(** ** Notions that depend on the grid *)

Section Correctness.
Variable cw : Crossword.

(** The overlap of an ordered pair of variables, when one is defined. *)
Definition overlap (x y : Var) : option (nat * nat) :=
  match dict_get arc_eq_dec (x, y) (overlaps cw) with
  | Some o => o
  | None => None
  end.

(** What the solver assumes of the grid model: variables form a set, an
    overlap relates two distinct variables of the grid at indices within
    their lengths and is symmetric with the indices swapped, and
    [neighbors(v)] is the set of the variables that overlap [v]. *)
Record wf_crossword : Prop := {
  wfc_vars : NoDup (variables cw);
  wfc_okeys : NoDup (keys (overlaps cw));
  wfc_arc : forall x y i j, overlap x y = Some (i, j) ->
      In x (variables cw) /\ In y (variables cw) /\ x <> y /\
      i < var_length x /\ j < var_length y /\ overlap y x = Some (j, i);
  wfc_nb : forall v n, In v (variables cw) ->
      (In n (neighbors cw v) <-> overlap v n <> None);
  wfc_nb_nodup : forall v, In v (variables cw) -> NoDup (neighbors cw v)
}.

Definition varb (v : Var) (l : list Var) : bool :=
  if in_dec Var_eq_dec v l then true else false.

Definition wf_crosswordb : bool :=
  nodupb Var_eq_dec (variables cw) &&
  nodupb arc_eq_dec (keys (overlaps cw)) &&
  forallb (fun kv =>
             match kv with
             | ((x, y), Some (i, j)) =>
                 varb x (variables cw) && varb y (variables cw) &&
                 (if Var_eq_dec x y then false else true) &&
                 (i <? var_length x) && (j <? var_length y) &&
                 match overlap y x with
                 | Some (j', i') => (j' =? j) && (i' =? i)
                 | None => false
                 end &&
                 varb y (neighbors cw x)
             | (_, None) => true
             end) (overlaps cw) &&
  forallb (fun v =>
             nodupb Var_eq_dec (neighbors cw v) &&
             forallb (fun n => match overlap v n with Some _ => true | None => false end)
                     (neighbors cw v)) (variables cw).

(** What [__init__] establishes and the solver maintains: every variable
    of the grid has its own set object. *)
Record wf_store (s : Creator) : Prop := {
  wf_keys : keys (domains s) = variables cw;
  wf_inj : forall u v l, dict_get Var_eq_dec u (domains s) = Some l ->
                         dict_get Var_eq_dec v (domains s) = Some l -> u = v;
  wf_bound : forall v l, dict_get Var_eq_dec v (domains s) = Some l ->
                         l < List.length (heap s);
  wf_sets : forall l, NoDup (deref s l)
}.

Definition wf_storeb (s : Creator) : bool :=
  (if list_eq_dec Var_eq_dec (keys (domains s)) (variables cw) then true else false) &&
  nodupb Var_eq_dec (keys (domains s)) &&
  nodupb Nat.eq_dec (values (domains s)) &&
  forallb (fun l => l <? List.length (heap s)) (values (domains s)) &&
  forallb (nodupb word_eq_dec) (heap s).

(** Every word of every domain has the length of its variable. *)
Definition node_consistent (s : Creator) : Prop :=
  forall v w, In v (variables cw) -> In w (dom s v) -> String.length w = var_length v.

Definition node_consistentb (s : Creator) : bool :=
  forallb (fun v => forallb (fun w => String.length w =? var_length v) (dom s v))
          (variables cw).

Definition fits (v : Var) (w : word) : bool := String.length w =? var_length v.

(** The characters at the overlap indices exist and are equal. *)
Definition agree (ox oy : nat) (wx wy : word) : bool :=
  match String.get ox wx, String.get oy wy with
  | Some a, Some b => Ascii.eqb a b
  | _, _ => false
  end.

(** Some word of [dy] agrees with [wx]. *)
Definition supported (ox oy : nat) (dy : list word) (wx : word) : bool :=
  existsb (agree ox oy wx) dy.

(** A valid (partial) assignment: lengths match, overlapping assigned
    variables agree at the overlap indices, assigned words are pairwise
    distinct. *)
Definition valid (a : assignment) : Prop :=
  (forall v w, dict_get Var_eq_dec v a = Some w -> String.length w = var_length v) /\
  (forall x y wx wy i j,
      dict_get Var_eq_dec x a = Some wx -> dict_get Var_eq_dec y a = Some wy ->
      overlap x y = Some (i, j) -> agree i j wx wy = true) /\
  (forall x y wx wy,
      dict_get Var_eq_dec x a = Some wx -> dict_get Var_eq_dec y a = Some wy ->
      x <> y -> wx <> wy).

(** What the inner loop of [consistent] checks for one neighbor. *)
Definition nb_ok (a : assignment) (var : Var) (w : word) (n : Var) : Prop :=
  forall w2, dict_get Var_eq_dec n a = Some w2 ->
    exists i j, overlap var n = Some (i, j) /\ agree i j w w2 = true.

Definition size (s : Creator) (v : Var) : nat := List.length (dom s v).

(** The number of words of the domain of neighbor [n] that disagree with
    [w] at the overlap indices. *)
Definition ruled_out_by (s : Creator) (var : Var) (w : word) (n : Var) : nat :=
  match overlap var n with
  | Some (ov, on) => List.length (filter (fun c => negb (agree ov on w c)) (dom s n))
  | None => 0
  end.

(** The eliminated-count of [w]: summed over the unassigned neighbors. *)
Definition eliminated (s : Creator) (var : Var) (a : assignment) (w : word) : nat :=
  list_sum (map (ruled_out_by s var w)
                (filter (fun v => negb (dict_mem Var_eq_dec v a)) (neighbors cw var))).

(** The dictionary [words_ruled_out] with the counts [g]. *)
Definition tab (g : word -> nat) (ws : list word) : dict word nat :=
  map (fun w => (w, g w)) ws.

(** The exceptions of dictionary and string accesses and of [append] on a
    set. *)
Definition ordinary (e : exn) : Prop := e <> OutOfFuel /\ e <> ValueError.

(** Every word of [domain(x)] has a word of [domain(y)] that agrees with it
    at the overlap indices. *)
Definition arc_ok (s : Creator) (x y : Var) (i j : nat) : Prop :=
  forall wx, In wx (dom s x) -> supported i j (dom s y) wx = true.

Definition arc_consistent (s : Creator) : Prop :=
  forall x y i j, overlap x y = Some (i, j) -> arc_ok s x y i j.

(** Appending to a list queue an arc that is not yet in it. *)
Definition push_new (a : arc) (q : list arc) : list arc :=
  if in_dec arc_eq_dec a q then q else a :: q.

(** A complete and valid assignment: every variable of the grid has a word
    of its length, overlapping variables agree at the overlap indices, and
    no word is used twice. *)
Definition solution (r : assignment) : Prop :=
  (forall v, In v (variables cw) ->
     exists w, dict_get Var_eq_dec v r = Some w /\ String.length w = var_length v) /\
  (forall x y i j wx wy, overlap x y = Some (i, j) ->
     dict_get Var_eq_dec x r = Some wx -> dict_get Var_eq_dec y r = Some wy ->
     agree i j wx wy = true) /\
  (forall x y wx wy, x <> y ->
     dict_get Var_eq_dec x r = Some wx -> dict_get Var_eq_dec y r = Some wy ->
     wx <> wy).

(** The design document's reading of [solve]: when [ac3] fails, [solve]
    returns None and [backtrack] is never invoked, so the solver object is
    left as [ac3] left it. *)
Definition solve_skips_search (s : Creator) : Prop :=
  forall s1 s2,
    enforce_node_consistency cw s = Ok s1 -> ac3 cw None s1 = Ok (false, s2) ->
    solve cw s = Ok (None, s2).

(** ** Notions for the properties beyond the design document *)

(** [s'] has the dictionary of [s] and no set object of [s'] holds a word
    that it did not hold in [s]. *)
Definition shrinks (s s' : Creator) : Prop :=
  domains s' = domains s /\ forall l, incl (deref s' l) (deref s l).

(** The same dictionary and the same set objects (the counter apart). *)
Definition same_store (s s0 : Creator) : Prop :=
  domains s = domains s0 /\ heap s = heap s0.

(** [r] assigns what [a] assigns. *)
Definition extends (a r : assignment) : Prop :=
  forall v w, dict_get Var_eq_dec v a = Some w -> dict_get Var_eq_dec v r = Some w.

(** Every word of [r] is in the domain of its variable. *)
Definition drawn_from (s : Creator) (r : assignment) : Prop :=
  forall v w, dict_get Var_eq_dec v r = Some w -> In w (dom s v).

(** [s'] is reached from [s] by a sequence of calls of [revise]. *)
Inductive revisions : Creator -> Creator -> Prop :=
| revisions_refl s : revisions s s
| revisions_step s s1 s' x y b :
    revise cw x y s = Ok (b, s1) -> revisions s1 s' -> revisions s s'.

(** [s'] is reached from [s] by a sequence of calls of [revise] none of
    which emptied the domain it revised: the iterations of the loop of
    [ac3] after which the loop goes on. *)
Inductive ac3_steps : Creator -> Creator -> Prop :=
| ac3_steps_refl s : ac3_steps s s
| ac3_steps_step s s1 s' x y b :
    revise cw x y s = Ok (b, s1) -> (b = true -> dom s1 x <> []) ->
    ac3_steps s1 s' -> ac3_steps s s'.

(** What a call of [backtrack] on the assignment [a] returns, on a store
    whose domains are those of [s0]: an assignment that extends [a] with
    words of the domains, or None when no solution drawn from the domains
    extends [a]. *)
Definition search_result (s0 : Creator) (a : assignment) (r : option assignment)
  : Prop :=
  match r with
  | Some r' =>
      extends a r' /\
      forall v w, dict_get Var_eq_dec v r' = Some w ->
                  dict_get Var_eq_dec v a = Some w \/ In w (dom s0 v)
  | None =>
      forall r', solution r' -> drawn_from s0 r' -> extends a r' -> False
  end.

(** Every assigned word has the length of its variable. *)
Definition lengths_fit (a : assignment) : Prop :=
  forall v w, dict_get Var_eq_dec v a = Some w -> String.length w = var_length v.

(** ** Notions for letter_grid *)

(** The cell of the [k]-th letter of a variable. *)
Definition cell_of (v : Var) (k : nat) : nat * nat :=
  (var_i v + (match var_direction v with DOWN => k | ACROSS => 0 end),
   var_j v + (match var_direction v with ACROSS => k | DOWN => 0 end)).

(** The content of a cell; None also outside the array. *)
Definition read (g : letters) (p : nat * nat) : option ascii :=
  nth (snd p) (nth (fst p) g []) None.

Definition in_grid (width height : nat) (p : nat * nat) : bool :=
  (fst p <? height) && (snd p <? width).

(** An array of [height] rows of [width] cells. *)
Definition shaped (width height : nat) (g : letters) : Prop :=
  List.length g = height /\
  forall i, i < height -> List.length (nth i g []) = width.

(** The array with one cell overwritten. *)
Definition paint (g : letters) (p : nat * nat) (o : option ascii) : letters :=
  upd (fst p) (upd (snd p) o (nth (fst p) g [])) g.

Definition paint_word (v : Var) (w : word) (ks : list nat) (g : letters) : letters :=
  fold_left (fun g k => paint g (cell_of v k) (String.get k w)) ks g.

Definition paint_all (a : assignment) (g : letters) : letters :=
  fold_left (fun g vw => paint_word (fst vw) (snd vw)
                                    (seq 0 (String.length (snd vw))) g) a g.

(** Every letter of every assigned word falls inside the grid. *)
Definition fits_grid (width height : nat) (a : assignment) : Prop :=
  forall v w k, In (v, w) a -> k < String.length w ->
    fst (cell_of v k) < height /\ snd (cell_of v k) < width.

Definition fits_gridb (width height : nat) (a : assignment) : bool :=
  forallb (fun vw => forallb (fun k => in_grid width height (cell_of (fst vw) k))
                             (seq 0 (String.length (snd vw)))) a.

(** Two assigned words that run over the same cell have the same letter
    there. *)
Definition crossings_agree (a : assignment) : Prop :=
  forall v w k v' w' k',
    In (v, w) a -> In (v', w') a ->
    k < String.length w -> k' < String.length w' ->
    cell_of v k = cell_of v' k' -> String.get k w = String.get k' w'.

(** ** Geometry, and checkers that compute *)

(** The overlap table records every cell that two distinct variables of the
    grid share, with the indices of the cell within each. *)
Definition shared_cells_recorded : Prop :=
  forall x y kx ky,
    In x (variables cw) -> In y (variables cw) -> x <> y ->
    kx < var_length x -> ky < var_length y ->
    cell_of x kx = cell_of y ky -> overlap x y = Some (kx, ky).

Definition same_cell (p q : nat * nat) : bool :=
  (fst p =? fst q) && (snd p =? snd q).

Definition shared_cells_recordedb : bool :=
  forallb (fun x =>
    forallb (fun y =>
      if Var_eq_dec x y then true
      else forallb (fun kx =>
             forallb (fun ky =>
               if same_cell (cell_of x kx) (cell_of y ky)
               then match overlap x y with
                    | Some (i, j) => (i =? kx) && (j =? ky)
                    | None => false
                    end
               else true) (seq 0 (var_length y))) (seq 0 (var_length x)))
      (variables cw)) (variables cw).

Definition letter_eqb (x y : option ascii) : bool :=
  match x, y with
  | Some a, Some b => Ascii.eqb a b
  | None, None => true
  | _, _ => false
  end.

Definition crossings_agreeb (a : assignment) : bool :=
  forallb (fun vw =>
    forallb (fun k =>
      forallb (fun vw' =>
        forallb (fun k' =>
          if same_cell (cell_of (fst vw) k) (cell_of (fst vw') k')
          then letter_eqb (String.get k (snd vw)) (String.get k' (snd vw'))
          else true) (seq 0 (String.length (snd vw')))) a)
      (seq 0 (String.length (snd vw)))) a.

Definition drawn_fromb (s : Creator) (r : assignment) : bool :=
  forallb (fun vw => inb (snd vw) (dom s (fst vw))) r.

Definition lengths_fitb (a : assignment) : bool :=
  forallb (fun vw => String.length (snd vw) =? var_length (fst vw)) a.

Definition arc_consistentb (s : Creator) : bool :=
  forallb (fun kv =>
             match kv with
             | ((x, y), Some (i, j)) => forallb (supported i j (dom s y)) (dom s x)
             | (_, None) => true
             end) (overlaps cw).

(** * Properties *)

(** ** The result monad *)

Lemma bind_Ok {A B} (m : res A) (k : A -> res B) b :
  bind m k = Ok b -> exists a, m = Ok a /\ k a = Ok b.
Proof. destruct m; simpl; eauto; discriminate. Qed.

Lemma bind_Raise {A B} (m : res A) (k : A -> res B) e :
  bind m k = Raise e -> m = Raise e \/ exists a, m = Ok a /\ k a = Raise e.
Proof. destruct m; simpl; intros H; [right; eauto | injection H as ->; now left]. Qed.

Lemma bind_intro {A B} (m : res A) (k : A -> res B) a b :
  m = Ok a -> k a = Ok b -> bind m k = Ok b.
Proof. intros -> H. exact H. Qed.

Lemma raises_only_Ok {A} P (a : A) : raises_only P (Ok a).
Proof. intros e H; discriminate. Qed.

Lemma raises_only_Raise {A} (P : exn -> Prop) e : P e -> raises_only P (@Raise A e).
Proof. intros H e' E; injection E as <-; exact H. Qed.

Lemma raises_only_bind {A B} P (m : res A) (k : A -> res B) :
  raises_only P m -> (forall a, m = Ok a -> raises_only P (k a)) ->
  raises_only P (bind m k).
Proof.
  intros Hm Hk e H. apply bind_Raise in H as [H | (a & Ha & H)].
  - now apply Hm.
  - now apply (Hk a Ha).
Qed.

Lemma raises_only_mfold {A B} P (f : A -> B -> res A) l :
  (forall a b, raises_only P (f a b)) -> forall a, raises_only P (mfold f l a).
Proof.
  intros Hf. induction l as [|b l IH]; intros a; simpl.
  - apply raises_only_Ok.
  - apply raises_only_bind; auto.
Qed.

Lemma raises_only_mmap {A B} P (f : A -> res B) l :
  (forall a, raises_only P (f a)) -> raises_only P (mmap f l).
Proof.
  intros Hf. induction l as [|a l IH]; simpl.
  - apply raises_only_Ok.
  - apply raises_only_bind; auto. intros b _.
    apply raises_only_bind; auto. intros bs _. apply raises_only_Ok.
Qed.

Lemma raises_only_weaken {A} (P Q : exn -> Prop) (m : res A) :
  (forall e, P e -> Q e) -> raises_only P m -> raises_only Q m.
Proof. intros HPQ H e E. auto. Qed.

(** ** Dictionaries *)

Section DictFacts.
Context {K V : Type}.
Variable dec : forall a b : K, {a = b} + {a <> b}.
Implicit Types (d : dict K V) (k : K) (v : V).

Lemma dict_get_In k v d : dict_get dec k d = Some v -> In (k, v) d.
Proof.
  induction d as [|[k' v'] d IH]; simpl; [discriminate|].
  destruct (dec k k') as [->|]; intros H.
  - injection H as ->. now left.
  - right; auto.
Qed.

Lemma dict_get_None k d : dict_get dec k d = None <-> ~ In k (keys d).
Proof.
  induction d as [|[k' v'] d IH]; simpl.
  - tauto.
  - destruct (dec k k') as [->|Hne].
    + split; [discriminate | tauto].
    + rewrite IH. split; intros H; [intros [E|I]; [congruence | tauto] | tauto].
Qed.

Lemma dict_get_Some_key k v d : dict_get dec k d = Some v -> In k (keys d).
Proof. intros H. apply dict_get_In in H. apply (in_map fst) in H. exact H. Qed.

Lemma In_keys_dict_get k d : In k (keys d) -> exists v, dict_get dec k d = Some v.
Proof.
  intros H. destruct (dict_get dec k d) as [v|] eqn:E; eauto.
  apply dict_get_None in E. contradiction.
Qed.

Lemma In_dict_get k v d : NoDup (keys d) -> In (k, v) d -> dict_get dec k d = Some v.
Proof.
  induction d as [|[k' v'] d IH]; simpl; [tauto|].
  intros Hnd [E|I].
  - injection E as -> ->. destruct (dec k k); congruence.
  - inversion Hnd as [|? ? Hni Hnd']; subst.
    destruct (dec k k') as [->|].
    + exfalso. apply Hni. change k' with (fst (k', v)). now apply in_map.
    + auto.
Qed.

Lemma dict_mem_true k d : dict_mem dec k d = true <-> In k (keys d).
Proof.
  unfold dict_mem. destruct (dict_get dec k d) eqn:E.
  - split; auto. intros _. eapply dict_get_Some_key; eauto.
  - apply dict_get_None in E. split; [discriminate | tauto].
Qed.

Lemma dict_mem_false k d : dict_mem dec k d = false <-> ~ In k (keys d).
Proof.
  rewrite <- dict_mem_true. destruct (dict_mem dec k d); split; congruence.
Qed.

Lemma dict_get_set_eq k v d : dict_get dec k (dict_set dec k v d) = Some v.
Proof.
  induction d as [|[k' v'] d IH]; simpl.
  - destruct (dec k k); congruence.
  - destruct (dec k k') as [->|Hne]; simpl.
    + destruct (dec k' k'); congruence.
    + destruct (dec k k'); congruence.
Qed.

Lemma dict_get_set_ne k k' v d :
  k <> k' -> dict_get dec k' (dict_set dec k v d) = dict_get dec k' d.
Proof.
  intros Hne. induction d as [|[k0 v0] d IH]; simpl.
  - destruct (dec k' k); congruence.
  - destruct (dec k k0) as [->|]; simpl.
    + destruct (dec k' k0); congruence.
    + destruct (dec k' k0); congruence.
Qed.

Lemma dict_set_new k v d : ~ In k (keys d) -> dict_set dec k v d = d ++ [(k, v)].
Proof.
  induction d as [|[k' v'] d IH]; simpl; auto.
  intros H. destruct (dec k k') as [->|]; [tauto|].
  f_equal. apply IH. tauto.
Qed.

Lemma keys_dict_set_In k v d : In k (keys d) -> keys (dict_set dec k v d) = keys d.
Proof.
  induction d as [|[k' v'] d IH]; simpl; [tauto|].
  intros H. destruct (dec k k') as [->|Hne]; simpl; auto.
  f_equal. apply IH. destruct H; congruence.
Qed.

Lemma In_keys_dict_set k k' v d :
  In k' (keys (dict_set dec k v d)) <-> k' = k \/ In k' (keys d).
Proof.
  rewrite <- !dict_mem_true. unfold dict_mem.
  destruct (dec k k') as [->|Hne].
  - rewrite dict_get_set_eq. intuition.
  - rewrite dict_get_set_ne by auto. intuition congruence.
Qed.

Lemma NoDup_keys_dict_set k v d : NoDup (keys d) -> NoDup (keys (dict_set dec k v d)).
Proof.
  intros H. destruct (in_dec dec k (keys d)) as [I|N].
  - now rewrite keys_dict_set_In.
  - rewrite dict_set_new by auto. unfold keys. rewrite map_app. simpl.
    apply NoDup_app; [exact H | repeat constructor; simpl; tauto |].
    intros x Hx [<-|[]]. contradiction.
Qed.
End DictFacts.

(** ** Updating a list in place *)

Lemma length_upd {A} n (x : A) l : List.length (upd n x l) = List.length l.
Proof.
  revert n; induction l as [|y l IH]; intros [|n]; simpl; auto.
Qed.

Lemma nth_upd_eq {A} n (x d : A) l : n < List.length l -> nth n (upd n x l) d = x.
Proof.
  revert n; induction l as [|y l IH]; intros [|n]; simpl; intros H; try lia; auto.
  apply IH; lia.
Qed.

Lemma nth_upd_ne {A} n m (x d : A) l : n <> m -> nth m (upd n x l) d = nth m l d.
Proof.
  revert n m; induction l as [|y l IH]; intros [|n] [|m]; simpl; intros H;
    try congruence; auto.
Qed.

Lemma upd_upd {A} n (x y : A) l : upd n x (upd n y l) = upd n x l.
Proof.
  revert n; induction l as [|z l IH]; intros [|n]; simpl; auto. now rewrite IH.
Qed.

Lemma upd_same {A} n (d : A) l : upd n (nth n l d) l = l.
Proof.
  revert n; induction l as [|z l IH]; intros [|n]; simpl; auto. now rewrite IH.
Qed.

(** ** Sorting *)

Section SortFacts.
Context {A : Type}.
Variable le : A -> A -> bool.

Lemma insert_by_perm x l : Permutation (insert_by le x l) (x :: l).
Proof.
  induction l as [|y l IH]; simpl; auto.
  destruct (le x y); auto.
  rewrite IH. apply perm_swap.
Qed.

Lemma sort_by_perm l : Permutation (sort_by le l) l.
Proof.
  induction l as [|x l IH]; simpl; auto.
  rewrite insert_by_perm. now constructor.
Qed.

Hypothesis le_total : forall x y, le x y = true \/ le y x = true.
Hypothesis le_trans : forall x y z, le x y = true -> le y z = true -> le x z = true.

Let R x y := le x y = true.

Lemma insert_by_sorted x l : StronglySorted R l -> StronglySorted R (insert_by le x l).
Proof.
  induction 1 as [|y l Hs IH Hall]; simpl.
  - repeat constructor.
  - destruct (le x y) eqn:E.
    + constructor; [constructor; auto|].
      constructor; [exact E|].
      eapply Forall_impl; [|exact Hall]. intros z Hz. eapply le_trans; eauto.
    + constructor; auto.
      eapply Permutation_Forall; [symmetry; apply insert_by_perm|].
      constructor; auto.
      destruct (le_total x y) as [H|H]; [congruence | exact H].
Qed.

Lemma sort_by_sorted l : StronglySorted R (sort_by le l).
Proof.
  induction l as [|x l IH]; simpl; [constructor | now apply insert_by_sorted].
Qed.
End SortFacts.

(** ** Lists *)

Lemma remove_filter (w : word) d :
  remove word_eq_dec w d = filter (fun x => if word_eq_dec w x then false else true) d.
Proof.
  induction d as [|x d IH]; simpl; auto.
  destruct (word_eq_dec w x); simpl; now rewrite IH.
Qed.

Lemma filter_filter {A} (f g : A -> bool) l :
  filter f (filter g l) = filter (fun x => g x && f x) l.
Proof.
  induction l as [|x l IH]; simpl; auto.
  destruct (g x); simpl; [destruct (f x)|]; now rewrite IH.
Qed.

Lemma filter_id_iff {A} (f : A -> bool) l : filter f l = l <-> forallb f l = true.
Proof.
  induction l as [|x l IH]; simpl; [tauto|].
  destruct (f x) eqn:E; simpl.
  - rewrite <- IH. split; [now intros [= ->] | now intros ->].
  - split; [|discriminate]. intros H.
    assert (In x (filter f l)) as I by (rewrite H; now left).
    apply filter_In in I as [_ I]. congruence.
Qed.

Lemma inb_cons x w ws :
  inb x (w :: ws) = if word_eq_dec w x then true else inb x ws.
Proof.
  unfold inb.
  destruct (in_dec word_eq_dec x (w :: ws)) as [I|N], (word_eq_dec w x) as [E|E];
    auto.
  - destruct (in_dec word_eq_dec x ws) as [|N]; auto.
    destruct I; [contradiction | contradiction].
  - exfalso; apply N; now left.
  - destruct (in_dec word_eq_dec x ws) as [I|]; auto.
    exfalso; apply N; now right.
Qed.

Lemma remove_where_filter P ws : forall d,
  remove_where P ws d = filter (fun x => negb (P x && inb x ws)) d.
Proof.
  unfold remove_where.
  induction ws as [|w ws IH]; intros d; simpl.
  - symmetry. erewrite filter_ext; [apply filter_true|].
    intros x. now rewrite andb_false_r.
  - rewrite IH. destruct (P w) eqn:E.
    + rewrite remove_filter, filter_filter. apply filter_ext. intros x.
      rewrite inb_cons. destruct (word_eq_dec w x) as [->|Hne]; simpl; auto.
      now rewrite E.
    + apply filter_ext. intros x. rewrite inb_cons.
      destruct (word_eq_dec w x) as [->|Hne]; auto. now rewrite E.
Qed.

Lemma remove_where_self P d :
  remove_where P d d = filter (fun x => negb (P x)) d.
Proof.
  rewrite remove_where_filter. apply filter_ext_in. intros x Hx.
  unfold inb. destruct (in_dec word_eq_dec x d); [|contradiction].
  now rewrite andb_true_r.
Qed.

Lemma In_remove_where P ws d w :
  In w d -> ~ In w ws -> In w (remove_where P ws d).
Proof.
  intros Hd Hn. rewrite remove_where_filter. apply filter_In. split; auto.
  unfold inb. destruct (in_dec word_eq_dec w ws); [contradiction|].
  now rewrite andb_false_r.
Qed.

Lemma list_sum_upd (h : list (list word)) l d :
  l < List.length h ->
  list_sum (map (@List.length word) (upd l d h)) + List.length (nth l h [])
  = list_sum (map (@List.length word) h) + List.length d.
Proof.
  revert l; induction h as [|c h IH]; intros [|l]; simpl; intros H; try lia.
  specialize (IH l ltac:(lia)). lia.
Qed.

Lemma get_in_range (w : word) k : k < String.length w -> exists c, String.get k w = Some c.
Proof.
  revert k; induction w as [|a w IH]; intros k; simpl; [lia|].
  destruct k; [eauto|]. intros H. apply IH. lia.
Qed.

Lemma get_Some_range (w : word) k c : String.get k w = Some c -> k < String.length w.
Proof.
  revert k; induction w as [|a w IH]; intros k; simpl; [discriminate|].
  destruct k; [lia|]. intros H. apply IH in H. lia.
Qed.

(** ** The store *)

Lemma domain_of_Ok s v d : domain_of s v = Ok d -> dom s v = d /\ In v (keys (domains s)).
Proof.
  unfold domain_of, dom, dict_item.
  destruct (dict_get Var_eq_dec v (domains s)) eqn:E; simpl; [|discriminate].
  intros [= <-]. split; auto. eapply dict_get_Some_key; eauto.
Qed.

Lemma domain_of_key s v : In v (keys (domains s)) -> domain_of s v = Ok (dom s v).
Proof.
  intros H. apply (In_keys_dict_get Var_eq_dec) in H as [l E].
  unfold domain_of, dom, dict_item. now rewrite E.
Qed.

Lemma domain_of_loc s v l :
  dict_get Var_eq_dec v (domains s) = Some l -> domain_of s v = Ok (deref s l).
Proof. intros E. unfold domain_of, dict_item. now rewrite E. Qed.

Lemma set_dom_same s l : set_dom l (deref s l) s = s.
Proof.
  unfold set_dom, with_heap, deref. rewrite upd_same. now destruct s.
Qed.

Lemma set_dom_set_dom s l d d' : set_dom l d (set_dom l d' s) = set_dom l d s.
Proof. unfold set_dom, with_heap; simpl. now rewrite upd_upd. Qed.

Lemma deref_set_dom_eq s l d : l < List.length (heap s) -> deref (set_dom l d s) l = d.
Proof. intros H. unfold deref, set_dom; simpl. now apply nth_upd_eq. Qed.

Lemma deref_set_dom_ne s l l' d : l <> l' -> deref (set_dom l d s) l' = deref s l'.
Proof. intros H. unfold deref, set_dom; simpl. now apply nth_upd_ne. Qed.

Lemma domain_remove_Ok s var l w :
  dict_get Var_eq_dec var (domains s) = Some l -> In w (deref s l) ->
  domain_remove var w s = Ok (set_dom l (remove word_eq_dec w (deref s l)) s).
Proof.
  intros E I. unfold domain_remove, dict_item, set_remove. rewrite E. simpl.
  destruct (in_dec word_eq_dec w (deref s l)); [reflexivity | contradiction].
Qed.

Lemma heap_size_set_dom s l d :
  l < List.length (heap s) ->
  heap_size (set_dom l d s) + List.length (deref s l) = heap_size s + List.length d.
Proof. intros H. unfold heap_size, set_dom, deref; simpl. now apply list_sum_upd. Qed.

(** ** Well-formed inputs, with checkers that compute *)

Lemma nodupb_NoDup {A} dec (l : list A) : nodupb dec l = true -> NoDup l.
Proof.
  induction l as [|x l IH]; simpl; intros H; constructor.
  - destruct (in_dec dec x l); [discriminate | assumption].
  - apply IH. destruct (in_dec dec x l); [discriminate | assumption].
Qed.

Lemma varb_In v l : varb v l = true -> In v l.
Proof. unfold varb. destruct (in_dec Var_eq_dec v l); [auto | discriminate]. Qed.

Lemma wf_crosswordb_ok : wf_crosswordb = true -> wf_crossword.
Proof.
  unfold wf_crosswordb. rewrite !andb_true_iff.
  intros [[[Hv Hk] Ha] Hn].
  apply nodupb_NoDup in Hv, Hk. rewrite forallb_forall in Ha, Hn.
  assert (Harc : forall x y i j, overlap x y = Some (i, j) ->
            In ((x, y), Some (i, j)) (overlaps cw)).
  { intros x y i j. unfold overlap.
    destruct (dict_get arc_eq_dec (x, y) (overlaps cw)) as [o|] eqn:E; [|discriminate].
    intros ->. eapply dict_get_In; eauto. }
  constructor; auto.
  - intros x y i j H. apply Harc, Ha in H.
    rewrite !andb_true_iff in H. destruct H as [[[[[[H1 H2] H3] H4] H5] H6] _].
    apply varb_In in H1, H2. apply Nat.ltb_lt in H4, H5.
    destruct (Var_eq_dec x y); [discriminate|].
    destruct (overlap y x) as [[j' i']|]; [|discriminate].
    apply andb_true_iff in H6 as [E1 E2]. apply Nat.eqb_eq in E1, E2. subst.
    auto 10.
  - intros v n Hin. split.
    + intros I. apply Hn in Hin. apply andb_true_iff in Hin as [_ Hin].
      rewrite forallb_forall in Hin. apply Hin in I.
      destruct (overlap v n); [discriminate | discriminate].
    + intros H. destruct (overlap v n) as [[i j]|] eqn:E; [|congruence].
      apply Harc, Ha in E. rewrite !andb_true_iff in E.
      destruct E as [_ E]. now apply varb_In.
  - intros v Hin. apply Hn in Hin. apply andb_true_iff in Hin as [Hin _].
    now apply nodupb_NoDup in Hin.
Qed.

Lemma NoDup_values_inj {K V} (d : dict K V) k1 k2 v :
  NoDup (keys d) -> NoDup (values d) -> In (k1, v) d -> In (k2, v) d -> k1 = k2.
Proof.
  induction d as [|[k0 v0] d IH]; simpl; [tauto|].
  intros Hk Hv. inversion Hk as [|? ? Hk1 Hk2]; inversion Hv as [|? ? Hv1 Hv2]; subst.
  intros [E1|I1] [E2|I2].
  - congruence.
  - injection E1 as -> ->. exfalso. apply Hv1.
    change v with (snd (k2, v)). now apply in_map.
  - injection E2 as -> ->. exfalso. apply Hv1.
    change v with (snd (k1, v)). now apply in_map.
  - auto.
Qed.

Lemma wf_storeb_ok s : wf_storeb s = true -> wf_store s.
Proof.
  unfold wf_storeb. rewrite !andb_true_iff. intros [[[[Hk Hn] Hi] Hb] Hs].
  destruct (list_eq_dec Var_eq_dec (keys (domains s)) (variables cw)) as [Hk'|];
    [|discriminate].
  apply nodupb_NoDup in Hn, Hi. rewrite forallb_forall in Hb, Hs.
  constructor; auto.
  - intros u v l Hu Hv. apply dict_get_In in Hu, Hv.
    eapply NoDup_values_inj; eauto.
  - intros v l Hv. apply dict_get_In in Hv. apply (in_map snd) in Hv.
    apply Hb in Hv. now apply Nat.ltb_lt.
  - intros l. unfold deref.
    destruct (Nat.lt_ge_cases l (List.length (heap s))) as [Hl|Hl].
    + apply nodupb_NoDup with (dec := word_eq_dec). apply Hs. now apply nth_In.
    + rewrite nth_overflow by assumption. constructor.
Qed.

Lemma node_consistentb_ok s : node_consistentb s = true -> node_consistent s.
Proof.
  unfold node_consistentb. rewrite forallb_forall. intros H v w Hv Hw.
  apply H in Hv. rewrite forallb_forall in Hv. now apply Nat.eqb_eq, Hv.
Qed.

Lemma wf_store_key s v : wf_store s -> In v (variables cw) ->
  exists l, dict_get Var_eq_dec v (domains s) = Some l.
Proof.
  intros W H. rewrite <- (wf_keys W) in H. now apply In_keys_dict_get.
Qed.

Lemma dom_loc s v l : dict_get Var_eq_dec v (domains s) = Some l -> dom s v = deref s l.
Proof. intros E. unfold dom. now rewrite E. Qed.

Lemma wf_store_set_dom s l d :
  wf_store s -> NoDup d -> wf_store (set_dom l d s).
Proof.
  intros W Hd. constructor; simpl; try apply W.
  - intros v l' E. rewrite length_upd. eapply wf_bound; eauto.
  - intros l'. destruct (Nat.eq_dec l l') as [<-|Hne].
    + destruct (Nat.lt_ge_cases l (List.length (heap s))) as [Hl|Hl].
      * now rewrite deref_set_dom_eq.
      * unfold deref, set_dom; simpl. rewrite nth_overflow; [constructor|].
        now rewrite length_upd.
    + rewrite deref_set_dom_ne by assumption. apply W.
Qed.

Lemma dom_set_dom_eq s v l d :
  wf_store s -> dict_get Var_eq_dec v (domains s) = Some l ->
  dom (set_dom l d s) v = d.
Proof.
  intros W E. unfold dom; simpl. rewrite E. apply deref_set_dom_eq.
  eapply wf_bound; eauto.
Qed.

Lemma dom_set_dom_ne s u v l d :
  wf_store s -> dict_get Var_eq_dec v (domains s) = Some l -> u <> v ->
  dom (set_dom l d s) u = dom s u.
Proof.
  intros W E Hne. unfold dom; simpl.
  destruct (dict_get Var_eq_dec u (domains s)) as [l'|] eqn:E'; auto.
  apply deref_set_dom_ne. intros ->. apply Hne. eapply wf_inj; eauto.
Qed.

(** ** enforce_node_consistency *)

(** The inner loop over the copy [ws] of the set at [l]. *)
Lemma node_loop var l ws : forall s,
  dict_get Var_eq_dec var (domains s) = Some l ->
  l < List.length (heap s) ->
  NoDup ws -> incl ws (deref s l) ->
  mfold (fun s w =>
           if negb (String.length w =? var_length var)
           then domain_remove var w s
           else Ok s) ws s
  = Ok (set_dom l (remove_where (fun w => negb (fits var w)) ws (deref s l)) s).
Proof.
  induction ws as [|w ws IH]; intros s E Hl Hnd Hincl; simpl.
  - unfold remove_where; simpl. now rewrite set_dom_same.
  - inversion Hnd as [|? ? Hni Hnd']; subst.
    assert (In w (deref s l)) as Iw by (apply Hincl; now left).
    unfold remove_where; simpl. fold (fits var w).
    destruct (fits var w) eqn:F; simpl.
    + apply IH; auto. intros x Hx. apply Hincl. now right.
    + rewrite (@domain_remove_Ok _ _ _ _ E Iw). simpl.
      rewrite IH; simpl; auto.
      * rewrite deref_set_dom_eq by assumption. now rewrite set_dom_set_dom.
      * now rewrite length_upd.
      * rewrite deref_set_dom_eq by assumption.
        intros x Hx. apply in_in_remove.
        -- intros ->. contradiction.
        -- apply Hincl. now right.
Qed.

Lemma node_step s var :
  wf_store s -> In var (variables cw) ->
  exists l, dict_get Var_eq_dec var (domains s) = Some l /\
    (words <- domain_of s var ;;
     mfold (fun s w =>
              if negb (String.length w =? var_length var)
              then domain_remove var w s
              else Ok s) words s)
    = Ok (set_dom l (filter (fits var) (dom s var)) s).
Proof.
  intros W Hin. destruct (@wf_store_key _ _ W Hin) as [l E]. exists l. split; auto.
  rewrite (@domain_of_loc _ _ _ E). simpl.
  rewrite node_loop with (l := l); auto.
  - rewrite remove_where_self, (@dom_loc _ _ _ E). do 2 f_equal.
    apply filter_ext. intros w. now rewrite negb_involutive.
  - eapply wf_bound; eauto.
  - apply W.
  - apply incl_refl.
Qed.

Lemma filter_fits_idem v d : filter (fits v) (filter (fits v) d) = filter (fits v) d.
Proof. rewrite filter_filter. apply filter_ext. intros w. now destruct (fits v w). Qed.

Lemma node_outer vs : forall s,
  wf_store s -> incl vs (variables cw) ->
  exists s', mfold (fun s var =>
                      words <- domain_of s var ;;
                      mfold (fun s w =>
                               if negb (String.length w =? var_length var)
                               then domain_remove var w s
                               else Ok s) words s) vs s = Ok s' /\
    wf_store s' /\ domains s' = domains s /\ calls s' = calls s /\
    (forall u, In u vs -> dom s' u = filter (fits u) (dom s u)) /\
    (forall u, ~ In u vs -> dom s' u = dom s u).
Proof.
  induction vs as [|v vs IH]; intros s W Hincl.
  - exists s. simpl. tauto.
  - assert (In v (variables cw)) as Hv by (apply Hincl; now left).
    destruct (@node_step _ _ W Hv) as (l & E & Hstep).
    assert (W1 : wf_store (set_dom l (filter (fits v) (dom s v)) s)).
    { apply wf_store_set_dom; auto. apply NoDup_filter.
      rewrite (@dom_loc _ _ _ E). apply W. }
    assert (Hincl' : incl vs (variables cw)).
    { intros x Hx. apply Hincl. now right. }
    destruct (IH _ W1 Hincl') as (s' & Hs' & W' & Hd & Hc & Hin & Hout).
    exists s'. cbn [mfold]. rewrite Hstep. cbn [bind].
    split; [exact Hs'|]. split; [exact W'|]. split; [exact Hd|]. split; [exact Hc|].
    assert (Hu : forall u, u <> v ->
              dom (set_dom l (filter (fits v) (dom s v)) s) u = dom s u).
    { intros u Hne. now apply (@dom_set_dom_ne _ _ _ _ _ W E). }
    pose proof (@dom_set_dom_eq _ _ _ (filter (fits v) (dom s v)) W E) as Hv'.
    split.
    + intros u Hu'. destruct (in_dec Var_eq_dec u vs) as [I|N].
      * rewrite (Hin u I). destruct (Var_eq_dec u v) as [->|Hne].
        -- rewrite Hv'. apply filter_fits_idem.
        -- now rewrite Hu.
      * destruct Hu' as [<-|]; [|contradiction].
        now rewrite (Hout v N).
    + intros u Hu'. rewrite Hout by (intros I; apply Hu'; now right).
      apply Hu. intros ->. apply Hu'. now left.
Qed.

Lemma enforce_node_consistency_Ok s :
  wf_store s ->
  exists s', enforce_node_consistency cw s = Ok s' /\
    wf_store s' /\ domains s' = domains s /\ calls s' = calls s /\
    forall v, In v (variables cw) -> dom s' v = filter (fits v) (dom s v).
Proof.
  intros W. destruct (@node_outer (variables cw) s W (@incl_refl _ _))
    as (s' & Hs' & W' & Hd & Hc & Hdom & _).
  exists s'. auto.
Qed.

(** On a node-consistent store the loops remove nothing. *)
Lemma node_loop_noop var ws : forall s,
  (forall w, In w ws -> fits var w = true) ->
  mfold (fun s w =>
           if negb (String.length w =? var_length var)
           then domain_remove var w s
           else Ok s) ws s = Ok s.
Proof.
  induction ws as [|w ws IH]; intros s H; simpl; auto.
  fold (fits var w). rewrite (H w) by now left. simpl. apply IH.
  intros x Hx. apply H. now right.
Qed.

Lemma enforce_node_consistency_noop s :
  wf_store s -> node_consistent s -> enforce_node_consistency cw s = Ok s.
Proof.
  intros W N. unfold enforce_node_consistency.
  assert (H : forall vs, incl vs (variables cw) ->
            mfold (fun s var =>
                      words <- domain_of s var ;;
                      mfold (fun s w =>
                               if negb (String.length w =? var_length var)
                               then domain_remove var w s
                               else Ok s) words s) vs s = Ok s).
  { induction vs as [|v vs IH]; intros Hincl; simpl; auto.
    assert (In v (variables cw)) as Hv by (apply Hincl; now left).
    rewrite domain_of_key by (rewrite (wf_keys W); exact Hv). simpl.
    rewrite node_loop_noop; simpl.
    - apply IH. intros x Hx. apply Hincl. now right.
    - intros w Hw. apply Nat.eqb_eq. now apply N. }
  apply H, incl_refl.
Qed.

(** ** revise *)

Lemma existsb_negb {A} (f : A -> bool) l :
  existsb (fun x => negb (f x)) l = negb (forallb f l).
Proof.
  induction l as [|x l IH]; simpl; auto. rewrite IH. now destruct (f x).
Qed.

Lemma found_loop ox oy x_word c dy :
  String.get ox x_word = Some c ->
  (forall w, In w dy -> oy < String.length w) ->
  forall b,
  mfold (fun found y_word =>
           cx <- char_at x_word ox ;;
           cy <- char_at y_word oy ;;
           Ok (if Ascii.eqb cx cy then true else found)) dy b
  = Ok (b || supported ox oy dy x_word).
Proof.
  intros Hc. unfold supported.
  induction dy as [|w dy IH]; intros Hr b; simpl.
  - now rewrite orb_false_r.
  - destruct (@get_in_range w oy) as [c' Hc']; [apply Hr; now left|].
    unfold char_at at 1 2. rewrite Hc, Hc'. simpl.
    rewrite IH by (intros; apply Hr; now right).
    unfold agree at 2. rewrite Hc, Hc'.
    f_equal. destruct (Ascii.eqb c c'), b; reflexivity.
Qed.

Lemma revise_loop x y lx ly ox oy ws : forall s b,
  dict_get Var_eq_dec x (domains s) = Some lx ->
  dict_get Var_eq_dec y (domains s) = Some ly ->
  lx <> ly -> lx < List.length (heap s) ->
  NoDup ws -> incl ws (deref s lx) ->
  (forall w, In w ws -> ox < String.length w) ->
  (forall w, In w (deref s ly) -> oy < String.length w) ->
  mfold (fun '(revised, s) x_word =>
           dy <- domain_of s y ;;
           consistent_y_value <-
             mfold (fun found y_word =>
                      cx <- char_at x_word ox ;;
                      cy <- char_at y_word oy ;;
                      Ok (if Ascii.eqb cx cy then true else found))
                   dy false ;;
           if negb consistent_y_value
           then s' <- domain_remove x x_word s ;; Ok (true, s')
           else Ok (revised, s))
        ws (b, s)
  = Ok (b || existsb (fun w => negb (supported ox oy (deref s ly) w)) ws,
        set_dom lx (remove_where (fun w => negb (supported ox oy (deref s ly) w))
                                 ws (deref s lx)) s).
Proof.
  induction ws as [|w ws IH]; intros s b Ex Ey Hne Hl Hnd Hincl Hrx Hry.
  - simpl. unfold remove_where; simpl. now rewrite set_dom_same, orb_false_r.
  - inversion Hnd as [|? ? Hni Hnd']; subst.
    assert (In w (deref s lx)) as Iw by (apply Hincl; now left).
    destruct (@get_in_range w ox) as [c Hc]; [apply Hrx; now left|].
    cbn [mfold]. rewrite (@domain_of_loc _ _ _ Ey). cbn [bind].
    rewrite (@found_loop ox oy w c (deref s ly) Hc Hry false). cbn [bind orb].
    change (remove_where (fun w => negb (supported ox oy (deref s ly) w))
                         (w :: ws) (deref s lx))
      with (remove_where (fun w => negb (supported ox oy (deref s ly) w)) ws
              (if negb (supported ox oy (deref s ly) w)
               then remove word_eq_dec w (deref s lx) else deref s lx)).
    cbn [existsb].
    destruct (supported ox oy (deref s ly) w) eqn:S; cbn [negb bind orb].
    + rewrite IH; auto.
      * intros u Hu. apply Hincl. now right.
      * intros u Hu. apply Hrx. now right.
    + rewrite (@domain_remove_Ok _ _ _ _ Ex Iw). cbn [bind].
      rewrite IH; auto.
      * rewrite deref_set_dom_ne by assumption.
        rewrite deref_set_dom_eq by assumption.
        rewrite set_dom_set_dom. now rewrite orb_true_r.
      * simpl. now rewrite length_upd.
      * rewrite deref_set_dom_eq by assumption.
        intros u Hu. apply in_in_remove.
        -- intros ->. contradiction.
        -- apply Hincl. now right.
      * intros u Hu. apply Hrx. now right.
      * now rewrite deref_set_dom_ne by assumption.
Qed.

Lemma revise_None s x y :
  dict_get arc_eq_dec (x, y) (overlaps cw) = Some None -> revise cw x y s = Ok (false, s).
Proof. intros E. unfold revise, dict_item. now rewrite E. Qed.

Lemma revise_Some s x y ox oy :
  wf_store s -> In x (variables cw) -> In y (variables cw) -> x <> y ->
  dict_get arc_eq_dec (x, y) (overlaps cw) = Some (Some (ox, oy)) ->
  (forall w, In w (dom s x) -> ox < String.length w) ->
  (forall w, In w (dom s y) -> oy < String.length w) ->
  exists lx, dict_get Var_eq_dec x (domains s) = Some lx /\
    revise cw x y s
    = Ok (negb (forallb (supported ox oy (dom s y)) (dom s x)),
          set_dom lx (filter (supported ox oy (dom s y)) (dom s x)) s).
Proof.
  intros W Hx Hy Hne E Hrx Hry.
  destruct (@wf_store_key _ _ W Hx) as [lx Ex].
  destruct (@wf_store_key _ _ W Hy) as [ly Ey].
  exists lx. split; auto.
  rewrite (@dom_loc _ _ _ Ex) in *. rewrite (@dom_loc _ _ _ Ey) in *.
  unfold revise, dict_item. rewrite E. cbn [bind].
  rewrite (@domain_of_loc _ _ _ Ex). cbn [bind].
  rewrite (@revise_loop x y lx ly ox oy); auto.
  - rewrite remove_where_self, existsb_negb. cbn [orb]. do 3 f_equal.
    apply filter_ext. intros w. now rewrite negb_involutive.
  - intros ->. apply Hne. eapply wf_inj; eauto.
  - eapply wf_bound; eauto.
  - apply W.
  - apply incl_refl.
Qed.

(** ** consistent *)

Lemma consistent_neighbors_true a var w ns :
  consistent_neighbors cw a var w ns = Ok true <->
  forall n, In n ns -> nb_ok a var w n.
Proof.
  induction ns as [|n ns IH]; simpl.
  - split; [intros _ n [] | reflexivity].
  - unfold dict_mem, dict_item.
    destruct (dict_get Var_eq_dec n a) as [w2|] eqn:En.
    + assert (Hn : nb_ok a var w n <->
                exists i j, overlap var n = Some (i, j) /\ agree i j w w2 = true).
      { unfold nb_ok. rewrite En. split.
        - intros H. now apply H.
        - intros H w2' [= <-]. exact H. }
      unfold overlap in Hn.
      destruct (dict_get arc_eq_dec (var, n) (overlaps cw)) as [[[i j]|]|] eqn:Eo;
        cbn [bind].
      * assert (Hn' : nb_ok a var w n <-> agree i j w w2 = true).
        { rewrite Hn. split.
          - intros (i' & j' & [= <- <-] & D). exact D.
          - intros D. eauto. }
        clear Hn. unfold agree in Hn'. unfold char_at.
        destruct (String.get i w) as [c1|]; cbn [bind].
        2:{ split; [discriminate|]. intros H.
            pose proof (proj1 Hn' (H n (or_introl eq_refl))). discriminate. }
        destruct (String.get j w2) as [c2|]; cbn [bind].
        2:{ split; [discriminate|]. intros H.
            pose proof (proj1 Hn' (H n (or_introl eq_refl))). discriminate. }
        destruct (Ascii.eqb c1 c2) eqn:Ec; cbn [negb].
        -- rewrite IH. split.
           ++ intros H m [<-|I]; [|now apply H]. now apply Hn'.
           ++ intros H m I. apply H. now right.
        -- split; [discriminate|]. intros H.
           pose proof (proj1 Hn' (H n (or_introl eq_refl))). discriminate.
      * split; [discriminate|]. intros H.
        destruct (proj1 Hn (H n (or_introl eq_refl))) as (i' & j' & D & _).
        discriminate.
      * split; [discriminate|]. intros H.
        destruct (proj1 Hn (H n (or_introl eq_refl))) as (i' & j' & D & _).
        discriminate.
    + rewrite IH. split.
      * intros H m [<-|I]; [|now apply H]. intros w2 E. congruence.
      * intros H m I. apply H. now right.
Qed.

Lemma consistent_items_true a items :
  consistent_items cw a items = Ok true <->
  forall v w, In (v, w) items ->
    String.length w = var_length v /\ forall n, In n (neighbors cw v) -> nb_ok a v w n.
Proof.
  induction items as [|[v w] items IH]; simpl.
  - split; [intros _ v w [] | reflexivity].
  - destruct (var_length v =? String.length w) eqn:El; cbn [negb].
    + apply Nat.eqb_eq in El.
      destruct (consistent_neighbors cw a v w (neighbors cw v)) as [[|]|e] eqn:En;
        cbn [bind].
      * rewrite IH. pose proof (proj1 (consistent_neighbors_true _ _ _ _) En) as En'.
        split.
        -- intros H v' w' [[= <- <-]|I]; [auto | now apply H].
        -- intros H v' w' I. apply H. now right.
      * split; [discriminate|]. intros H.
        destruct (H v w (or_introl eq_refl)) as [_ H'].
        pose proof (proj2 (consistent_neighbors_true _ _ _ _) H'). congruence.
      * split; [discriminate|]. intros H.
        destruct (H v w (or_introl eq_refl)) as [_ H'].
        pose proof (proj2 (consistent_neighbors_true _ _ _ _) H'). congruence.
    + apply Nat.eqb_neq in El. split; [discriminate|]. intros H.
      destruct (H v w (or_introl eq_refl)) as [H' _]. congruence.
Qed.

Lemma length_nodup_le (l : list word) :
  List.length (nodup word_eq_dec l) <= List.length l.
Proof.
  induction l as [|x l IH]; simpl; auto.
  destruct (in_dec word_eq_dec x l); simpl; lia.
Qed.

Lemma length_nodup_eq (l : list word) :
  List.length (nodup word_eq_dec l) = List.length l <-> NoDup l.
Proof.
  split.
  - induction l as [|x l IH]; simpl; [constructor|].
    pose proof (length_nodup_le l) as Hle.
    destruct (in_dec word_eq_dec x l); simpl; intros H; [lia|].
    constructor; auto.
  - intros H. now rewrite nodup_fixed_point.
Qed.

Lemma consistent_true a :
  consistent cw a = Ok true <->
  (forall v w, In (v, w) a ->
     String.length w = var_length v /\ forall n, In n (neighbors cw v) -> nb_ok a v w n) /\
  NoDup (values a).
Proof.
  unfold consistent. rewrite <- consistent_items_true, <- length_nodup_eq.
  destruct (consistent_items cw a a) as [[|]|e]; cbn [bind].
  - destruct (List.length (nodup word_eq_dec (values a)) =? List.length (values a)) eqn:E;
      cbn [negb].
    + apply Nat.eqb_eq in E. tauto.
    + apply Nat.eqb_neq in E. split; [discriminate | tauto].
  - split; [discriminate | intros [? _]; discriminate].
  - split; [discriminate | intros [? _]; discriminate].
Qed.

Lemma NoDup_values_iff (a : assignment) :
  NoDup (keys a) ->
  (NoDup (values a) <->
   forall x y wx wy, dict_get Var_eq_dec x a = Some wx ->
     dict_get Var_eq_dec y a = Some wy -> x <> y -> wx <> wy).
Proof.
  intros Hk. split.
  - intros Hv x y wx wy Ex Ey Hne ->. apply Hne.
    apply dict_get_In in Ex, Ey. eapply NoDup_values_inj; eauto.
  - induction a as [|[k w] a IH]; simpl; intros H; constructor.
    + inversion Hk as [|? ? Hni Hk']; subst. simpl in *.
      intros I. apply in_map_iff in I as ([k' w'] & E & I). simpl in E. subst w'.
      assert (k' <> k) as Hne.
      { intros ->. apply Hni. apply (in_map fst) in I. exact I. }
      apply (H k k' w w); auto.
      * destruct (Var_eq_dec k k); congruence.
      * destruct (Var_eq_dec k' k); [congruence|]. now apply In_dict_get.
    + inversion Hk as [|? ? Hni Hk']; subst. apply IH; auto.
      intros x y wx wy Ex Ey Hne. apply (H x y); auto.
      * destruct (Var_eq_dec x k) as [->|]; auto.
        exfalso. apply Hni. eapply dict_get_Some_key; eauto.
      * destruct (Var_eq_dec y k) as [->|]; auto.
        exfalso. apply Hni. eapply dict_get_Some_key; eauto.
Qed.

Lemma overlap_Some x y i j :
  overlap x y = Some (i, j) <->
  dict_get arc_eq_dec (x, y) (overlaps cw) = Some (Some (i, j)).
Proof.
  unfold overlap. destruct (dict_get arc_eq_dec (x, y) (overlaps cw)) as [[o|]|];
    split; congruence.
Qed.

(** [consistent] accepts exactly the valid assignments. *)
Lemma consistent_valid a :
  wf_crossword -> NoDup (keys a) -> incl (keys a) (variables cw) ->
  (consistent cw a = Ok true <-> valid a).
Proof.
  intros WC Hk Hincl. rewrite consistent_true, (NoDup_values_iff a Hk).
  unfold valid. split.
  - intros [Hit Hd]. split; [|split; [|exact Hd]].
    + intros v w E. apply dict_get_In in E. now apply Hit.
    + intros x y wx wy i j Ex Ey Eo.
      destruct (@wfc_arc WC _ _ _ _ Eo) as (Hx & _).
      apply dict_get_In in Ex. destruct (Hit _ _ Ex) as [_ Hn].
      assert (In y (neighbors cw x)) as Hy.
      { apply (@wfc_nb WC); auto. congruence. }
      destruct (Hn y Hy wy Ey) as (i' & j' & Eo' & Ha). congruence.
  - intros (Hl & Ha & Hd). split; [|exact Hd].
    intros v w I. pose proof (@In_dict_get _ _ Var_eq_dec _ _ _ Hk I) as E.
    split; [now apply Hl|].
    intros n Hn w2 En.
    assert (In v (variables cw)) as Hv.
    { apply Hincl. apply (in_map fst) in I. exact I. }
    apply (@wfc_nb WC) in Hn; auto.
    destruct (overlap v n) as [[i j]|] eqn:Eo; [|congruence].
    exists i, j. split; auto. eapply Ha; eauto.
Qed.

(** ** select_unassigned_variable *)

Lemma fold_min_le l : forall x,
  fold_left Nat.min l x <= x /\ (forall y, In y l -> fold_left Nat.min l x <= y) /\
  In (fold_left Nat.min l x) (x :: l).
Proof.
  induction l as [|y l IH]; intros x; simpl.
  - split; [lia|]. split; [tauto | now left].
  - destruct (IH (Nat.min x y)) as (H1 & H2 & H3). split; [lia|]. split.
    + intros z [<-|I]; [lia | now apply H2].
    + destruct H3 as [H3|H3]; [|auto].
      rewrite <- H3. destruct (Nat.min_spec x y) as [[_ ->]|[_ ->]]; auto.
Qed.

Lemma py_min_Ok l m : py_min l = Ok m -> In m l /\ forall y, In y l -> m <= y.
Proof.
  destruct l as [|x l]; simpl; [discriminate|]. intros [= <-].
  destruct (fold_min_le l x) as (H1 & H2 & H3). split; auto.
  intros y [<-|I]; auto.
Qed.

Lemma unassigned_fold_keys (a : assignment) s vs : forall d0 d,
  mfold (fun (d : dict Var nat) var =>
           if negb (dict_mem Var_eq_dec var a) then
             dom <- domain_of s var ;;
             Ok (dict_set Var_eq_dec var (List.length dom) d)
           else Ok d) vs d0 = Ok d ->
  (forall k, In k (keys d) ->
     In k (keys d0) \/ (In k vs /\ dict_mem Var_eq_dec k a = false)) /\
  (forall k, In k (keys d0) -> In k (keys d)) /\
  (forall v, In v vs -> dict_mem Var_eq_dec v a = false -> In v (keys d)).
Proof.
  induction vs as [|v vs IH]; intros d0 d; cbn [mfold].
  - intros [= <-]. split; [auto|]. split; [auto|]. intros v [].
  - intros H. apply bind_Ok in H as (d1 & H1 & H).
    destruct (IH _ _ H) as (K1 & K2 & K3).
    destruct (dict_mem Var_eq_dec v a) eqn:M; cbn [negb] in H1.
    + injection H1 as <-. split; [|split; auto].
      * intros k I. destruct (K1 k I) as [|[? ?]]; [auto | right; split; simpl; auto].
      * intros u [<-|I] Hu; [congruence | auto].
    + apply bind_Ok in H1 as (dm & _ & [= <-]). split; [|split].
      * intros k I. destruct (K1 k I) as [I'|[? ?]]; [|right; split; simpl; auto].
        apply In_keys_dict_set in I' as [->|]; [right; simpl; auto | auto].
      * intros k I. apply K2, In_keys_dict_set. auto.
      * intros u [<-|I] Hu; [|auto]. apply K2, In_keys_dict_set. auto.
Qed.

Lemma unassigned_fold_eq (a : assignment) s :
  keys (domains s) = variables cw ->
  forall vs d0, incl vs (variables cw) -> NoDup vs ->
  (forall v, In v vs -> ~ In v (keys d0)) ->
  mfold (fun (d : dict Var nat) var =>
           if negb (dict_mem Var_eq_dec var a) then
             dom <- domain_of s var ;;
             Ok (dict_set Var_eq_dec var (List.length dom) d)
           else Ok d) vs d0
  = Ok (d0 ++ map (fun v => (v, size s v))
                  (filter (fun v => negb (dict_mem Var_eq_dec v a)) vs)).
Proof.
  intros Hk.
  induction vs as [|v vs IH]; intros d0 Hincl Hnd Hnew; cbn [mfold filter map].
  - now rewrite app_nil_r.
  - inversion Hnd as [|? ? Hni Hnd']; subst.
    assert (Hincl' : incl vs (variables cw)) by (intros x Hx; apply Hincl; now right).
    destruct (dict_mem Var_eq_dec v a) eqn:M; cbn [negb bind].
    + apply IH; auto. intros u Hu. apply Hnew. now right.
    + rewrite domain_of_key by (rewrite Hk; apply Hincl; now left). cbn [bind].
      rewrite dict_set_new by (apply Hnew; now left).
      rewrite IH; auto.
      * cbn [map]. now rewrite <- app_assoc.
      * intros u Hu. unfold keys. rewrite map_app, in_app_iff. simpl.
        intros [I|[<-|[]]]; [|contradiction].
        apply (Hnew u); [now right | exact I].
Qed.

Lemma sort_by_head {A} (le : A -> A -> bool) l h t :
  (forall x y, le x y = true \/ le y x = true) ->
  (forall x y z, le x y = true -> le y z = true -> le x z = true) ->
  sort_by le l = h :: t -> In h l /\ forall x, In x l -> le h x = true.
Proof.
  intros Htot Htrans E.
  pose proof (sort_by_perm le l) as P. pose proof (sort_by_sorted le Htot Htrans l) as S.
  rewrite E in P, S. split.
  - eapply Permutation_in; [exact P | now left].
  - intros x Hx. apply (Permutation_in _ (Permutation_sym P)) in Hx.
    destruct Hx as [<-|I].
    + destruct (Htot h h); assumption.
    + apply StronglySorted_inv in S as [_ S]. rewrite Forall_forall in S. now apply S.
Qed.

(** Whatever the store, a selected variable is an unassigned variable of
    the grid. *)
Lemma select_unassigned (a : assignment) s v :
  select_unassigned_variable cw a s = Ok v ->
  In v (variables cw) /\ dict_mem Var_eq_dec v a = false.
Proof.
  unfold select_unassigned_variable. intros H.
  apply bind_Ok in H as (d & Hd & H). apply bind_Ok in H as (m & _ & H).
  apply unassigned_fold_keys in Hd as (K & _ & _).
  set (L := map fst (filter (fun kv => snd kv =? m) d)) in H.
  assert (HL : forall x, In x L -> In x (keys d)).
  { intros x Hx. apply in_map_iff in Hx as (kv & <- & I).
    apply filter_In in I as [I _]. now apply in_map. }
  assert (Hv : In v L).
  { destruct (1 <? List.length L).
    - destruct (sort_by _ L) as [|h t] eqn:E; [discriminate|]. injection H as <-.
      eapply Permutation_in; [apply sort_by_perm|]. rewrite E. now left.
    - destruct L as [|h t]; [discriminate|]. injection H as <-. now left. }
  destruct (K v (HL v Hv)) as [[]|]; auto.
Qed.

(** With every variable covered by the store, the selection succeeds
    exactly when some variable is unassigned, and follows the
    minimum-remaining-values and degree heuristics. *)
Lemma select_Ok (a : assignment) s :
  NoDup (variables cw) -> keys (domains s) = variables cw ->
  assignment_complete cw a = false ->
  exists v, select_unassigned_variable cw a s = Ok v /\
    In v (variables cw) /\ dict_mem Var_eq_dec v a = false /\
    (forall u, In u (variables cw) -> dict_mem Var_eq_dec u a = false ->
               size s v <= size s u) /\
    (forall u, In u (variables cw) -> dict_mem Var_eq_dec u a = false ->
               size s u = size s v -> degree cw u <= degree cw v).
Proof.
  intros Hnd Hk Hc.
  assert (Hex : exists u, In u (unassigned cw a)).
  { unfold assignment_complete in Hc.
    destruct (forallb (fun var => dict_mem Var_eq_dec var a) (variables cw)) eqn:F;
      [discriminate|].
    destruct (unassigned cw a) as [|u U] eqn:EU; [|exists u; now left].
    exfalso. assert (forallb (fun var => dict_mem Var_eq_dec var a) (variables cw) = true);
      [|congruence].
    apply forallb_forall. intros x Hx.
    destruct (dict_mem Var_eq_dec x a) eqn:M; auto.
    assert (In x (unassigned cw a)) as I by (apply filter_In; rewrite M; auto).
    rewrite EU in I. destruct I. }
  assert (HU : forall u, In u (unassigned cw a) <->
                 In u (variables cw) /\ dict_mem Var_eq_dec u a = false).
  { intros u. unfold unassigned. rewrite filter_In, negb_true_iff. tauto. }
  unfold select_unassigned_variable.
  rewrite unassigned_fold_eq; auto using incl_refl. cbn [bind app].
  fold (unassigned cw a).
  set (U := map (fun v => (v, size s v)) (unassigned cw a)).
  assert (HV : values U = map (size s) (unassigned cw a)).
  { unfold U, values. rewrite map_map. reflexivity. }
  destruct (py_min (values U)) as [m|e] eqn:Em.
  2:{ destruct Hex as [u Hu]. unfold py_min in Em. rewrite HV in Em.
      destruct (unassigned cw a); [destruct Hu | discriminate]. }
  cbn [bind]. apply py_min_Ok in Em as [Hm1 Hm2]. rewrite HV in Hm1, Hm2.
  set (L := map fst (filter (fun kv => snd kv =? m) U)).
  assert (HL : forall x, In x L <-> In x (unassigned cw a) /\ size s x = m).
  { intros x. unfold L, U. rewrite in_map_iff. split.
    - intros ([k n] & <- & I). apply filter_In in I as [I E]. simpl in *.
      apply in_map_iff in I as (k' & [= <- <-] & I). apply Nat.eqb_eq in E. auto.
    - intros [I E]. exists (x, size s x). split; auto.
      apply filter_In. split; [|now apply Nat.eqb_eq].
      apply in_map_iff. eauto. }
  assert (Hh : exists h, (if 1 <? List.length L
                          then sort_by (fun x y => degree cw y <=? degree cw x) L
                          else L) = h :: tl (if 1 <? List.length L
                          then sort_by (fun x y => degree cw y <=? degree cw x) L
                          else L) /\ In h L /\
                         forall x, In x L -> degree cw x <= degree cw h).
  { destruct (1 <? List.length L) eqn:E1.
    - destruct (sort_by (fun x y => degree cw y <=? degree cw x) L) as [|h t] eqn:E.
      + exfalso. pose proof (sort_by_perm (fun x y => degree cw y <=? degree cw x) L) as P.
        rewrite E in P. apply Permutation_nil in P.
        rewrite P in E1. discriminate.
      + exists h. split; auto.
        apply sort_by_head in E as [I Hmax].
        * split; auto. intros x Hx. apply Nat.leb_le. now apply Hmax.
        * intros x y. rewrite !Nat.leb_le. lia.
        * intros x y z. rewrite !Nat.leb_le. lia.
    - destruct L as [|h [|h' t]] eqn:EL.
      + exfalso. apply in_map_iff in Hm1 as (u & Eu & Iu).
        apply (proj2 (HL u)). auto.
      + exists h. split; auto. split; [now left|]. intros x [<-|[]]. lia.
      + simpl in E1. discriminate. }
  destruct Hh as (h & -> & Ih & Hmax). exists h. split; auto.
  apply HL in Ih as [Ih Eh]. apply HU in Ih as [Ih1 Ih2].
  split; auto. split; auto. split.
  - intros u Hu Mu. rewrite Eh. apply Hm2. apply in_map. apply HU. auto.
  - intros u Hu Mu Es. apply Hmax. apply HL. split; [apply HU; auto | congruence].
Qed.

Lemma select_complete (a : assignment) s :
  assignment_complete cw a = true ->
  select_unassigned_variable cw a s = Raise ValueError.
Proof.
  intros Hc. unfold assignment_complete in Hc. rewrite forallb_forall in Hc.
  unfold select_unassigned_variable.
  assert (H : forall vs d, incl vs (variables cw) ->
            mfold (fun (d : dict Var nat) var =>
                     if negb (dict_mem Var_eq_dec var a) then
                       dom <- domain_of s var ;;
                       Ok (dict_set Var_eq_dec var (List.length dom) d)
                     else Ok d) vs d = Ok d).
  { induction vs as [|v vs IH]; intros d Hincl; cbn [mfold]; auto.
    rewrite (Hc v) by (apply Hincl; now left). cbn [negb bind].
    apply IH. intros x Hx. apply Hincl. now right. }
  rewrite H by apply incl_refl. reflexivity.
Qed.

(** ** order_domain_values *)

Lemma tab_ext g1 g2 ws : (forall w, In w ws -> g1 w = g2 w) -> tab g1 ws = tab g2 ws.
Proof. intros H. apply map_ext_in. intros w Hw. now rewrite H. Qed.

Lemma tab_get g ws w : In w ws -> dict_get word_eq_dec w (tab g ws) = Some (g w).
Proof.
  induction ws as [|x ws IH]; simpl; [tauto|].
  destruct (word_eq_dec w x) as [->|Hne]; auto.
  intros [->|I]; [congruence | auto].
Qed.

Lemma tab_set g ws w v :
  NoDup ws -> In w ws ->
  dict_set word_eq_dec w v (tab g ws)
  = tab (fun x => if word_eq_dec x w then v else g x) ws.
Proof.
  induction ws as [|x ws IH]; simpl; [tauto|].
  intros Hnd Hin. inversion Hnd as [|? ? Hni Hnd']; subst.
  destruct (word_eq_dec w x) as [->|Hne].
  - destruct (word_eq_dec x x); [|congruence]. f_equal.
    apply tab_ext. intros y Hy. destruct (word_eq_dec y x) as [->|]; tauto.
  - destruct (word_eq_dec x w); [congruence|]. f_equal.
    apply IH; auto. destruct Hin; congruence.
Qed.

Lemma lcv_inner ws w ov on c1 dn :
  NoDup ws -> In w ws -> String.get ov w = Some c1 ->
  (forall c, In c dn -> on < String.length c) ->
  forall g, exists g',
    mfold (fun counts possible_choice =>
             match Some (ov, on) with
             | None => Raise TypeError
             | Some (ov, on) =>
                 c1 <- char_at w ov ;;
                 c2 <- char_at possible_choice on ;;
                 if negb (Ascii.eqb c1 c2) then
                   n <- dict_item word_eq_dec w counts ;;
                   Ok (dict_set word_eq_dec w (n + 1) counts)
                 else Ok counts
             end) dn (tab g ws) = Ok (tab g' ws) /\
    g' w = g w + List.length (filter (fun c => negb (agree ov on w c)) dn) /\
    forall x, x <> w -> g' x = g x.
Proof.
  intros Hnd Hin Hc.
  induction dn as [|c dn IH]; intros Hr g; cbn [mfold filter].
  - exists g. simpl. split; auto.
  - destruct (@get_in_range c on) as [c2 Hc2]; [apply Hr; now left|].
    unfold char_at at 1 2. rewrite Hc, Hc2. cbn [bind].
    unfold agree at 1. rewrite Hc, Hc2.
    assert (Hr' : forall c, In c dn -> on < String.length c)
      by (intros; apply Hr; now right).
    destruct (Ascii.eqb c1 c2); cbn [negb bind].
    + apply IH; auto.
    + unfold dict_item. rewrite tab_get by assumption. cbn [bind].
      rewrite tab_set by assumption.
      destruct (IH Hr' (fun x => if word_eq_dec x w then g w + 1 else g x))
        as (g' & Hg' & Hw & Hx).
      exists g'. split; [exact Hg'|]. split.
      * rewrite Hw. destruct (word_eq_dec w w); [|congruence]. simpl. lia.
      * intros x Hne. rewrite Hx by assumption.
        destruct (word_eq_dec x w); congruence.
Qed.

Lemma lcv_middle s var ws w ns :
  wf_crossword -> wf_store s -> node_consistent s ->
  In var (variables cw) -> NoDup ws -> In w ws -> In w (dom s var) ->
  incl ns (neighbors cw var) ->
  forall g, exists g',
    mfold (fun counts neighbor =>
             overlap <- dict_item arc_eq_dec (var, neighbor) (overlaps cw) ;;
             dn <- domain_of s neighbor ;;
             mfold (fun counts possible_choice =>
                      match overlap with
                      | None => Raise TypeError
                      | Some (ov, on) =>
                          c1 <- char_at w ov ;;
                          c2 <- char_at possible_choice on ;;
                          if negb (Ascii.eqb c1 c2) then
                            n <- dict_item word_eq_dec w counts ;;
                            Ok (dict_set word_eq_dec w (n + 1) counts)
                          else Ok counts
                      end) dn counts) ns (tab g ws) = Ok (tab g' ws) /\
    g' w = g w + list_sum (map (ruled_out_by s var w) ns) /\
    forall x, x <> w -> g' x = g x.
Proof.
  intros WC W N Hvar Hnd Hin Hdom.
  induction ns as [|n ns IH]; intros Hincl g; cbn [mfold map list_sum].
  - exists g. split; auto.
  - assert (In n (neighbors cw var)) as Hn by (apply Hincl; now left).
    apply (@wfc_nb WC) in Hn; auto.
    destruct (overlap var n) as [[ov on]|] eqn:Eo; [|congruence].
    destruct (@wfc_arc WC _ _ _ _ Eo) as (_ & Hnv & _ & Hov & Hon & _).
    unfold dict_item at 1. rewrite (proj1 (overlap_Some _ _ _ _) Eo). cbn [bind].
    rewrite domain_of_key by (rewrite (wf_keys W); exact Hnv). cbn [bind].
    destruct (@get_in_range w ov) as [c1 Hc1].
    { rewrite (N var w); auto. }
    destruct (@lcv_inner ws w ov on c1 (dom s n) Hnd Hin Hc1) with (g := g)
      as (g1 & Hg1 & Hw1 & Hx1).
    { intros c Hc. rewrite (N n c); auto. }
    destruct (IH (fun x Hx => Hincl x (or_intror Hx)) g1) as (g' & Hg' & Hw & Hx).
    exists g'. split; [exact (@bind_intro _ _ _ _ _ _ Hg1 Hg')|]. split.
    + assert (ruled_out_by s var w n
              = List.length (filter (fun c => negb (agree ov on w c)) (dom s n))) as ->
        by (unfold ruled_out_by; now rewrite Eo).
      rewrite Hw, Hw1. simpl. lia.
    + intros x Hne. now rewrite Hx, Hx1.
Qed.

Lemma lcv_outer s var (a : assignment) dom0 ws :
  wf_crossword -> wf_store s -> node_consistent s ->
  In var (variables cw) -> NoDup dom0 -> incl dom0 (dom s var) ->
  NoDup ws -> incl ws dom0 ->
  forall g, exists g',
    mfold (fun counts w =>
             mfold (fun counts neighbor =>
                      overlap <- dict_item arc_eq_dec (var, neighbor) (overlaps cw) ;;
                      dn <- domain_of s neighbor ;;
                      mfold (fun counts possible_choice =>
                               match overlap with
                               | None => Raise TypeError
                               | Some (ov, on) =>
                                   c1 <- char_at w ov ;;
                                   c2 <- char_at possible_choice on ;;
                                   if negb (Ascii.eqb c1 c2) then
                                     n <- dict_item word_eq_dec w counts ;;
                                     Ok (dict_set word_eq_dec w (n + 1) counts)
                                   else Ok counts
                               end) dn counts)
                   (filter (fun v => negb (dict_mem Var_eq_dec v a)) (neighbors cw var))
                   counts) ws (tab g dom0) = Ok (tab g' dom0) /\
    (forall w, In w ws -> g' w = g w + eliminated s var a w) /\
    forall x, ~ In x ws -> g' x = g x.
Proof.
  intros WC W N Hvar Hnd0 Hincl0.
  induction ws as [|w ws IH]; intros Hnd Hincl g; cbn [mfold].
  - exists g. split; auto. split; [intros w []|auto].
  - inversion Hnd as [|? ? Hni Hnd']; subst.
    assert (In w dom0) as Hw0 by (apply Hincl; now left).
    destruct (@lcv_middle s var dom0 w
                (filter (fun v => negb (dict_mem Var_eq_dec v a)) (neighbors cw var))
                WC W N Hvar Hnd0 Hw0 (Hincl0 _ Hw0)) with (g := g)
      as (g1 & Hg1 & Hw1 & Hx1).
    { intros x Hx. now apply filter_In in Hx as [Hx _]. }
    destruct (IH Hnd' (fun x Hx => Hincl x (or_intror Hx)) g1) as (g' & Hg' & Hin & Hout).
    exists g'. split; [exact (@bind_intro _ _ _ _ _ _ Hg1 Hg')|]. split.
    + intros x [<-|I].
      * rewrite Hout by assumption. rewrite Hw1. reflexivity.
      * rewrite Hin by assumption. rewrite Hx1; auto. intros ->. contradiction.
    + intros x Hx. rewrite Hout by (intros I; apply Hx; now right).
      apply Hx1. intros ->. apply Hx. now left.
Qed.

Lemma keyed_Ok g ws : forall ws0,
  incl ws0 ws ->
  mmap (fun w => n <- dict_item word_eq_dec w (tab g ws) ;; Ok (n, w)) ws0
  = Ok (map (fun w => (g w, w)) ws0).
Proof.
  induction ws0 as [|w ws0 IH]; intros Hincl; cbn [mmap map]; auto.
  unfold dict_item at 1. rewrite tab_get by (apply Hincl; now left). cbn [bind].
  rewrite IH by (intros x Hx; apply Hincl; now right). reflexivity.
Qed.

Lemma sorted_map_snd (f : word -> nat) (l : list (nat * word)) :
  (forall p, In p l -> fst p = f (snd p)) ->
  StronglySorted (fun p q => (fst p <=? fst q) = true) l ->
  StronglySorted (fun w1 w2 => f w1 <= f w2) (map snd l).
Proof.
  intros Hf S. induction S as [|p l S IH Hall]; simpl; constructor.
  - apply IH. intros q Hq. apply Hf. now right.
  - rewrite Forall_forall in *. intros w Hw.
    apply in_map_iff in Hw as (q & <- & Hq).
    rewrite <- (Hf p) by now left. rewrite <- (Hf q) by now right.
    apply Nat.leb_le. now apply Hall.
Qed.

Lemma order_domain_values_Ok s var (a : assignment) :
  wf_crossword -> wf_store s -> node_consistent s -> In var (variables cw) ->
  exists l, order_domain_values cw var a s = Ok l /\
    Permutation l (dom s var) /\
    StronglySorted (fun w1 w2 => eliminated s var a w1 <= eliminated s var a w2) l.
Proof.
  intros WC W N Hvar. unfold order_domain_values.
  rewrite domain_of_key by (rewrite (wf_keys W); exact Hvar). cbn [bind].
  assert (Hnd : NoDup (dom s var)).
  { destruct (@wf_store_key _ _ W Hvar) as [l E]. rewrite (@dom_loc _ _ _ E). apply W. }
  destruct (@lcv_outer s var a (dom s var) (dom s var) WC W N Hvar Hnd
              (@incl_refl _ _) Hnd (@incl_refl _ _) (fun _ => 0))
    as (g & Hg & Hin & _).
  change (map (fun w => (w, 0)) (dom s var)) with (tab (fun _ => 0) (dom s var)).
  rewrite Hg. cbn [bind].
  rewrite keyed_Ok by apply incl_refl. cbn [bind].
  eexists. split; [reflexivity|]. split.
  - rewrite (Permutation_map snd (sort_by_perm _ _)).
    rewrite map_map. simpl. now rewrite map_id.
  - apply sorted_map_snd.
    + intros p Hp. apply (Permutation_in _ (sort_by_perm _ _)) in Hp.
      apply in_map_iff in Hp as (w & <- & Hw). simpl. now rewrite Hin.
    + apply sort_by_sorted.
      * intros x y. rewrite !Nat.leb_le. lia.
      * intros x y z. rewrite !Nat.leb_le. lia.
Qed.

(** ** Exceptions and frame of revise and ac3, on any store *)

Lemma ordinary_dict_item {K V} dec (k : K) (d : dict K V) :
  raises_only ordinary (dict_item dec k d).
Proof.
  unfold dict_item. destruct (dict_get dec k d).
  - apply raises_only_Ok.
  - apply raises_only_Raise. split; discriminate.
Qed.

Lemma ordinary_char_at w k : raises_only ordinary (char_at w k).
Proof.
  unfold char_at. destruct (String.get k w).
  - apply raises_only_Ok.
  - apply raises_only_Raise. split; discriminate.
Qed.

Lemma ordinary_domain_of s v : raises_only ordinary (domain_of s v).
Proof.
  unfold domain_of. apply raises_only_bind.
  - apply ordinary_dict_item.
  - intros; apply raises_only_Ok.
Qed.

Lemma ordinary_domain_remove v w s : raises_only ordinary (domain_remove v w s).
Proof.
  unfold domain_remove. apply raises_only_bind; [apply ordinary_dict_item|].
  intros l _. apply raises_only_bind; [|intros; apply raises_only_Ok].
  unfold set_remove. destruct (in_dec word_eq_dec w (deref s l)).
  - apply raises_only_Ok.
  - apply raises_only_Raise. split; discriminate.
Qed.

Lemma ordinary_revise x y s : raises_only ordinary (revise cw x y s).
Proof.
  unfold revise. apply raises_only_bind; [apply ordinary_dict_item|].
  intros [[ox oy]|] _; [|apply raises_only_Ok].
  apply raises_only_bind; [apply ordinary_domain_of|].
  intros ws _. apply raises_only_mfold. intros [revised s1] x_word.
  apply raises_only_bind; [apply ordinary_domain_of|]. intros dy _.
  apply raises_only_bind.
  - apply raises_only_mfold. intros found y_word.
    apply raises_only_bind; [apply ordinary_char_at|]. intros cx _.
    apply raises_only_bind; [apply ordinary_char_at|]. intros cy _.
    apply raises_only_Ok.
  - intros c _. destruct (negb c); [|apply raises_only_Ok].
    apply raises_only_bind; [apply ordinary_domain_remove|].
    intros; apply raises_only_Ok.
Qed.

Lemma ordinary_requeue k x q : raises_only ordinary (requeue cw k x q).
Proof.
  unfold requeue. apply raises_only_mfold. intros q0 n.
  assert (H : forall a q, raises_only ordinary (q_append k a q)).
  { intros a q1. destruct k; simpl.
    - apply raises_only_Ok.
    - apply raises_only_Raise. split; discriminate. }
  apply raises_only_bind.
  - destruct (in_dec arc_eq_dec (x, n) q0); [apply raises_only_Ok | apply H].
  - intros q1 _. destruct (in_dec arc_eq_dec (n, x) q1); [apply raises_only_Ok | apply H].
Qed.

Lemma domain_remove_frame v w s s' :
  domain_remove v w s = Ok s' ->
  domains s' = domains s /\ calls s' = calls s /\ heap_size s' < heap_size s.
Proof.
  unfold domain_remove, dict_item, set_remove. intros H.
  destruct (dict_get Var_eq_dec v (domains s)) as [l|]; [|discriminate].
  cbn [bind] in H.
  destruct (in_dec word_eq_dec w (deref s l)) as [I|]; [|discriminate].
  cbn [bind] in H. injection H as <-. split; auto. split; auto.
  assert (l < List.length (heap s)) as Hl.
  { destruct (Nat.lt_ge_cases l (List.length (heap s))) as [|Hge]; auto.
    unfold deref in I. rewrite nth_overflow in I by assumption. destruct I. }
  pose proof (@heap_size_set_dom s l (remove word_eq_dec w (deref s l)) Hl) as E.
  pose proof (remove_length_lt word_eq_dec (deref s l) w I).
  fold (set_dom l (remove word_eq_dec w (deref s l)) s). lia.
Qed.

Lemma revise_frame x y s b s' :
  revise cw x y s = Ok (b, s') ->
  domains s' = domains s /\ calls s' = calls s /\
  heap_size s' <= heap_size s /\ (b = true -> heap_size s' < heap_size s).
Proof.
  unfold revise. intros H. apply bind_Ok in H as (o & _ & H).
  destruct o as [[ox oy]|].
  2:{ injection H as <- <-. repeat split; auto. discriminate. }
  apply bind_Ok in H as (ws & _ & H).
  assert (G : forall ws r s0 b s',
    mfold (fun '(revised, s) x_word =>
             dy <- domain_of s y ;;
             consistent_y_value <-
               mfold (fun found y_word =>
                        cx <- char_at x_word ox ;;
                        cy <- char_at y_word oy ;;
                        Ok (if Ascii.eqb cx cy then true else found))
                     dy false ;;
             if negb consistent_y_value
             then s' <- domain_remove x x_word s ;; Ok (true, s')
             else Ok (revised, s)) ws (r, s0) = Ok (b, s') ->
    domains s' = domains s0 /\ calls s' = calls s0 /\
    heap_size s' <= heap_size s0 /\
    (b = true -> r = true \/ heap_size s' < heap_size s0)).
  { clear. induction ws as [|w ws IH]; intros r s0 b s'; cbn [mfold].
    - intros [= <- <-]. repeat split; auto.
    - intros H. apply bind_Ok in H as ([r1 s1] & H1 & H).
      apply bind_Ok in H1 as (dy & _ & H1). apply bind_Ok in H1 as (c & _ & H1).
      apply IH in H as (Hd & Hc & Hh & Hb).
      destruct (negb c).
      + apply bind_Ok in H1 as (s2 & H1 & [= <- <-]).
        apply domain_remove_frame in H1 as (Hd1 & Hc1 & Hh1).
        split; [congruence|]. split; [congruence|]. split; [lia|].
        intros _. right. lia.
      + injection H1 as <- <-. repeat split; auto. }
  apply G in H as (Hd & Hc & Hh & Hb). repeat split; auto.
  intros E. destruct (Hb E); [discriminate | assumption].
Qed.

Lemma ac3_loop_frame n k : forall q s b s',
  ac3_loop cw n k q s = Ok (b, s') ->
  domains s' = domains s /\ calls s' = calls s /\ heap_size s' <= heap_size s.
Proof.
  induction n as [|n IHn]; intros q s b s'; cbn [ac3_loop]; [discriminate|].
  revert s. induction q as [|[x y] q IHq]; intros s; cbn [ac3_drain].
  - intros [= <- <-]. auto.
  - intros H. apply bind_Ok in H as ([r s1] & Hr & H).
    apply revise_frame in Hr as (Hd & Hc & Hh & _).
    destruct r.
    + apply bind_Ok in H as (d & _ & H).
      destruct (List.length d =? 0).
      * injection H as <- <-. auto.
      * apply bind_Ok in H as (q' & _ & H). apply IHn in H as (? & ? & ?).
        repeat split; try congruence; lia.
    + apply IHq in H as (? & ? & ?). repeat split; try congruence; lia.
Qed.

Lemma ac3_loop_raises n k : forall q s,
  heap_size s < n -> raises_only ordinary (ac3_loop cw n k q s).
Proof.
  induction n as [|n IHn]; intros q s Hn; [lia|]. cbn [ac3_loop].
  revert s Hn. induction q as [|[x y] q IHq]; intros s Hn; cbn [ac3_drain].
  - apply raises_only_Ok.
  - apply raises_only_bind; [apply ordinary_revise|].
    intros [r s1] Hr. apply revise_frame in Hr as (_ & _ & Hh & Hb).
    destruct r.
    + apply raises_only_bind; [apply ordinary_domain_of|]. intros d _.
      destruct (List.length d =? 0); [apply raises_only_Ok|].
      apply raises_only_bind; [apply ordinary_requeue|]. intros q' _.
      apply IHn. specialize (Hb eq_refl). lia.
    + apply IHq. lia.
Qed.

Lemma ac3_frame arcs s b s' :
  ac3 cw arcs s = Ok (b, s') -> domains s' = domains s /\ calls s' = calls s.
Proof.
  unfold ac3. destruct arcs as [[[|] a]|]; intros H; apply ac3_loop_frame in H; tauto.
Qed.

Lemma ac3_raises arcs s : raises_only ordinary (ac3 cw arcs s).
Proof. unfold ac3. destruct arcs as [[[|] a]|]; apply ac3_loop_raises; lia. Qed.

(** ** ac3 on a well-formed, node-consistent store *)

Lemma filter_length_lt {A} (f : A -> bool) l :
  forallb f l = false -> List.length (filter f l) < List.length l.
Proof.
  induction l as [|x l IH]; simpl; [discriminate|].
  pose proof (filter_length_le f l) as Hle.
  destruct (f x); simpl; intros H; [|lia].
  apply IH in H. lia.
Qed.

Lemma revise_arc s x y i j :
  wf_crossword -> wf_store s -> node_consistent s -> overlap x y = Some (i, j) ->
  exists b s1, revise cw x y s = Ok (b, s1) /\ wf_store s1 /\ node_consistent s1 /\
    dom s1 x = filter (supported i j (dom s y)) (dom s x) /\
    (forall z, z <> x -> dom s1 z = dom s z) /\
    (b = false -> s1 = s /\ arc_ok s x y i j) /\
    (b = true -> dom s1 x <> dom s x).
Proof.
  intros WC W N Eo.
  destruct (@wfc_arc WC _ _ _ _ Eo) as (Hx & Hy & Hne & Hi & Hj & _).
  destruct (@revise_Some s x y i j W Hx Hy Hne (proj1 (overlap_Some _ _ _ _) Eo))
    as (lx & Ex & Hr).
  { intros w Hw. rewrite (N x w); auto. }
  { intros w Hw. rewrite (N y w); auto. }
  set (d := filter (supported i j (dom s y)) (dom s x)) in *.
  exists (negb (forallb (supported i j (dom s y)) (dom s x))), (set_dom lx d s).
  assert (Hdx : dom (set_dom lx d s) x = d) by now apply dom_set_dom_eq.
  assert (Hdz : forall z, z <> x -> dom (set_dom lx d s) z = dom s z).
  { intros z Hz. now apply (@dom_set_dom_ne _ _ _ _ _ W Ex). }
  split; [exact Hr|]. split; [|split; [|split; [|split; [|split]]]]; auto.
  - apply wf_store_set_dom; auto. apply NoDup_filter.
    rewrite (@dom_loc _ _ _ Ex). apply W.
  - intros v w Hv Hw. apply N; auto.
    destruct (Var_eq_dec v x) as [->|Hvx].
    + rewrite Hdx in Hw. now apply filter_In in Hw.
    + now rewrite Hdz in Hw.
  - intros Hb. apply negb_false_iff in Hb. split.
    + unfold d. rewrite (proj2 (filter_id_iff _ _) Hb).
      rewrite (@dom_loc _ _ _ Ex). apply set_dom_same.
    + intros wx Hwx. rewrite forallb_forall in Hb. now apply Hb.
  - intros Hb. apply negb_true_iff in Hb. rewrite Hdx. unfold d.
    intros E. apply filter_id_iff in E. congruence.
Qed.

Lemma In_push_new a b q : In b (push_new a q) <-> b = a \/ In b q.
Proof.
  unfold push_new. destruct (in_dec arc_eq_dec a q); simpl; intuition (subst; auto).
Qed.

Lemma requeue_step x n q :
  (q1 <- (if in_dec arc_eq_dec (x, n) q then Ok q
          else q_append PyList (x, n) q) ;;
   if in_dec arc_eq_dec (n, x) q1 then Ok q1
   else q_append PyList (n, x) q1)
  = Ok (push_new (n, x) (push_new (x, n) q)).
Proof.
  unfold push_new at 2. destruct (in_dec arc_eq_dec (x, n) q); cbn [q_append bind];
    unfold push_new;
    match goal with |- context [in_dec ?d ?a ?l] => destruct (in_dec d a l) end;
    reflexivity.
Qed.

Lemma requeue_list x ns : forall q, exists q',
  mfold (fun q neighbor =>
           q1 <- (if in_dec arc_eq_dec (x, neighbor) q then Ok q
                  else q_append PyList (x, neighbor) q) ;;
           if in_dec arc_eq_dec (neighbor, x) q1 then Ok q1
           else q_append PyList (neighbor, x) q1) ns q = Ok q' /\
  forall a, In a q' <-> In a q \/ exists n, In n ns /\ (a = (x, n) \/ a = (n, x)).
Proof.
  induction ns as [|n ns IH]; intros q; cbn [mfold].
  - exists q. split; auto. intros a. split; auto. intros [|(n & [] & _)]; auto.
  - rewrite requeue_step. cbn [bind].
    destruct (IH (push_new (n, x) (push_new (x, n) q))) as (q' & Hq' & Hin).
    exists q'. split; [exact Hq'|].
    intros a. rewrite Hin, !In_push_new. split.
    + intros [[->|[->|]]|(m & Hm & E)];
        try (now left); right; eauto 6 using in_eq, in_cons.
    + intros [|(m & [<-|Hm] & [E|E])]; eauto 6.
Qed.

Lemma ac3_list_inv n : forall q s,
  wf_crossword -> heap_size s < n -> wf_store s -> node_consistent s ->
  (forall x y, In (x, y) q -> overlap x y <> None) ->
  (forall x y i j, overlap x y = Some (i, j) -> ~ In (x, y) q -> arc_ok s x y i j) ->
  exists b s', ac3_loop cw n PyList q s = Ok (b, s') /\
    wf_store s' /\ node_consistent s' /\
    (b = true -> arc_consistent s' /\ forall v, dom s' v = [] -> dom s v = []) /\
    (b = false -> exists x y s1,
        overlap x y <> None /\ revise cw x y s1 = Ok (true, s') /\ dom s' x = []).
Proof.
  induction n as [|n IHn]; intros q s WC Hn; [lia|]. cbn [ac3_loop].
  induction q as [|[x y] q IHq]; intros W N Hq Harc; cbn [ac3_drain].
  - exists true, s. split; auto. split; auto. split; auto. split.
    + intros _. split; auto. intros x y i j Eo. apply Harc; auto.
    + discriminate.
  - destruct (overlap x y) as [[i j]|] eqn:Eo.
    2:{ exfalso. apply (Hq x y); [now left | exact Eo]. }
    destruct (@revise_arc s x y i j WC W N Eo)
      as (b & s1 & Hr & W1 & N1 & Hdx & Hdz & Hf & Ht).
    rewrite Hr. cbn [bind]. destruct b.
    + specialize (Ht eq_refl). clear Hf.
      destruct (@wfc_arc WC _ _ _ _ Eo) as (Hx & Hy & Hne & _).
      rewrite domain_of_key by (rewrite (wf_keys W1); exact Hx). cbn [bind].
      destruct (List.length (dom s1 x) =? 0) eqn:El.
      * apply Nat.eqb_eq, length_zero_iff_nil in El.
        exists false, s1. split; auto. split; auto. split; auto.
        split; [discriminate|]. intros _. exists x, y, s.
        split; [congruence|]. auto.
      * apply Nat.eqb_neq in El.
        destruct (requeue_list x (neighbors cw x) q) as (q' & Hq' & Hin).
        unfold requeue. rewrite Hq'. cbn [bind].
        assert (Hh : heap_size s1 < n).
        { apply revise_frame in Hr as (_ & _ & _ & Hb).
          specialize (Hb eq_refl). lia. }
        destruct (IHn q' s1 WC Hh W1 N1) as (b & s' & Hl & W' & N' & Hbt & Hbf).
        -- intros a b I. apply Hin in I as [I|(m & Hm & [E|E])].
           ++ apply (Hq a b). now right.
           ++ injection E as Ea Eb. subst a b. now apply (@wfc_nb WC).
           ++ injection E as Ea Eb. subst a b. apply (@wfc_nb WC) in Hm; auto.
              destruct (overlap x m) as [[i' j']|] eqn:Eo'; [|congruence].
              destruct (@wfc_arc WC _ _ _ _ Eo') as (_ & _ & _ & _ & _ & Es).
              congruence.
        -- intros a b i' j' Eo' Hni.
           destruct (@wfc_arc WC _ _ _ _ Eo') as (Ha & Hb & _ & _ & _ & Es).
           assert (a <> x) as Hax.
           { intros ->. apply Hni, Hin. right. exists b. split; auto.
             apply (@wfc_nb WC); auto. congruence. }
           assert (b <> x) as Hbx.
           { intros ->. apply Hni, Hin. right. exists a. split; auto.
             apply (@wfc_nb WC); auto. congruence. }
           unfold arc_ok. rewrite (Hdz a Hax), (Hdz b Hbx).
           apply Harc; auto. intros [E|I].
           ++ congruence.
           ++ apply Hni, Hin. now left.
        -- exists b, s'. split; auto. split; auto. split; auto. split; auto.
           intros Eb. destruct (Hbt Eb) as [Hac He]. split; auto.
           intros v Hv. apply He in Hv.
           destruct (Var_eq_dec v x) as [->|Hvx].
           ++ rewrite Hv in El. simpl in El. congruence.
           ++ now rewrite <- (Hdz v Hvx).
    + destruct (Hf eq_refl) as [-> Hok].
      apply IHq; auto.
      * intros a b I. apply (Hq a b). now right.
      * intros a b i' j' Eo' Hni.
        destruct (arc_eq_dec (a, b) (x, y)) as [E|E].
        -- injection E as Ea Eb. subst a b.
           assert (i' = i /\ j' = j) as [-> ->] by (split; congruence). exact Hok.
        -- apply Harc; auto. intros [E'|I]; [congruence | contradiction].
Qed.

Lemma In_all_arcs x y :
  NoDup (keys (overlaps cw)) -> (In (x, y) (all_arcs cw) <-> overlap x y <> None).
Proof.
  intros Hk. unfold all_arcs. rewrite in_map_iff. split.
  - intros ([k [o|]] & E & I); apply filter_In in I as [I F]; simpl in *;
      [|discriminate]. subst k.
    unfold overlap. rewrite (@In_dict_get _ _ arc_eq_dec _ _ _ Hk I). discriminate.
  - intros H. destruct (overlap x y) as [[i j]|] eqn:Eo; [|congruence].
    apply overlap_Some, dict_get_In in Eo.
    exists ((x, y), Some (i, j)). split; auto. apply filter_In. auto.
Qed.

Lemma ac3_None_Ok s :
  wf_crossword -> wf_store s -> node_consistent s ->
  exists b s', ac3 cw None s = Ok (b, s') /\
    wf_store s' /\ node_consistent s' /\
    (b = true -> arc_consistent s' /\ forall v, dom s' v = [] -> dom s v = []) /\
    (b = false -> exists x y s1,
        overlap x y <> None /\ revise cw x y s1 = Ok (true, s') /\ dom s' x = []).
Proof.
  intros WC W N. unfold ac3. apply ac3_list_inv; auto.
  - intros x y I. apply in_rev in I. now apply In_all_arcs; [apply WC|].
  - intros x y i j Eo Hni. exfalso. apply Hni. apply -> in_rev.
    apply In_all_arcs; [apply WC | congruence].
Qed.

(** ** backtrack *)

Lemma ordinary_enforce s : raises_only ordinary (enforce_node_consistency cw s).
Proof.
  unfold enforce_node_consistency. apply raises_only_mfold. intros s0 v.
  apply raises_only_bind; [apply ordinary_domain_of|]. intros ws _.
  apply raises_only_mfold. intros s1 w.
  destruct (negb (String.length w =? var_length v));
    [apply ordinary_domain_remove | apply raises_only_Ok].
Qed.

Lemma ordinary_consistent (a : assignment) : raises_only ordinary (consistent cw a).
Proof.
  assert (Hn : forall v w ns, raises_only ordinary (consistent_neighbors cw a v w ns)).
  { intros v w ns. induction ns as [|n ns IH]; cbn [consistent_neighbors].
    - apply raises_only_Ok.
    - destruct (dict_mem Var_eq_dec n a); auto.
      apply raises_only_bind; [apply ordinary_dict_item|].
      intros [[ov on]|] _; [|apply raises_only_Raise; split; discriminate].
      apply raises_only_bind; [apply ordinary_char_at|]. intros c1 _.
      apply raises_only_bind; [apply ordinary_dict_item|]. intros w2 _.
      apply raises_only_bind; [apply ordinary_char_at|]. intros c2 _.
      destruct (negb (Ascii.eqb c1 c2)); [apply raises_only_Ok | exact IH]. }
  assert (Hi : forall items, raises_only ordinary (consistent_items cw a items)).
  { induction items as [|[v w] items IH]; cbn [consistent_items].
    - apply raises_only_Ok.
    - destruct (negb (var_length v =? String.length w)); [apply raises_only_Ok|].
      apply raises_only_bind; [apply Hn|].
      intros [|] _; [exact IH | apply raises_only_Ok]. }
  unfold consistent. apply raises_only_bind; [apply Hi|].
  intros [|] _; [|apply raises_only_Ok].
  destruct (negb _); apply raises_only_Ok.
Qed.

Lemma ordinary_order_domain_values v (a : assignment) s :
  raises_only ordinary (order_domain_values cw v a s).
Proof.
  unfold order_domain_values.
  apply raises_only_bind; [apply ordinary_domain_of|]. intros ws _.
  apply raises_only_bind.
  - apply raises_only_mfold. intros c1 w. apply raises_only_mfold. intros c2 n.
    apply raises_only_bind; [apply ordinary_dict_item|]. intros o _.
    apply raises_only_bind; [apply ordinary_domain_of|]. intros dn _.
    apply raises_only_mfold. intros c3 pc.
    destruct o as [[ov on]|]; [|apply raises_only_Raise; split; discriminate].
    apply raises_only_bind; [apply ordinary_char_at|]. intros x1 _.
    apply raises_only_bind; [apply ordinary_char_at|]. intros x2 _.
    destruct (negb (Ascii.eqb x1 x2)); [|apply raises_only_Ok].
    apply raises_only_bind; [apply ordinary_dict_item|]. intros k _.
    apply raises_only_Ok.
  - intros c _. apply raises_only_bind; [|intros; apply raises_only_Ok].
    apply raises_only_mmap. intros w.
    apply raises_only_bind; [apply ordinary_dict_item|]. intros; apply raises_only_Ok.
Qed.

(** [select_unassigned_variable] raises ValueError only on a complete
    assignment. *)
Lemma select_raises (a : assignment) s :
  raises_only (fun e => e <> OutOfFuel /\
                        (e = ValueError -> assignment_complete cw a = true))
              (select_unassigned_variable cw a s).
Proof.
  unfold select_unassigned_variable. intros e H.
  apply bind_Raise in H as [H|(d & Hd & H)].
  - assert (ordinary e) as [? ?]; [|split; [auto | congruence]].
    revert H. apply raises_only_mfold. intros d v.
    destruct (negb (dict_mem Var_eq_dec v a)); [|apply raises_only_Ok].
    apply raises_only_bind; [apply ordinary_domain_of|]. intros; apply raises_only_Ok.
  - apply bind_Raise in H as [H|(m & Hm & H)].
    + destruct d as [|kv d]; [|discriminate]. injection H as <-.
      split; [discriminate|]. intros _.
      apply unassigned_fold_keys in Hd as (_ & _ & K).
      apply forallb_forall. intros v Hv.
      destruct (dict_mem Var_eq_dec v a) eqn:M; auto.
      destruct (K v Hv M).
    + destruct (if 1 <? _ then _ else _); [|discriminate].
      injection H as <-. split; discriminate.
Qed.

Lemma filter_length_lt2 {A} (f g : A -> bool) l x :
  (forall y, f y = true -> g y = true) -> In x l -> g x = true -> f x = false ->
  List.length (filter f l) < List.length (filter g l).
Proof.
  intros Hfg. induction l as [|y l IH]; simpl; [tauto|].
  assert (Hle : List.length (filter f l) <= List.length (filter g l)).
  { clear IH. induction l as [|z l IH]; simpl; auto.
    destruct (f z) eqn:Ef.
    - rewrite (Hfg z Ef). simpl. lia.
    - destruct (g z); simpl; lia. }
  intros [->|I] Hg Hf.
  - rewrite Hg, Hf. simpl. lia.
  - specialize (IH I Hg Hf). destruct (f y) eqn:Ef.
    + rewrite (Hfg y Ef). simpl. lia.
    + destruct (g y); simpl; lia.
Qed.

Lemma dict_mem_set (a : assignment) v w u :
  dict_mem Var_eq_dec u (dict_set Var_eq_dec v w a)
  = if Var_eq_dec v u then true else dict_mem Var_eq_dec u a.
Proof.
  unfold dict_mem. destruct (Var_eq_dec v u) as [->|Hne].
  - now rewrite dict_get_set_eq.
  - now rewrite dict_get_set_ne.
Qed.

Lemma unassigned_set_lt (a : assignment) v w :
  In v (variables cw) -> dict_mem Var_eq_dec v a = false ->
  List.length (unassigned cw (dict_set Var_eq_dec v w a)) < List.length (unassigned cw a).
Proof.
  intros Hv M. unfold unassigned. apply filter_length_lt2 with (x := v); auto.
  - intros y. rewrite dict_mem_set. destruct (Var_eq_dec v y); [discriminate | auto].
  - now rewrite M.
  - rewrite dict_mem_set. destruct (Var_eq_dec v v); [reflexivity | congruence].
Qed.

Lemma backtrack_loop_raises recurse var (a : assignment) cands : forall s,
  (forall w s', raises_only ordinary (recurse (dict_set Var_eq_dec var w a) s')) ->
  raises_only ordinary (backtrack_loop cw recurse var a cands s).
Proof.
  intros s Hrec. revert s.
  induction cands as [|w cands IH]; intros s; cbn [backtrack_loop].
  - apply raises_only_Ok.
  - apply raises_only_bind; [apply ordinary_consistent|]. intros [|] _; [|apply IH].
    apply raises_only_bind; [apply ac3_raises|]. intros [b s1] _.
    apply raises_only_bind; [apply Hrec|]. intros [[r|] s2] _; [apply raises_only_Ok|].
    apply IH.
Qed.

(** With fuel above the number of unassigned variables, [backtrack_rec]
    raises neither OutOfFuel nor ValueError. *)
Lemma backtrack_rec_raises fuel : forall (a : assignment) s,
  List.length (unassigned cw a) < fuel ->
  raises_only ordinary (backtrack_rec cw fuel a s).
Proof.
  induction fuel as [|fuel IH]; intros a s Hf; [lia|]. cbn [backtrack_rec].
  destruct (assignment_complete cw a) eqn:C; [apply raises_only_Ok|].
  intros e H. apply bind_Raise in H as [H|(v & Hv & H)].
  - apply select_raises in H as [H1 H2]. split; auto.
    intros ->. specialize (H2 eq_refl). congruence.
  - revert e H. apply select_unassigned in Hv as [Hv M].
    apply raises_only_bind; [apply ordinary_order_domain_values|]. intros cands _.
    apply backtrack_loop_raises. intros w s'. apply IH.
    pose proof (@unassigned_set_lt a v w Hv M). lia.
Qed.

Lemma backtrack_loop_Some recurse var (a : assignment) cands r s' : forall s,
  backtrack_loop cw recurse var a cands s = Ok (Some r, s') ->
  exists w s1, In w cands /\
    consistent cw (dict_set Var_eq_dec var w a) = Ok true /\
    recurse (dict_set Var_eq_dec var w a) s1 = Ok (Some r, s').
Proof.
  induction cands as [|w cands IH]; intros s; cbn [backtrack_loop]; [discriminate|].
  intros H. apply bind_Ok in H as (ok & Hc & H). destruct ok.
  - apply bind_Ok in H as ([b s1] & _ & H). apply bind_Ok in H as ([[r'|] s2] & Hr & H).
    + injection H as <- <-. exists w, s1. split; [now left | auto].
    + apply IH in H as (w' & s1' & I & H). exists w', s1'. split; [now right | auto].
  - apply IH in H as (w' & s1' & I & H). exists w', s1'. split; [now right | auto].
Qed.

(** A returned assignment is the argument, found complete, or a complete
    assignment that [consistent] accepted. *)
Lemma backtrack_rec_Some fuel : forall (a : assignment) s r s',
  backtrack_rec cw fuel a s = Ok (Some r, s') ->
  NoDup (keys a) -> incl (keys a) (variables cw) ->
  assignment_complete cw r = true /\ NoDup (keys r) /\ incl (keys r) (variables cw) /\
  (r = a \/ consistent cw r = Ok true).
Proof.
  induction fuel as [|fuel IH]; intros a s r s'; cbn [backtrack_rec]; [discriminate|].
  destruct (assignment_complete cw a) eqn:C.
  - intros [= <- <-]. auto.
  - intros H Hk Hincl. apply bind_Ok in H as (v & Hv & H).
    apply bind_Ok in H as (cands & _ & H).
    apply select_unassigned in Hv as [Hv M].
    apply backtrack_loop_Some in H as (w & s1 & _ & Hc & H).
    apply IH in H as (Hcr & Hkr & Hir & [->|Hr]); auto.
    + now apply NoDup_keys_dict_set.
    + intros u Hu. apply In_keys_dict_set in Hu as [->|Hu]; auto.
Qed.

Lemma mfold_inv {A B} (P : A -> Prop) (f : A -> B -> res A) l : forall a a',
  (forall a b a', P a -> f a b = Ok a' -> P a') ->
  P a -> mfold f l a = Ok a' -> P a'.
Proof.
  induction l as [|b l IH]; intros a a' Hf Ha; cbn [mfold].
  - now intros [= <-].
  - intros H. apply bind_Ok in H as (a1 & H1 & H).
    apply (IH a1 a' Hf); [|exact H]. eapply Hf; eauto.
Qed.

Lemma enforce_frame s s1 :
  enforce_node_consistency cw s = Ok s1 ->
  domains s1 = domains s /\ calls s1 = calls s.
Proof.
  unfold enforce_node_consistency.
  apply mfold_inv with (P := fun s1 => domains s1 = domains s /\ calls s1 = calls s); auto.
  intros s2 v s3 H2 H. apply bind_Ok in H as (ws & _ & H).
  revert H.
  apply mfold_inv with (P := fun s1 => domains s1 = domains s /\ calls s1 = calls s); auto.
  intros s4 w s5 H4 H. destruct (negb (String.length w =? var_length v)).
  - apply domain_remove_frame in H as (? & ? & _). destruct H4. split; congruence.
  - now injection H as <-.
Qed.

(** When [ac3] reports failure, the store it leaves has an empty domain. *)
Lemma ac3_loop_false n k : forall q s s',
  ac3_loop cw n k q s = Ok (false, s') -> exists x, domain_of s' x = Ok [].
Proof.
  induction n as [|n IHn]; intros q s s'; cbn [ac3_loop]; [discriminate|].
  revert s. induction q as [|[x y] q IHq]; intros s; cbn [ac3_drain]; [discriminate|].
  intros H. apply bind_Ok in H as ([r s1] & Hr & H). destruct r.
  - apply bind_Ok in H as (d & Hd & H).
    destruct (List.length d =? 0) eqn:El.
    + injection H as <-. apply Nat.eqb_eq, length_zero_iff_nil in El. subst d. eauto.
    + apply bind_Ok in H as (q' & _ & H). eauto.
  - eauto.
Qed.

Lemma order_domain_values_empty v (a : assignment) s :
  domain_of s v = Ok [] -> order_domain_values cw v a s = Ok [].
Proof. intros H. unfold order_domain_values. rewrite H. reflexivity. Qed.

Lemma dom_tick s v : dom (tick s) v = dom s v.
Proof. reflexivity. Qed.

Lemma revise_true_arc x y s s' :
  revise cw x y s = Ok (true, s') ->
  overlap x y <> None /\ In x (keys (domains s')).
Proof.
  intros H. pose proof (revise_frame _ _ _ H) as (Hd & _).
  unfold revise in H. apply bind_Ok in H as (o & Ho & H).
  unfold dict_item in Ho.
  destruct (dict_get arc_eq_dec (x, y) (overlaps cw)) as [o'|] eqn:E; [|discriminate].
  injection Ho as ->. destruct o as [[ox oy]|]; [|discriminate].
  apply bind_Ok in H as (ws & Hw & _). apply domain_of_Ok in Hw as [_ Hw].
  split; [|congruence]. unfold overlap. rewrite E. discriminate.
Qed.

(** The run of [ac3], whatever the arcs and the store: when it returns True
    no revision emptied a domain; when it returns False, the revisions
    before the last emptied none, and the last one, of an arc with an
    overlap, emptied the domain it revised and produced the store that is
    returned. *)
Lemma ac3_loop_run n k : forall q s b s',
  ac3_loop cw n k q s = Ok (b, s') ->
  if b then ac3_steps s s'
  else exists x y s1, overlap x y <> None /\
         revise cw x y s1 = Ok (true, s') /\ dom s' x = [] /\ ac3_steps s s1.
Proof.
  induction n as [|n IHn]; intros q s b s'; cbn [ac3_loop]; [discriminate|].
  revert s. induction q as [|[x y] q IHq]; intros s; cbn [ac3_drain].
  - intros [= <- <-]. apply ac3_steps_refl.
  - intros H. apply bind_Ok in H as ([r s1] & Hr & H). destruct r.
    + apply bind_Ok in H as (d & Hd & H). apply domain_of_Ok in Hd as [Hd _].
      destruct (List.length d =? 0) eqn:El.
      * injection H as <- <-. apply Nat.eqb_eq, length_zero_iff_nil in El.
        destruct (revise_true_arc _ _ _ Hr) as [Ho _].
        exists x, y, s. split; [exact Ho|]. split; [exact Hr|].
        split; [congruence | apply ac3_steps_refl].
      * apply bind_Ok in H as (q' & _ & H). apply IHn in H.
        assert (Hne : true = true -> dom s1 x <> []).
        { intros _ E. rewrite Hd in E. rewrite E in El. discriminate El. }
        destruct b.
        -- eapply ac3_steps_step; [exact Hr | exact Hne | exact H].
        -- destruct H as (x' & y' & s2 & Ho & Hr' & Hd' & St).
           exists x', y', s2. split; [exact Ho|]. split; [exact Hr'|].
           split; [exact Hd'|]. eapply ac3_steps_step; [exact Hr | exact Hne | exact St].
    + apply IHq in H.
      assert (Hne : false = true -> dom s1 x <> []) by discriminate.
      destruct b.
      * eapply ac3_steps_step; [exact Hr | exact Hne | exact H].
      * destruct H as (x' & y' & s2 & Ho & Hr' & Hd' & St).
        exists x', y', s2. split; [exact Ho|]. split; [exact Hr'|].
        split; [exact Hd'|]. eapply ac3_steps_step; [exact Hr | exact Hne | exact St].
Qed.

(** ** The properties of the design document *)

(** C1, as amended: [solve] ignores the result of [ac3] and always invokes
    [backtrack] on the empty assignment.  When [ac3] reported failure, that
    one invocation (the counter [calls] goes up by one) returns None without
    trying a candidate, and the store is as [ac3] left it. *)
Theorem solve_after_ac3_failure s s1 s2 :
  NoDup (variables cw) -> keys (domains s) = variables cw ->
  enforce_node_consistency cw s = Ok s1 -> ac3 cw None s1 = Ok (false, s2) ->
  solve cw s = Ok (None, tick s2) /\
  calls (tick s2) = S (calls s) /\ heap (tick s2) = heap s2.
Proof.
  intros Hnd Hk H1 H2.
  destruct (enforce_frame _ H1) as [Hd1 Hc1].
  destruct (ac3_frame _ _ H2) as [Hd2 Hc2].
  split; [|split; [simpl; congruence | reflexivity]].
  unfold solve. rewrite H1. cbn [bind]. rewrite H2. cbn [bind].
  unfold ac3 in H2. apply ac3_loop_false in H2 as [x Hx].
  apply domain_of_Ok in Hx as [Hx Ix].
  assert (In x (variables cw)) as Hxv by congruence.
  unfold backtrack. cbn [backtrack_rec].
  assert (C : assignment_complete cw [] = false).
  { unfold assignment_complete.
    destruct (forallb (fun var => dict_mem Var_eq_dec var []) (variables cw)) eqn:F; auto.
    rewrite forallb_forall in F. now apply F in Hxv. }
  rewrite C.
  assert (Hk2 : keys (domains (tick s2)) = variables cw) by (simpl; congruence).
  destruct (@select_Ok [] (tick s2) Hnd Hk2 C) as (v & -> & Hv & _ & Hmin & _).
  cbn [bind].
  assert (dom (tick s2) v = []) as Ev.
  { specialize (Hmin x Hxv eq_refl). unfold size in Hmin.
    rewrite !dom_tick, Hx in Hmin. rewrite dom_tick.
    apply length_zero_iff_nil. simpl in Hmin. lia. }
  rewrite order_domain_values_empty.
  - reflexivity.
  - rewrite <- Ev. apply domain_of_key. now rewrite Hk2.
Qed.

(** C3: every assignment returned by [solve] (that is, by [backtrack]
    started from the empty assignment, or from any assignment that
    [consistent] accepts) is complete and valid; the recursion bound of the
    model is never hit. *)
Theorem solve_returns_solution :
  wf_crossword ->
  (forall s, solve cw s <> Raise OutOfFuel) /\
  (forall s r s', solve cw s = Ok (Some r, s') -> solution r) /\
  (forall (a : assignment) s r s',
      NoDup (keys a) -> incl (keys a) (variables cw) -> consistent cw a = Ok true ->
      backtrack cw a s = Ok (Some r, s') -> solution r).
Proof.
  intros WC.
  assert (Hsol : forall r, assignment_complete cw r = true -> NoDup (keys r) ->
                   incl (keys r) (variables cw) -> consistent cw r = Ok true ->
                   solution r).
  { intros r C Hk Hi Hc. apply (consistent_valid r WC Hk Hi) in Hc.
    destruct Hc as (Hl & Ha & Hd). split; [|split].
    - intros v Hv. unfold assignment_complete in C. rewrite forallb_forall in C.
      apply C in Hv. unfold dict_mem in Hv.
      destruct (dict_get Var_eq_dec v r) as [w|] eqn:E; [|discriminate]. eauto.
    - intros x y i j wx wy Eo Ex Ey. eapply Ha; eauto.
    - intros x y wx wy Hne Ex Ey. eapply Hd; eauto. }
  assert (Hbt : forall (a : assignment) s r s',
             NoDup (keys a) -> incl (keys a) (variables cw) -> consistent cw a = Ok true ->
             backtrack cw a s = Ok (Some r, s') -> solution r).
  { intros a s r s' Hk Hi Hc H. unfold backtrack in H.
    apply backtrack_rec_Some in H as (C & Hkr & Hir & [->|Hr]); auto. }
  split; [|split; [|exact Hbt]].
  - intros s H. assert (ordinary OutOfFuel) as [E _]; [|congruence].
    revert H. apply raises_only_bind; [apply ordinary_enforce|]. intros s1 _.
    apply raises_only_bind; [apply ac3_raises|]. intros [b s2] _.
    apply backtrack_rec_raises. lia.
  - intros s r s' H. unfold solve in H.
    apply bind_Ok in H as (s1 & _ & H). apply bind_Ok in H as ([b s2] & _ & H).
    apply Hbt in H; auto.
    + constructor.
    + intros v [].
Qed.

(** C4: on a well-formed, node-consistent store [ac3()] returns.  If it
    returns True, every arc is consistent: for every ordered pair with a
    defined overlap, each word left in [domain(x)] agrees with some word of
    [domain(y)]; and no revision of the run emptied a domain (domains only
    shrink, so a domain that is empty at the end was empty from the start).
    If it returns False, the run consisted of revisions that emptied no
    domain followed by one revision [revise(x, y)] that emptied [domain(x)],
    and the store returned is the one that this last revision produced: the
    loop stopped at once.  So [ac3()] returns False exactly when a revision
    leaves a domain empty. *)
Theorem ac3_arc_consistency s :
  wf_crossword -> wf_store s -> node_consistent s ->
  exists b s', ac3 cw None s = Ok (b, s') /\
    (b = true ->
       (forall x y i j wx, overlap x y = Some (i, j) -> In wx (dom s' x) ->
          exists wy, In wy (dom s' y) /\ agree i j wx wy = true) /\
       (forall v, dom s' v = [] -> dom s v = []) /\
       ac3_steps s s') /\
    (b = false ->
       exists x y s1, overlap x y <> None /\
         revise cw x y s1 = Ok (true, s') /\ dom s' x = [] /\
         ac3_steps s s1).
Proof.
  intros WC W N.
  destruct (ac3_None_Ok WC W N) as (b & s' & H & _ & _ & Ht & _).
  exists b, s'. split; [exact H|].
  unfold ac3 in H. apply ac3_loop_run in H. split.
  - intros Hb. subst b. destruct (Ht eq_refl) as [Hac He].
    split; [|split; [exact He | exact H]].
    intros x y i j wx Eo Hwx. apply (Hac x y i j Eo) in Hwx.
    unfold supported in Hwx. now apply existsb_exists in Hwx.
  - intros Hb. subst b. exact H.
Qed.

(** C5: [revise(x, y)] returns False and leaves the store as it is when the
    overlap of [x] and [y] is None.  Otherwise (the words being long enough
    for the overlap indices) it keeps in [domain(x)] exactly the words that
    agree with some word of [domain(y)], leaves every other domain
    unchanged, and returns True iff [domain(x)] changed. *)
Theorem revise_spec s x y :
  wf_store s -> In x (variables cw) -> In y (variables cw) -> x <> y ->
  (dict_get arc_eq_dec (x, y) (overlaps cw) = Some None ->
     revise cw x y s = Ok (false, s)) /\
  (forall i j,
     dict_get arc_eq_dec (x, y) (overlaps cw) = Some (Some (i, j)) ->
     (forall w, In w (dom s x) -> i < String.length w) ->
     (forall w, In w (dom s y) -> j < String.length w) ->
     exists b s', revise cw x y s = Ok (b, s') /\
       dom s' x = filter (supported i j (dom s y)) (dom s x) /\
       (forall z, z <> x -> dom s' z = dom s z) /\
       (b = true <-> dom s' x <> dom s x)).
Proof.
  intros W Hx Hy Hne. split; [apply revise_None|].
  intros i j E Hi Hj.
  destruct (@revise_Some s x y i j W Hx Hy Hne E Hi Hj) as (lx & Ex & Hr).
  eexists _, _. split; [exact Hr|].
  rewrite (@dom_set_dom_eq _ _ _ _ W Ex). split; [reflexivity|]. split.
  - intros z Hz. now apply (@dom_set_dom_ne _ _ _ _ _ W Ex).
  - rewrite negb_true_iff. rewrite <- not_true_iff_false, <- filter_id_iff. tauto.
Qed.

(** C6: when some variable is unassigned, [select_unassigned_variable]
    returns a variable of the grid that is not in the assignment, whose
    domain is smallest among the unassigned variables and whose number of
    neighbors is largest among the unassigned variables with a domain of
    that size. *)
Theorem select_unassigned_variable_spec (a : assignment) s :
  NoDup (variables cw) -> keys (domains s) = variables cw ->
  assignment_complete cw a = false ->
  exists v, select_unassigned_variable cw a s = Ok v /\
    In v (variables cw) /\ dict_mem Var_eq_dec v a = false /\
    (forall u, In u (variables cw) -> dict_mem Var_eq_dec u a = false ->
       List.length (dom s v) <= List.length (dom s u)) /\
    (forall u, In u (variables cw) -> dict_mem Var_eq_dec u a = false ->
       List.length (dom s u) = List.length (dom s v) ->
       List.length (neighbors cw u) <= List.length (neighbors cw v)).
Proof. exact (@select_Ok a s). Qed.

(** C7: [order_domain_values(var, assignment)] returns the words of
    [domain(var)], each once, in ascending order of eliminated-count.  (It
    only reads the store: the model threads no store through it.) *)
Theorem order_domain_values_spec s var (a : assignment) :
  wf_crossword -> wf_store s -> node_consistent s -> In var (variables cw) ->
  exists l, order_domain_values cw var a s = Ok l /\
    Permutation l (dom s var) /\ NoDup l /\
    StronglySorted (fun w1 w2 => eliminated s var a w1 <= eliminated s var a w2) l.
Proof.
  intros WC W N Hv.
  destruct (@order_domain_values_Ok s var a WC W N Hv) as (l & H & P & S).
  exists l. split; [exact H|]. split; [exact P|]. split; [|exact S].
  apply (Permutation_NoDup (Permutation_sym P)).
  destruct (@wf_store_key _ _ W Hv) as [lv E]. rewrite (@dom_loc _ _ _ E). apply W.
Qed.

(** C8: [consistent(assignment)] returns True exactly when every assigned
    word has the length of its variable, every two assigned variables with
    a defined overlap agree at the overlap indices, and the assigned words
    are pairwise distinct. *)
Theorem consistent_spec (a : assignment) :
  wf_crossword -> NoDup (keys a) -> incl (keys a) (variables cw) ->
  (consistent cw a = Ok true <->
   (forall v w, dict_get Var_eq_dec v a = Some w -> String.length w = var_length v) /\
   (forall x y wx wy i j,
       dict_get Var_eq_dec x a = Some wx -> dict_get Var_eq_dec y a = Some wy ->
       overlap x y = Some (i, j) -> agree i j wx wy = true) /\
   (forall x y wx wy,
       dict_get Var_eq_dec x a = Some wx -> dict_get Var_eq_dec y a = Some wy ->
       x <> y -> wx <> wy)).
Proof. exact (@consistent_valid a). Qed.

(** C9: [enforce_node_consistency] keeps in every domain exactly the words
    of the variable's length, so that every word left in [domain(v)] has
    length [v.length]; a second invocation changes nothing. *)
Theorem enforce_node_consistency_spec s :
  wf_store s ->
  exists s', enforce_node_consistency cw s = Ok s' /\
    (forall v, In v (variables cw) ->
       dom s' v = filter (fun w => String.length w =? var_length v) (dom s v)) /\
    (forall v w, In v (variables cw) -> In w (dom s' v) ->
       String.length w = var_length v) /\
    enforce_node_consistency cw s' = Ok s'.
Proof.
  intros W. destruct (@enforce_node_consistency_Ok s W) as (s' & H & W' & _ & _ & Hd).
  assert (N : node_consistent s').
  { intros v w Hv Hw. rewrite (Hd v Hv) in Hw. apply filter_In in Hw as [_ Hw].
    now apply Nat.eqb_eq. }
  exists s'. split; [exact H|]. split; [exact Hd|]. split; [exact N|].
  now apply enforce_node_consistency_noop.
Qed.

(** C10: on an assignment that covers every variable
    [select_unassigned_variable] raises ValueError ([min] of an empty
    collection); on any other assignment, every variable having a domain,
    it returns a variable; and [backtrack], which calls it only after
    [assignment_complete] answered False, never raises ValueError. *)
Theorem select_unassigned_variable_partial (a : assignment) s :
  (assignment_complete cw a = true ->
     select_unassigned_variable cw a s = Raise ValueError) /\
  (assignment_complete cw a = false ->
     NoDup (variables cw) -> keys (domains s) = variables cw ->
     exists v, select_unassigned_variable cw a s = Ok v) /\
  backtrack cw a s <> Raise ValueError.
Proof.
  split; [apply select_complete|]. split.
  - intros C Hnd Hk. destruct (@select_Ok a s Hnd Hk C) as (v & H & _). eauto.
  - intros H. assert (ordinary ValueError) as [_ E]; [|congruence].
    revert H. apply backtrack_rec_raises. lia.
Qed.

(** ** Beyond the design document: what no function does to the store *)

Lemma shrinks_refl s : shrinks s s.
Proof. split; [reflexivity | intros l; apply incl_refl]. Qed.

Lemma shrinks_trans s1 s2 s3 : shrinks s1 s2 -> shrinks s2 s3 -> shrinks s1 s3.
Proof.
  intros [D1 H1] [D2 H2]. split; [congruence|].
  intros l w Hw. now apply H1, H2.
Qed.

Lemma shrinks_dom s s' : shrinks s s' -> forall v, incl (dom s' v) (dom s v).
Proof.
  intros [D H] v. unfold dom. rewrite D.
  destruct (dict_get Var_eq_dec v (domains s)); [apply H | apply incl_refl].
Qed.

Lemma domain_remove_shrinks v w s s' : domain_remove v w s = Ok s' -> shrinks s s'.
Proof.
  unfold domain_remove, dict_item, set_remove. intros H.
  destruct (dict_get Var_eq_dec v (domains s)) as [l|]; [|discriminate].
  cbn [bind] in H.
  destruct (in_dec word_eq_dec w (deref s l)) as [I|]; [|discriminate].
  cbn [bind] in H. injection H as <-. split; [reflexivity|].
  intros l'. unfold deref at 1. simpl.
  destruct (Nat.eq_dec l l') as [<-|Hne].
  - destruct (Nat.lt_ge_cases l (List.length (heap s))) as [Hl|Hl].
    + rewrite nth_upd_eq by assumption. intros x Hx. now apply in_remove in Hx.
    + unfold deref in I. rewrite nth_overflow in I by assumption. destruct I.
  - rewrite nth_upd_ne by assumption. apply incl_refl.
Qed.

(** On any store: [revise] only removes words, and when it returns False the
    store is the one it was given. *)
Lemma revise_shrinks x y s b s' :
  revise cw x y s = Ok (b, s') -> shrinks s s' /\ (b = false -> s' = s).
Proof.
  unfold revise. intros H. apply bind_Ok in H as (o & _ & H).
  destruct o as [[ox oy]|].
  2:{ injection H as <- <-. split; [apply shrinks_refl | reflexivity]. }
  apply bind_Ok in H as (ws & _ & H).
  assert (G : forall ws r s0 b s',
    mfold (fun '(revised, s) x_word =>
             dy <- domain_of s y ;;
             consistent_y_value <-
               mfold (fun found y_word =>
                        cx <- char_at x_word ox ;;
                        cy <- char_at y_word oy ;;
                        Ok (if Ascii.eqb cx cy then true else found))
                     dy false ;;
             if negb consistent_y_value
             then s' <- domain_remove x x_word s ;; Ok (true, s')
             else Ok (revised, s)) ws (r, s0) = Ok (b, s') ->
    shrinks s0 s' /\ (b = false -> r = false /\ s' = s0)).
  { clear. induction ws as [|w ws IH]; intros r s0 b s'; cbn [mfold].
    - intros [= <- <-]. split; [apply shrinks_refl | auto].
    - intros H. apply bind_Ok in H as ([r1 s1] & H1 & H).
      apply bind_Ok in H1 as (dy & _ & H1). apply bind_Ok in H1 as (c & _ & H1).
      apply IH in H as (Hs & Hb).
      destruct (negb c).
      + apply bind_Ok in H1 as (s2 & H1 & [= <- <-]).
        apply domain_remove_shrinks in H1. split.
        * eapply shrinks_trans; eauto.
        * intros E. destruct (Hb E) as [D _]. discriminate.
      + injection H1 as <- <-. split; auto. }
  apply G in H as (Hs & Hb). split; auto. intros E. now destruct (Hb E).
Qed.

Lemma enforce_shrinks s s' : enforce_node_consistency cw s = Ok s' -> shrinks s s'.
Proof.
  unfold enforce_node_consistency.
  apply mfold_inv with (P := shrinks s); [|apply shrinks_refl].
  intros s2 v s3 H2 H. apply bind_Ok in H as (ws & _ & H).
  revert H. apply mfold_inv with (P := shrinks s); [|exact H2].
  intros s4 w s5 H4 H. destruct (negb (String.length w =? var_length v)).
  - apply domain_remove_shrinks in H. eapply shrinks_trans; eauto.
  - now injection H as <-.
Qed.

Lemma revisions_trans s1 s2 s3 : revisions s1 s2 -> revisions s2 s3 -> revisions s1 s3.
Proof.
  induction 1 as [|s s1 s' x y b Hr _ IH]; auto.
  intros H. eapply revisions_step; eauto.
Qed.

(** Whatever the arcs, the store that [ac3] returns is reached by calls of
    [revise] alone. *)
Lemma ac3_loop_revisions n k : forall q s b s',
  ac3_loop cw n k q s = Ok (b, s') -> revisions s s'.
Proof.
  induction n as [|n IHn]; intros q s b s'; cbn [ac3_loop]; [discriminate|].
  revert s. induction q as [|[x y] q IHq]; intros s; cbn [ac3_drain].
  - intros [= <- <-]. constructor.
  - intros H. apply bind_Ok in H as ([r s1] & Hr & H).
    eapply revisions_step; [exact Hr|].
    destruct r.
    + apply bind_Ok in H as (d & _ & H).
      destruct (List.length d =? 0).
      * injection H as <- <-. constructor.
      * apply bind_Ok in H as (q' & _ & H). eauto.
    + eauto.
Qed.

Lemma ac3_revisions arcs s b s' : ac3 cw arcs s = Ok (b, s') -> revisions s s'.
Proof.
  unfold ac3. destruct arcs as [[[|] a]|]; apply ac3_loop_revisions.
Qed.

Lemma revisions_inv (P : Creator -> Prop) s s' :
  (forall x y b s s1, P s -> revise cw x y s = Ok (b, s1) -> P s1) ->
  revisions s s' -> P s -> P s'.
Proof.
  intros Hstep H. induction H as [|s s1 s' x y b Hr _ IH]; auto.
  intros Hs. apply IH. eapply Hstep; eauto.
Qed.

Lemma revisions_shrinks s s' : revisions s s' -> shrinks s s'.
Proof.
  intros H. apply (@revisions_inv (shrinks s) s s'); auto using shrinks_refl.
  intros x y b s1 s2 H1 Hr. apply revise_shrinks in Hr as [Hr _].
  eapply shrinks_trans; eauto.
Qed.

Lemma backtrack_loop_shrinks recurse var (a : assignment) cands : forall s r s',
  (forall a' s1 r s2, recurse a' s1 = Ok (r, s2) -> shrinks s1 s2) ->
  backtrack_loop cw recurse var a cands s = Ok (r, s') -> shrinks s s'.
Proof.
  intros s r s' Hrec. revert s.
  induction cands as [|w cands IH]; intros s; cbn [backtrack_loop].
  - intros [= <- <-]. apply shrinks_refl.
  - intros H. apply bind_Ok in H as (ok & _ & H). destruct ok; [|auto].
    apply bind_Ok in H as ([b s1] & Ha & H). apply bind_Ok in H as ([[r'|] s2] & Hr & H).
    + injection H as <- <-. apply ac3_revisions, revisions_shrinks in Ha.
      apply Hrec in Hr. eapply shrinks_trans; eauto.
    + apply ac3_revisions, revisions_shrinks in Ha. apply Hrec in Hr.
      apply IH in H.
      assert (shrinks s s2) as [D2 H2] by (eapply shrinks_trans; eauto).
      destruct H as [D H]. split; [simpl in D; congruence|].
      intros l x Hx. apply H2. apply H in Hx. exact Hx.
Qed.

Lemma backtrack_rec_shrinks fuel : forall (a : assignment) s r s',
  backtrack_rec cw fuel a s = Ok (r, s') -> shrinks s s'.
Proof.
  induction fuel as [|fuel IH]; intros a s r s'; cbn [backtrack_rec]; [discriminate|].
  assert (T : shrinks s (tick s)) by (split; [reflexivity | intros l; apply incl_refl]).
  destruct (assignment_complete cw a).
  - now intros [= <- <-].
  - intros H. apply bind_Ok in H as (v & _ & H). apply bind_Ok in H as (cands & _ & H).
    apply backtrack_loop_shrinks in H; [|exact IH]. exact (@shrinks_trans _ _ _ T H).
Qed.

(** X2: no function of the solver ever adds a word to a domain, on any
    store, aliased or not: after [enforce_node_consistency], [revise], [ac3]
    (with any arcs), [backtrack] and [solve], every domain is included in
    what it was before. *)
Theorem domains_never_grow s :
  (forall s', enforce_node_consistency cw s = Ok s' ->
     forall v, incl (dom s' v) (dom s v)) /\
  (forall x y b s', revise cw x y s = Ok (b, s') ->
     forall v, incl (dom s' v) (dom s v)) /\
  (forall arcs b s', ac3 cw arcs s = Ok (b, s') ->
     forall v, incl (dom s' v) (dom s v)) /\
  (forall (a : assignment) r s', backtrack cw a s = Ok (r, s') ->
     forall v, incl (dom s' v) (dom s v)) /\
  (forall r s', solve cw s = Ok (r, s') ->
     forall v, incl (dom s' v) (dom s v)).
Proof.
  split; [|split; [|split; [|split]]].
  - intros s' H. apply shrinks_dom. now apply enforce_shrinks.
  - intros x y b s' H. apply shrinks_dom. now apply revise_shrinks in H.
  - intros arcs b s' H. apply shrinks_dom. now apply ac3_revisions, revisions_shrinks in H.
  - intros a r s' H. apply shrinks_dom. now apply backtrack_rec_shrinks in H.
  - intros r s' H. apply shrinks_dom. unfold solve in H.
    apply bind_Ok in H as (s1 & H1 & H). apply bind_Ok in H as ([b s2] & H2 & H).
    apply enforce_shrinks in H1. apply ac3_revisions, revisions_shrinks in H2.
    apply backtrack_rec_shrinks in H.
    eapply shrinks_trans; [exact H1|]. eapply shrinks_trans; eauto.
Qed.

(** X5: whatever the arcs and the store, when [ac3] returns False the store
    it leaves has a variable whose domain is empty. *)
Theorem ac3_False_empty_domain arcs s s' :
  ac3 cw arcs s = Ok (false, s') ->
  exists x, In x (keys (domains s')) /\ dom s' x = [].
Proof.
  intros H. unfold ac3 in H.
  assert (exists x, domain_of s' x = Ok []) as [x Hx].
  { destruct arcs as [[[|] a]|]; eapply ac3_loop_false; eauto. }
  apply domain_of_Ok in Hx as [Hx Ix]. eauto.
Qed.

(** ** __init__ *)

Lemma map_fst_combine_seq {A} (l : list A) : forall k,
  map fst (combine l (seq k (List.length l))) = l /\
  map snd (combine l (seq k (List.length l))) = seq k (List.length l).
Proof.
  induction l as [|x l IH]; intros k; simpl; auto.
  destruct (IH (S k)) as [-> ->]. auto.
Qed.

Lemma nth_repeat_cases {A} (x d : A) n l :
  nth l (repeat x n) d = if l <? n then x else d.
Proof.
  revert l; induction n as [|n IH]; intros [|l]; simpl; auto.
Qed.

(** X1: the constructor gives every variable of the grid a set object of
    its own that holds the whole vocabulary, so that the store it builds is
    well formed (no two variables share a set). *)
Theorem init_spec :
  NoDup (variables cw) -> NoDup (words cw) ->
  wf_store (init cw) /\
  (forall v, In v (variables cw) -> dom (init cw) v = words cw) /\
  (forall v, ~ In v (variables cw) -> domain_of (init cw) v = Raise KeyError).
Proof.
  intros Hv Hw.
  assert (Hk : keys (domains (init cw)) = variables cw)
    by exact (proj1 (map_fst_combine_seq (variables cw) 0)).
  assert (Hs : values (domains (init cw)) = seq 0 (List.length (variables cw)))
    by exact (proj2 (map_fst_combine_seq (variables cw) 0)).
  assert (Hb : forall v l, dict_get Var_eq_dec v (domains (init cw)) = Some l ->
                 l < List.length (variables cw)).
  { intros v l E. apply dict_get_In, (in_map snd) in E.
    fold (values (domains (init cw))) in E. rewrite Hs in E.
    apply in_seq in E. simpl in E. lia. }
  assert (Hd : forall l, deref (init cw) l
                 = if l <? List.length (variables cw) then words cw else []).
  { intros l. unfold deref. simpl. apply nth_repeat_cases. }
  split; [|split].
  - constructor.
    + exact Hk.
    + intros u v l Eu Ev. apply dict_get_In in Eu, Ev.
      eapply NoDup_values_inj; eauto.
      * rewrite Hk. exact Hv.
      * rewrite Hs. apply seq_NoDup.
    + intros v l E. simpl. rewrite repeat_length. eauto.
    + intros l. rewrite Hd. destruct (l <? _); [exact Hw | constructor].
  - intros v Iv. unfold dom.
    destruct (@In_keys_dict_get _ _ Var_eq_dec v (domains (init cw))) as [l E].
    { rewrite Hk. exact Iv. }
    rewrite E, Hd. apply Hb, Nat.ltb_lt in E. now rewrite E.
  - intros v Nv. unfold domain_of, dict_item.
    destruct (dict_get Var_eq_dec v (domains (init cw))) as [l|] eqn:E; auto.
    exfalso. apply Nv. apply dict_get_Some_key in E. now rewrite Hk in E.
Qed.

(** ** ac3 on an arc-consistent store, and on a set of arcs *)

Lemma revise_arc_ok s x y i j :
  wf_crossword -> wf_store s -> node_consistent s ->
  overlap x y = Some (i, j) -> arc_ok s x y i j ->
  revise cw x y s = Ok (false, s).
Proof.
  intros WC W N Eo Hok.
  destruct (@revise_arc s x y i j WC W N Eo) as (b & s1 & Hr & _ & _ & Hdx & _ & Hf & Ht).
  destruct b.
  - exfalso. apply (Ht eq_refl). rewrite Hdx.
    apply filter_id_iff, forallb_forall. intros w Hw. now apply Hok.
  - destruct (Hf eq_refl) as [-> _]. exact Hr.
Qed.

Lemma ac3_loop_fixpoint n k q s :
  wf_crossword -> wf_store s -> node_consistent s -> arc_consistent s ->
  (forall x y, In (x, y) q -> overlap x y <> None) ->
  ac3_loop cw (S n) k q s = Ok (true, s).
Proof.
  intros WC W N AC. cbn [ac3_loop].
  induction q as [|[x y] q IH]; intros Hq; cbn [ac3_drain]; auto.
  destruct (overlap x y) as [[i j]|] eqn:Eo.
  2:{ exfalso. apply (Hq x y); [now left | exact Eo]. }
  rewrite (@revise_arc_ok s x y i j WC W N Eo (AC x y i j Eo)). cbn [bind].
  apply IH. intros a b I. apply Hq. now right.
Qed.

Lemma neighbor_arcs_overlap var :
  wf_crossword -> In var (variables cw) ->
  forall x y, In (x, y) (map (fun x => (x, var)) (neighbors cw var)) ->
  overlap x y <> None.
Proof.
  intros WC Hv x y I. apply in_map_iff in I as (n & [= <- <-] & Hn).
  apply (@wfc_nb WC) in Hn; auto.
  destruct (overlap var n) as [[i j]|] eqn:Eo; [|congruence].
  destruct (@wfc_arc WC _ _ _ _ Eo) as (_ & _ & _ & _ & _ & Es). congruence.
Qed.

(** X3: [ac3()] is idempotent.  On the store that a successful [ac3()]
    leaves, a second [ac3()] returns True and changes nothing, and so does
    the inference of [backtrack], [ac3] on the arcs from the neighbors of a
    variable. *)
Theorem ac3_idempotent s0 s :
  wf_crossword -> wf_store s0 -> node_consistent s0 ->
  ac3 cw None s0 = Ok (true, s) ->
  ac3 cw None s = Ok (true, s) /\
  forall var, In var (variables cw) ->
    ac3 cw (Some (PySet, map (fun x => (x, var)) (neighbors cw var))) s = Ok (true, s).
Proof.
  intros WC W0 N0 H.
  destruct (@ac3_None_Ok s0 WC W0 N0) as (b & s' & H' & W & N & Ht & _).
  rewrite H in H'. injection H' as <- <-.
  destruct (Ht eq_refl) as [AC _].
  split.
  - unfold ac3. apply ac3_loop_fixpoint; auto.
    intros x y I. apply in_rev in I. now apply In_all_arcs; [apply WC|].
  - intros var Hv. unfold ac3. apply ac3_loop_fixpoint; auto.
    now apply neighbor_arcs_overlap.
Qed.

Lemma requeue_set_raises x ns : forall q n,
  In n ns -> ~ In (x, n) q ->
  mfold (fun q neighbor =>
           q1 <- (if in_dec arc_eq_dec (x, neighbor) q then Ok q
                  else q_append PySet (x, neighbor) q) ;;
           if in_dec arc_eq_dec (neighbor, x) q1 then Ok q1
           else q_append PySet (neighbor, x) q1) ns q = Raise AttributeError.
Proof.
  induction ns as [|m ns IH]; intros q n Hn Hq; [destruct Hn|]. cbn [mfold].
  destruct (in_dec arc_eq_dec (x, m) q) as [I1|N1]; cbn [q_append bind]; auto.
  destruct (in_dec arc_eq_dec (m, x) q) as [I2|N2]; cbn [q_append bind]; auto.
  destruct Hn as [->|Hn]; [contradiction|]. eapply IH; eauto.
Qed.

Lemma ac3_drain_set again q : forall s b s',
  wf_crossword -> NoDup q ->
  ac3_drain cw again PySet q s = Ok (b, s') ->
  (b = true /\ s' = s) \/
  (b = false /\ exists x y, In (x, y) q /\ revise cw x y s = Ok (true, s') /\ dom s' x = []).
Proof.
  induction q as [|[x y] q IH]; intros s b s' WC Hnd; cbn [ac3_drain].
  - intros [= <- <-]. now left.
  - inversion Hnd as [|? ? Hni Hnd']; subst.
    intros H. apply bind_Ok in H as ([r s1] & Hr & H). destruct r.
    + apply bind_Ok in H as (d & Hd & H).
      destruct (List.length d =? 0) eqn:El.
      * injection H as <- <-. right. split; auto. exists x, y.
        split; [now left|]. split; auto.
        apply Nat.eqb_eq, length_zero_iff_nil in El. subst d.
        now apply domain_of_Ok in Hd.
      * exfalso. apply bind_Ok in H as (q' & Hq' & _).
        destruct (revise_true_arc _ _ _ Hr) as [Ho _].
        destruct (overlap x y) as [[i j]|] eqn:Eo; [|congruence].
        destruct (@wfc_arc WC _ _ _ _ Eo) as (Hx & _).
        assert (In y (neighbors cw x)) as Hy by (apply (@wfc_nb WC); auto; congruence).
        unfold requeue in Hq'. rewrite (@requeue_set_raises x _ q y Hy Hni) in Hq'.
        discriminate.
    + apply revise_shrinks in Hr as [_ Hs]. rewrite (Hs eq_refl) in H.
      apply IH in H as [H|(Hb & a & b' & I & H)]; auto.
      right. split; auto. exists a, b'. split; [now right | exact H].
Qed.

(** X4: what [ac3] does with the set of arcs that [backtrack] hands it.  If
    it returns True it has removed nothing; if it returns False, one of the
    given arcs was revised and its domain emptied; and when a revision
    shrinks a domain without emptying it (the arcs before it needing no
    revision), [ac3] raises AttributeError, because it calls [append] on the
    set. *)
Theorem ac3_on_set arcs s :
  wf_crossword -> NoDup arcs ->
  (forall s', ac3 cw (Some (PySet, arcs)) s = Ok (true, s') -> s' = s) /\
  (forall s', ac3 cw (Some (PySet, arcs)) s = Ok (false, s') ->
     exists x y, In (x, y) arcs /\ revise cw x y s = Ok (true, s') /\ dom s' x = []) /\
  (forall pre x y rest s1,
     arcs = pre ++ (x, y) :: rest ->
     (forall a b, In (a, b) pre -> revise cw a b s = Ok (false, s)) ->
     revise cw x y s = Ok (true, s1) -> dom s1 x <> [] ->
     ac3 cw (Some (PySet, arcs)) s = Raise AttributeError).
Proof.
  intros WC Hnd. unfold ac3. cbn [ac3_loop]. split; [|split].
  - intros s' H. apply ac3_drain_set in H as [[_ H]|[H _]]; auto. discriminate.
  - intros s' H. apply ac3_drain_set in H as [[H _]|[_ H]]; auto. discriminate.
  - intros pre x y rest s1 -> Hpre Hr Hne.
    induction pre as [|[a b] pre IH]; cbn [app ac3_drain].
    + rewrite Hr. cbn [bind].
      destruct (revise_true_arc _ _ _ Hr) as [Ho Hk].
      rewrite (domain_of_key _ _ Hk). cbn [bind].
      destruct (List.length (dom s1 x) =? 0) eqn:El.
      { apply Nat.eqb_eq, length_zero_iff_nil in El. contradiction. }
      destruct (overlap x y) as [[i j]|] eqn:Eo; [|congruence].
      destruct (@wfc_arc WC _ _ _ _ Eo) as (Hx & _).
      assert (In y (neighbors cw x)) as Hy by (apply (@wfc_nb WC); auto; congruence).
      unfold requeue. rewrite (@requeue_set_raises x _ rest y Hy); [reflexivity|].
      simpl in Hnd. now inversion Hnd.
    + rewrite (Hpre a b) by now left. cbn [bind]. apply IH.
      * simpl in Hnd. now inversion Hnd.
      * intros a' b' I. apply Hpre. now right.
Qed.

(** ** consistent and backtrack on an arc-consistent store *)

Lemma same_store_dom s s0 : same_store s s0 -> forall v, dom s v = dom s0 v.
Proof. intros [D H] v. unfold dom, deref. now rewrite D, H. Qed.

Lemma same_store_inv s s0 :
  same_store s s0 -> wf_store s0 -> node_consistent s0 -> arc_consistent s0 ->
  wf_store s /\ node_consistent s /\ arc_consistent s.
Proof.
  intros SS W N AC. pose proof (same_store_dom SS) as Hd. destruct SS as [D H].
  split; [|split].
  - constructor.
    + rewrite D. apply W.
    + rewrite D. apply W.
    + rewrite D, H. apply W.
    + intros l. unfold deref. rewrite H. apply (wf_sets W).
  - intros v w Hv Hw. rewrite Hd in Hw. now apply N.
  - intros x y i j Eo wx Hwx. rewrite Hd in *. now apply (AC x y i j Eo).
Qed.

Lemma consistent_neighbors_total (a : assignment) var w ns :
  wf_crossword -> In var (variables cw) -> incl ns (neighbors cw var) ->
  String.length w = var_length var -> lengths_fit a ->
  exists b, consistent_neighbors cw a var w ns = Ok b.
Proof.
  intros WC Hv Hincl Hw L.
  induction ns as [|n ns IH]; cbn [consistent_neighbors]; [eauto|].
  assert (Hincl' : incl ns (neighbors cw var)) by (intros x Hx; apply Hincl; now right).
  unfold dict_mem, dict_item.
  destruct (dict_get Var_eq_dec n a) as [w2|] eqn:En; [|auto].
  assert (In n (neighbors cw var)) as Hn by (apply Hincl; now left).
  apply (@wfc_nb WC) in Hn; auto.
  destruct (overlap var n) as [[i j]|] eqn:Eo; [|congruence].
  rewrite (proj1 (overlap_Some _ _ _ _) Eo). cbn [bind].
  destruct (@wfc_arc WC _ _ _ _ Eo) as (_ & _ & _ & Hi & Hj & _).
  destruct (@get_in_range w i) as [c1 Hc1]; [lia|].
  destruct (@get_in_range w2 j) as [c2 Hc2]; [rewrite (L n w2 En); lia|].
  unfold char_at. rewrite Hc1, Hc2. cbn [bind].
  destruct (negb (Ascii.eqb c1 c2)); eauto.
Qed.

Lemma consistent_returns (a : assignment) :
  wf_crossword -> incl (keys a) (variables cw) -> lengths_fit a ->
  exists b, consistent cw a = Ok b.
Proof.
  intros WC Hincl L.
  assert (H : forall items, incl (map fst items) (variables cw) ->
            exists b, consistent_items cw a items = Ok b).
  { induction items as [|[v w] items IH]; intros Hi; cbn [consistent_items]; [eauto|].
    destruct (var_length v =? String.length w) eqn:E; cbn [negb]; [|eauto].
    apply Nat.eqb_eq in E.
    destruct (@consistent_neighbors_total a v w (neighbors cw v) WC) as [b Hb]; auto.
    - apply Hi. now left.
    - apply incl_refl.
    - rewrite Hb. cbn [bind]. destruct b; [|eauto].
      apply IH. intros x Hx. apply Hi. now right. }
  destruct (H a Hincl) as [b Hb]. unfold consistent. rewrite Hb. cbn [bind].
  destruct b; [|eauto]. destruct (negb _); eauto.
Qed.

(** X12: on a well-formed grid [consistent] never raises on an assignment
    of grid variables whose words all have the lengths of their variables:
    it returns True or False. *)
Theorem consistent_total (a : assignment) :
  wf_crossword -> incl (keys a) (variables cw) -> lengths_fit a ->
  exists b, consistent cw a = Ok b.
Proof. exact (@consistent_returns a). Qed.

Lemma extends_valid (a r : assignment) :
  solution r -> extends a r -> incl (keys a) (variables cw) -> valid a.
Proof.
  intros (S1 & S2 & S3) E Hincl. split; [|split].
  - intros v w Hv. pose proof (E v w Hv) as Hr.
    destruct (S1 v) as (w0 & Hw0 & Hl).
    + apply Hincl. eapply dict_get_Some_key; eauto.
    + congruence.
  - intros x y wx wy i j Hx Hy Eo. eapply S2; eauto.
  - intros x y wx wy Hx Hy Hne. eapply S3; eauto.
Qed.

Lemma backtrack_rec_main s0 fuel :
  wf_crossword -> wf_store s0 -> node_consistent s0 -> arc_consistent s0 ->
  forall (a : assignment) s,
    same_store s s0 -> List.length (unassigned cw a) < fuel ->
    NoDup (keys a) -> incl (keys a) (variables cw) -> lengths_fit a ->
    exists r s', backtrack_rec cw fuel a s = Ok (r, s') /\
      same_store s' s0 /\ search_result s0 a r.
Proof.
  intros WC W0 N0 AC0.
  induction fuel as [|fuel IH]; intros a s SS Hf Hk Hincl L; [lia|].
  cbn [backtrack_rec].
  assert (SSt : same_store (tick s) s0) by (destruct SS; split; assumption).
  destruct (assignment_complete cw a) eqn:C.
  - exists (Some a), (tick s). split; auto. split; auto.
    split; [intros v w H; exact H | auto].
  - destruct (same_store_inv SSt W0 N0 AC0) as (Wt & Nt & ACt).
    destruct (@select_Ok a (tick s) (wfc_vars WC) (wf_keys Wt) C)
      as (v & -> & Hv & Mv & _).
    cbn [bind].
    destruct (@order_domain_values_Ok (tick s) v a WC Wt Nt Hv) as (cands & -> & P & _).
    cbn [bind]. rewrite (same_store_dom SSt) in P.
    assert (Hloop : forall cs s1, same_store s1 s0 -> incl cs (dom s0 v) ->
      exists r s', backtrack_loop cw (backtrack_rec cw fuel) v a cs s1 = Ok (r, s') /\
        same_store s' s0 /\
        match r with
        | Some r' => search_result s0 a (Some r')
        | None => forall w, In w cs -> forall r', solution r' -> drawn_from s0 r' ->
                    extends (dict_set Var_eq_dec v w a) r' -> False
        end).
    { induction cs as [|w cs IHcs]; intros s1 SS1 Hcs; cbn [backtrack_loop].
      - exists None, s1. split; [reflexivity|]. split; [exact SS1|]. intros w [].
      - assert (Hw : In w (dom s0 v)) by (apply Hcs; now left).
        assert (Hcs' : incl cs (dom s0 v)) by (intros x Hx; apply Hcs; now right).
        set (na := dict_set Var_eq_dec v w a).
        assert (Hkn : NoDup (keys na)) by now apply NoDup_keys_dict_set.
        assert (Hin : incl (keys na) (variables cw)).
        { intros u Hu. apply In_keys_dict_set in Hu as [->|Hu]; auto. }
        assert (Ln : lengths_fit na).
        { intros u x Hu. unfold na in Hu. destruct (Var_eq_dec v u) as [<-|Hne].
          - rewrite dict_get_set_eq in Hu. injection Hu as <-. now apply N0.
          - rewrite dict_get_set_ne in Hu by assumption. now apply L. }
        destruct (@consistent_returns na WC Hin Ln) as [b Hb]. rewrite Hb. cbn [bind].
        destruct b.
        + destruct (same_store_inv SS1 W0 N0 AC0) as (W1 & N1 & AC1).
          assert (Ha : ac3 cw (Some (PySet, map (fun x => (x, v)) (neighbors cw v))) s1
                       = Ok (true, s1)).
          { unfold ac3. apply ac3_loop_fixpoint; auto. now apply neighbor_arcs_overlap. }
          rewrite Ha. cbn [bind].
          destruct (IH na s1 SS1) as (r & s2 & -> & SS2 & Hr); auto.
          { pose proof (@unassigned_set_lt a v w Hv Mv). fold na in H. lia. }
          cbn [bind]. destruct r as [r'|].
          * exists (Some r'), s2. split; auto. split; auto.
            destruct Hr as [He Hd]. split.
            -- intros u x Hu. apply He. unfold na.
               rewrite dict_get_set_ne; auto. intros <-.
               unfold dict_mem in Mv. now rewrite Hu in Mv.
            -- intros u x Hu. destruct (Hd u x Hu) as [Hna|]; auto.
               unfold na in Hna. destruct (Var_eq_dec v u) as [<-|Hne].
               ++ rewrite dict_get_set_eq in Hna. injection Hna as <-. now right.
               ++ rewrite dict_get_set_ne in Hna by assumption. now left.
          * destruct (IHcs (with_domains (domains s1) s2)) as (r & s' & -> & SS' & Hres);
              auto.
            { destruct SS1, SS2. split; simpl; congruence. }
            exists r, s'. split; auto. split; auto.
            destruct r; auto. intros w' [<-|Iw']; [apply Hr | now apply Hres].
        + destruct (IHcs s1 SS1 Hcs') as (r & s' & -> & SS' & Hres).
          exists r, s'. split; auto. split; auto.
          destruct r; auto. intros w' [<-|Iw']; [|now apply Hres].
          intros r' Hsol Hdr He.
          pose proof (@extends_valid na r' Hsol He Hin) as Hval.
          apply (consistent_valid na WC Hkn Hin) in Hval. fold na in Hb. congruence. }
    destruct (Hloop cands (tick s) SSt) as (r & s' & -> & SS' & Hres).
    { intros x Hx. eapply Permutation_in; eauto. }
    exists r, s'. split; auto. split; auto.
    destruct r as [r'|]; [exact Hres|].
    intros r' Hsol Hdr He.
    destruct Hsol as (S1 & S2 & S3). destruct (S1 v Hv) as (w0 & Hw0 & _).
    apply (Hres w0) with (r' := r').
    + eapply Permutation_in; [apply Permutation_sym; exact P|]. now apply Hdr.
    + split; [|split]; assumption.
    + exact Hdr.
    + intros u x Hu. destruct (Var_eq_dec v u) as [<-|Hne].
      * rewrite dict_get_set_eq in Hu. congruence.
      * rewrite dict_get_set_ne in Hu by assumption. now apply He.
Qed.

Lemma backtrack_search (a : assignment) s :
  wf_crossword -> wf_store s -> node_consistent s -> arc_consistent s ->
  NoDup (keys a) -> incl (keys a) (variables cw) -> lengths_fit a ->
  exists r s', backtrack cw a s = Ok (r, s') /\
    domains s' = domains s /\ heap s' = heap s /\
    match r with
    | Some r' =>
        extends a r' /\
        forall v w, dict_get Var_eq_dec v r' = Some w ->
                    dict_get Var_eq_dec v a = Some w \/ In w (dom s v)
    | None =>
        forall r', solution r' -> drawn_from s r' -> extends a r' -> False
    end.
Proof.
  intros WC W N AC Hk Hi L.
  destruct (@backtrack_rec_main s (S (List.length (unassigned cw a))) WC W N AC a s)
    as (r & s' & H & [D Hh] & Hr); auto.
  - split; reflexivity.
  - exists r, s'. split; [exact H|]. split; [exact D|]. split; [exact Hh|].
    destruct r; exact Hr.
Qed.

(** X6: on a well-formed, node-consistent and arc-consistent store,
    [backtrack] returns without raising and leaves every set object as it
    was (its inference removes nothing, so the restore has nothing to undo).
    The assignment it returns extends the argument with words of the
    domains; and it returns None only when no solution that is drawn from the
    domains extends the argument. *)
Theorem backtrack_on_consistent_store (a : assignment) s :
  wf_crossword -> wf_store s -> node_consistent s -> arc_consistent s ->
  NoDup (keys a) -> incl (keys a) (variables cw) -> lengths_fit a ->
  exists r s', backtrack cw a s = Ok (r, s') /\
    domains s' = domains s /\ heap s' = heap s /\
    match r with
    | Some r' =>
        extends a r' /\
        forall v w, dict_get Var_eq_dec v r' = Some w ->
                    dict_get Var_eq_dec v a = Some w \/ In w (dom s v)
    | None =>
        forall r', solution r' -> drawn_from s r' -> extends a r' -> False
    end.
Proof. exact (@backtrack_search a s). Qed.

(** ** solve: soundness of the pruning, totality, completeness *)

Lemma revise_keeps_solution (r : assignment) x y b s s1 :
  wf_crossword -> solution r ->
  wf_store s /\ node_consistent s /\ drawn_from s r ->
  revise cw x y s = Ok (b, s1) ->
  wf_store s1 /\ node_consistent s1 /\ drawn_from s1 r.
Proof.
  intros WC (S1 & S2 & S3) (W & N & D) H.
  destruct (overlap x y) as [[i j]|] eqn:Eo.
  - destruct (@revise_arc s x y i j WC W N Eo)
      as (b' & s1' & Hr & W1 & N1 & Hdx & Hdz & _ & _).
    rewrite Hr in H. injection H as <- <-.
    split; [exact W1|]. split; [exact N1|].
    intros u w Hu. destruct (Var_eq_dec u x) as [->|Hne].
    + rewrite Hdx. apply filter_In. split; [now apply D|].
      destruct (@wfc_arc WC _ _ _ _ Eo) as (_ & Hy & _).
      destruct (S1 y Hy) as (wy & Hwy & _).
      apply existsb_exists. exists wy. split; [now apply D|]. eapply S2; eauto.
    + rewrite Hdz by assumption. now apply D.
  - unfold revise, dict_item in H. unfold overlap in Eo.
    destruct (dict_get arc_eq_dec (x, y) (overlaps cw)) as [[o|]|]; try discriminate.
    injection H as <- <-. auto.
Qed.

Lemma ac3_sound arcs s b s' (r : assignment) :
  wf_crossword -> wf_store s -> node_consistent s ->
  ac3 cw arcs s = Ok (b, s') ->
  solution r -> drawn_from s r ->
  drawn_from s' r /\ b = true.
Proof.
  intros WC W N H Hsol D.
  assert (K : wf_store s' /\ node_consistent s' /\ drawn_from s' r).
  { apply ac3_revisions in H.
    apply (@revisions_inv
             (fun s => wf_store s /\ node_consistent s /\ drawn_from s r) s s'); auto.
    intros x y b0 s1 s2 H1 Hr. eapply revise_keeps_solution; eauto. }
  destruct K as (W' & _ & D'). split; [exact D'|].
  destruct b; [reflexivity|]. exfalso.
  unfold ac3 in H.
  assert (exists x, domain_of s' x = Ok []) as [x Hx].
  { destruct arcs as [[[|] a]|]; eapply ac3_loop_false; eauto. }
  apply domain_of_Ok in Hx as [Hx Ix]. rewrite (wf_keys W') in Ix.
  destruct Hsol as (S1 & _). destruct (S1 x Ix) as (w & Hw & _).
  apply D' in Hw. rewrite Hx in Hw. destruct Hw.
Qed.

(** X14: the pruning of [ac3] is sound.  On a well-formed, node-consistent
    store, whatever the arcs, [ac3] removes no word that a solution assigns:
    a solution drawn from the domains before is drawn from the domains after,
    and when there is one [ac3] returns True. *)
Theorem ac3_keeps_solutions arcs s b s' (r : assignment) :
  wf_crossword -> wf_store s -> node_consistent s ->
  ac3 cw arcs s = Ok (b, s') ->
  solution r -> drawn_from s r ->
  drawn_from s' r /\ b = true.
Proof. exact (@ac3_sound arcs s b s' r). Qed.

Lemma enforce_keeps_solution s s1 (r : assignment) :
  wf_store s -> enforce_node_consistency cw s = Ok s1 ->
  solution r -> drawn_from s r ->
  wf_store s1 /\ node_consistent s1 /\ drawn_from s1 r.
Proof.
  intros W H (S1 & _) D.
  destruct (@enforce_node_consistency_Ok s W) as (s1' & H' & W1 & _ & _ & Hd).
  rewrite H in H'. injection H' as <-.
  assert (N1 : node_consistent s1).
  { intros v w Hv Hw. rewrite (Hd v Hv) in Hw. apply filter_In in Hw as [_ Hw].
    now apply Nat.eqb_eq. }
  split; [exact W1|]. split; [exact N1|].
  intros u w Hu. pose proof (D u w Hu) as Hw.
  assert (In u (variables cw)) as Iu.
  { rewrite <- (wf_keys W). unfold dom in Hw.
    destruct (dict_get Var_eq_dec u (domains s)) eqn:E; [|destruct Hw].
    eapply dict_get_Some_key; eauto. }
  rewrite (Hd u Iu). apply filter_In. split; [exact Hw|].
  destruct (S1 u Iu) as (w0 & Hw0 & Hl). apply Nat.eqb_eq. congruence.
Qed.

Lemma backtrack_empty_domain s x :
  NoDup (variables cw) -> keys (domains s) = variables cw ->
  In x (variables cw) -> dom s x = [] ->
  backtrack cw [] s = Ok (None, tick s).
Proof.
  intros Hnd Hk Hx Ex. unfold backtrack. cbn [backtrack_rec].
  assert (C : assignment_complete cw [] = false).
  { unfold assignment_complete.
    destruct (forallb (fun var => dict_mem Var_eq_dec var []) (variables cw)) eqn:F; auto.
    rewrite forallb_forall in F. now apply F in Hx. }
  rewrite C.
  assert (Hk2 : keys (domains (tick s)) = variables cw) by exact Hk.
  destruct (@select_Ok [] (tick s) Hnd Hk2 C) as (v & -> & Hv & _ & Hmin & _).
  cbn [bind].
  assert (dom (tick s) v = []) as Ev.
  { specialize (Hmin x Hx eq_refl). unfold size in Hmin.
    rewrite !dom_tick, Ex in Hmin. rewrite dom_tick.
    apply length_zero_iff_nil. simpl in Hmin. lia. }
  rewrite order_domain_values_empty.
  - reflexivity.
  - rewrite <- Ev. apply domain_of_key. now rewrite Hk2.
Qed.

(** The two stages before the search, on a well-formed store. *)
Lemma solve_stages s :
  wf_crossword -> wf_store s ->
  exists s1 b s2,
    enforce_node_consistency cw s = Ok s1 /\ ac3 cw None s1 = Ok (b, s2) /\
    wf_store s1 /\ node_consistent s1 /\
    wf_store s2 /\ node_consistent s2 /\
    (b = true -> arc_consistent s2) /\
    (b = false -> exists x, In x (variables cw) /\ dom s2 x = []).
Proof.
  intros WC W.
  destruct (@enforce_node_consistency_Ok s W) as (s1 & H1 & W1 & _ & _ & Hd).
  assert (N1 : node_consistent s1).
  { intros v w Hv Hw. rewrite (Hd v Hv) in Hw. apply filter_In in Hw as [_ Hw].
    now apply Nat.eqb_eq. }
  destruct (@ac3_None_Ok s1 WC W1 N1) as (b & s2 & H2 & W2 & N2 & Ht & Hf).
  exists s1, b, s2. repeat (split; [assumption|]). split.
  - intros E. now destruct (Ht E).
  - intros E. destruct (Hf E) as (x & y & s3 & Ho & _ & Ex).
    exists x. split; [|exact Ex].
    destruct (overlap x y) as [[i j]|] eqn:Eo; [|congruence].
    now destruct (@wfc_arc WC _ _ _ _ Eo).
Qed.

Lemma lengths_fit_nil : lengths_fit [].
Proof. intros v w H. discriminate. Qed.

(** X7: on a well-formed grid and store (that of a fresh solver object, for
    one), [solve] never raises: it returns an assignment or None. *)
Theorem solve_total s :
  wf_crossword -> wf_store s -> exists r s', solve cw s = Ok (r, s').
Proof.
  intros WC W.
  destruct (@solve_stages s WC W) as (s1 & b & s2 & H1 & H2 & _ & _ & W2 & N2 & Ht & Hf).
  unfold solve. rewrite H1. cbn [bind]. rewrite H2. cbn [bind]. destruct b.
  - destruct (@backtrack_search [] s2 WC W2 N2 (Ht eq_refl))
      as (r & s' & H & _); eauto using lengths_fit_nil.
    + constructor.
    + intros v [].
  - destruct (Hf eq_refl) as (x & Hx & Ex).
    rewrite (@backtrack_empty_domain s2 x (wfc_vars WC) (wf_keys W2) Hx Ex). eauto.
Qed.

(** X8: [solve] is complete.  On a well-formed grid and store, when it
    returns None the puzzle has no solution whose words are taken from the
    domains it started with. *)
Theorem solve_None_unsolvable s s' :
  wf_crossword -> wf_store s -> solve cw s = Ok (None, s') ->
  forall r, solution r -> drawn_from s r -> False.
Proof.
  intros WC W H r Hsol D.
  destruct (@solve_stages s WC W) as (s1 & b & s2 & H1 & H2 & W1 & N1 & W2 & N2 & Ht & _).
  destruct (@enforce_keeps_solution s s1 r W H1 Hsol D) as (_ & _ & D1).
  destruct (@ac3_sound None s1 b s2 r WC W1 N1 H2 Hsol D1) as [D2 ->].
  unfold solve in H. rewrite H1 in H. cbn [bind] in H. rewrite H2 in H. cbn [bind] in H.
  destruct (@backtrack_search [] s2 WC W2 N2 (Ht eq_refl))
    as (r0 & s0 & H0 & _ & _ & Hr); eauto using lengths_fit_nil.
  - constructor.
  - intros v [].
  - rewrite H in H0. injection H0 as <- <-.
    apply (Hr r Hsol D2). intros v w E. discriminate.
Qed.

(** X9: on a well-formed grid and store, the assignment that [solve]
    returns assigns the variables of the grid and nothing else, each once,
    and every word of it comes from the domain that its variable had when
    [solve] started (for a fresh solver object, from the vocabulary). *)
Theorem solve_words_from_domains s r s' :
  wf_crossword -> wf_store s -> solve cw s = Ok (Some r, s') ->
  NoDup (keys r) /\
  (forall v, In v (keys r) <-> In v (variables cw)) /\
  drawn_from s r.
Proof.
  intros WC W H.
  destruct (@solve_stages s WC W) as (s1 & b & s2 & H1 & H2 & W1 & N1 & W2 & N2 & Ht & Hf).
  unfold solve in H. rewrite H1 in H. cbn [bind] in H. rewrite H2 in H. cbn [bind] in H.
  assert (S12 : shrinks s s2).
  { eapply shrinks_trans; [apply enforce_shrinks; eauto|].
    now apply ac3_revisions, revisions_shrinks in H2. }
  destruct b.
  - pose proof H as H'. unfold backtrack in H'.
    apply backtrack_rec_Some in H' as (C & Hk & Hi & _);
      [|constructor | intros v []].
    split; [exact Hk|]. split.
    + intros v. split; [apply Hi|]. intros Hv.
      unfold assignment_complete in C. rewrite forallb_forall in C.
      apply (proj1 (dict_mem_true Var_eq_dec v r)). now apply C.
    + destruct (@backtrack_search [] s2 WC W2 N2 (Ht eq_refl))
        as (r0 & s0 & H0 & _ & _ & Hr); eauto using lengths_fit_nil.
      * constructor.
      * intros v [].
      * rewrite H in H0. injection H0 as <- <-. destruct Hr as [_ Hr].
        intros v w E. destruct (Hr v w E) as [E'|I]; [discriminate|].
        now apply (shrinks_dom S12).
  - destruct (Hf eq_refl) as (x & Hx & Ex).
    rewrite (@backtrack_empty_domain s2 x (wfc_vars WC) (wf_keys W2) Hx Ex) in H.
    discriminate.
Qed.

(** ** letter_grid *)

Lemma shaped_paint width height g p o :
  shaped width height g -> shaped width height (paint g p o).
Proof.
  intros [Hl Hr]. unfold paint. split.
  - now rewrite length_upd.
  - intros i Hi. destruct (Nat.eq_dec (fst p) i) as [<-|Hne].
    + rewrite nth_upd_eq by lia. rewrite length_upd. now apply Hr.
    + rewrite nth_upd_ne by assumption. now apply Hr.
Qed.

Lemma read_paint width height g p o q :
  shaped width height g -> in_grid width height p = true ->
  read (paint g p o) q = if (fst p =? fst q) && (snd p =? snd q) then o else read g q.
Proof.
  intros [Hl Hr] Hp. unfold in_grid in Hp. apply andb_true_iff in Hp as [H1 H2].
  apply Nat.ltb_lt in H1, H2. unfold read, paint.
  destruct (fst p =? fst q) eqn:E1; cbn [andb].
  - apply Nat.eqb_eq in E1. rewrite <- E1. rewrite nth_upd_eq by lia.
    destruct (snd p =? snd q) eqn:E2.
    + apply Nat.eqb_eq in E2. rewrite <- E2. apply nth_upd_eq. rewrite Hr; lia.
    + apply Nat.eqb_neq in E2. now apply nth_upd_ne.
  - apply Nat.eqb_neq in E1. now rewrite nth_upd_ne.
Qed.

Lemma set_letter_eq width height g i j c :
  shaped width height g ->
  set_letter i j c g
  = if in_grid width height (i, j) then Ok (paint g (i, j) (Some c))
    else Raise IndexError.
Proof.
  intros [Hl Hr]. unfold set_letter, in_grid, paint. cbn [fst snd].
  destruct (i <? height) eqn:E1; cbn [andb].
  - apply Nat.ltb_lt in E1.
    rewrite (nth_error_nth' g [] (n := i)) by lia. rewrite (Hr i E1).
    destruct (j <? width); reflexivity.
  - apply Nat.ltb_ge in E1.
    destruct (nth_error g i) eqn:E; auto.
    assert (i < List.length g) by (apply nth_error_Some; congruence). lia.
Qed.

Lemma shaped_paint_word width height v w ks : forall g,
  shaped width height g -> shaped width height (paint_word v w ks g).
Proof.
  unfold paint_word. induction ks as [|k ks IH]; intros g Hg; cbn [fold_left]; auto.
  apply IH. now apply shaped_paint.
Qed.

Lemma word_loop width height v w ks : forall g,
  shaped width height g -> (forall k, In k ks -> k < String.length w) ->
  mfold (fun letters k =>
           let i := var_i v + (match var_direction v with DOWN => k | ACROSS => 0 end) in
           let j := var_j v + (match var_direction v with ACROSS => k | DOWN => 0 end) in
           c <- char_at w k ;;
           set_letter i j c letters) ks g
  = if forallb (fun k => in_grid width height (cell_of v k)) ks
    then Ok (paint_word v w ks g) else Raise IndexError.
Proof.
  induction ks as [|k ks IH]; intros g Hg Hk; cbn [mfold forallb]; auto.
  destruct (@get_in_range w k) as [c Hc]; [apply Hk; now left|].
  cbv zeta. unfold char_at. rewrite Hc. cbn [bind].
  rewrite (set_letter_eq _ _ _ Hg). fold (cell_of v k).
  destruct (in_grid width height (cell_of v k)); cbn [andb bind]; auto.
  rewrite IH.
  - unfold paint_word. cbn [fold_left]. now rewrite Hc.
  - now apply shaped_paint.
  - intros k' Hk'. apply Hk. now right.
Qed.

Lemma shaped_paint_all width height (a : assignment) : forall g,
  shaped width height g -> shaped width height (paint_all a g).
Proof.
  unfold paint_all. induction a as [|[v w] a IH]; intros g Hg; cbn [fold_left]; auto.
  apply IH. now apply shaped_paint_word.
Qed.

Lemma letter_loop width height (a : assignment) : forall g,
  shaped width height g ->
  mfold (fun letters '(variable, word) =>
           let direction := var_direction variable in
           mfold (fun letters k =>
                    let i := var_i variable
                             + (match direction with DOWN => k | ACROSS => 0 end) in
                    let j := var_j variable
                             + (match direction with ACROSS => k | DOWN => 0 end) in
                    c <- char_at word k ;;
                    set_letter i j c letters)
                 (seq 0 (String.length word)) letters) a g
  = if fits_gridb width height a then Ok (paint_all a g) else Raise IndexError.
Proof.
  induction a as [|[v w] a IH]; intros g Hg; cbn [mfold]; auto.
  cbv zeta. rewrite (@word_loop width height v w _ g Hg).
  2:{ intros k Hk. apply in_seq in Hk. lia. }
  unfold fits_gridb. cbn [forallb fst snd].
  destruct (forallb (fun k => in_grid width height (cell_of v k))
                    (seq 0 (String.length w))); cbn [andb bind]; auto.
  rewrite IH by now apply shaped_paint_word. reflexivity.
Qed.

Lemma shaped_blank width height : shaped width height (repeat (repeat None width) height).
Proof.
  split; [apply repeat_length|].
  intros i Hi. rewrite nth_repeat_cases. apply Nat.ltb_lt in Hi. rewrite Hi.
  apply repeat_length.
Qed.

Lemma read_blank width height p : read (repeat (repeat None width) height) p = None.
Proof.
  unfold read. rewrite nth_repeat_cases. destruct (fst p <? height).
  - rewrite nth_repeat_cases. now destruct (snd p <? width).
  - now destruct (snd p).
Qed.

Lemma letter_grid_eq width height (a : assignment) :
  letter_grid width height a
  = if fits_gridb width height a
    then Ok (paint_all a (repeat (repeat None width) height))
    else Raise IndexError.
Proof. unfold letter_grid. apply letter_loop, shaped_blank. Qed.

Lemma fits_gridb_spec width height (a : assignment) :
  fits_gridb width height a = true <-> fits_grid width height a.
Proof.
  unfold fits_gridb, fits_grid. rewrite forallb_forall. split.
  - intros H v w k I Hk. apply H in I. cbn [fst snd] in I.
    rewrite forallb_forall in I. specialize (I k).
    unfold in_grid in I. rewrite andb_true_iff, !Nat.ltb_lt in I.
    apply I. apply in_seq. lia.
  - intros H [v w] I. cbn [fst snd]. apply forallb_forall. intros k Hk.
    apply in_seq in Hk. unfold in_grid. rewrite andb_true_iff, !Nat.ltb_lt.
    apply (H v w k I). lia.
Qed.

(** X10: [letter_grid] succeeds exactly when every letter of every assigned
    word falls inside the grid, and then returns an array of [height] rows
    of [width] cells; otherwise it raises IndexError (and nothing else). *)
Theorem letter_grid_shape width height (a : assignment) :
  ((exists g, letter_grid width height a = Ok g) <-> fits_grid width height a) /\
  (forall g, letter_grid width height a = Ok g ->
     List.length g = height /\ forall row, In row g -> List.length row = width) /\
  (forall e, letter_grid width height a = Raise e -> e = IndexError).
Proof.
  rewrite letter_grid_eq, <- fits_gridb_spec.
  destruct (fits_gridb width height a); split; [|split| |split].
  - split; eauto.
  - intros g [= <-].
    destruct (@shaped_paint_all width height a _ (shaped_blank width height)) as [Hl Hr].
    split; [exact Hl|]. intros row Hrow.
    apply (In_nth _ _ []) in Hrow as (i & Hi & <-). apply Hr. lia.
  - discriminate.
  - split; [intros [g H]; discriminate | discriminate].
  - discriminate.
  - now intros e [= <-].
Qed.

Lemma cell_of_inj v k k' : cell_of v k = cell_of v k' -> k = k'.
Proof.
  unfold cell_of. destruct (var_direction v); intros H; injection H; intros; lia.
Qed.

Lemma cell_eqb p q :
  (fst p =? fst q) && (snd p =? snd q) = true <-> p = q.
Proof.
  destruct p, q. cbn [fst snd]. rewrite andb_true_iff, !Nat.eqb_eq.
  split; [intros [-> ->]; reflexivity | intros [= -> ->]; auto].
Qed.

Lemma read_paint_word width height v w ks : forall g,
  shaped width height g -> NoDup ks ->
  (forall k, In k ks -> in_grid width height (cell_of v k) = true) ->
  (forall k, In k ks -> read (paint_word v w ks g) (cell_of v k) = String.get k w) /\
  (forall p, (forall k, In k ks -> cell_of v k <> p) ->
             read (paint_word v w ks g) p = read g p).
Proof.
  unfold paint_word.
  induction ks as [|k ks IH]; intros g Hg Hnd Hin; cbn [fold_left].
  - split; [intros k [] | reflexivity].
  - inversion Hnd as [|? ? Hni Hnd']; subst.
    destruct (IH (paint g (cell_of v k) (String.get k w))) as [I1 I2]; auto.
    + now apply shaped_paint.
    + intros k' Hk'. apply Hin. now right.
    + assert (Hread : forall q, read (paint g (cell_of v k) (String.get k w)) q
                = if (fst (cell_of v k) =? fst q) && (snd (cell_of v k) =? snd q)
                  then String.get k w else read g q).
      { intros q. apply (@read_paint width height); auto. apply Hin. now left. }
      split.
      * intros k' [<-|Hk']; [|now apply I1].
        rewrite I2.
        -- rewrite Hread. now rewrite (proj2 (cell_eqb _ _) eq_refl).
        -- intros k' Hk' E. apply cell_of_inj in E. subst. contradiction.
      * intros p Hp. rewrite I2 by (intros k' Hk'; apply Hp; now right).
        rewrite Hread.
        destruct ((fst (cell_of v k) =? fst p) && (snd (cell_of v k) =? snd p)) eqn:E; auto.
        apply cell_eqb in E. exfalso. apply (Hp k); [now left | exact E].
Qed.

Lemma paint_all_app (a b : assignment) g :
  paint_all (a ++ b) g = paint_all b (paint_all a g).
Proof. unfold paint_all. apply fold_left_app. Qed.

Lemma read_paint_all width height (a : assignment) :
  fits_grid width height a -> crossings_agree a ->
  (forall v w k, In (v, w) a -> k < String.length w ->
     read (paint_all a (repeat (repeat None width) height)) (cell_of v k)
     = String.get k w) /\
  (forall p, (forall v w k, In (v, w) a -> k < String.length w -> cell_of v k <> p) ->
     read (paint_all a (repeat (repeat None width) height)) p = None).
Proof.
  induction a as [|[v w] a IH] using rev_ind; intros Hf Hc.
  - split; [intros v w k [] | intros p _; apply read_blank].
  - rewrite paint_all_app. set (g := paint_all a (repeat (repeat None width) height)).
    assert (Hg : shaped width height g) by apply shaped_paint_all, shaped_blank.
    destruct IH as [I1 I2].
    { intros v' w' k' I. apply Hf. apply in_or_app. now left. }
    { intros v1 w1 k1 v2 w2 k2 H1 H2. apply Hc; apply in_or_app; now left. }
    fold g in I1, I2.
    destruct (@read_paint_word width height v w (seq 0 (String.length w)) g Hg
                (seq_NoDup _ _)) as [R1 R2].
    { intros k Hk. apply in_seq in Hk. unfold in_grid.
      rewrite andb_true_iff, !Nat.ltb_lt. apply (Hf v w k); [|lia].
      apply in_or_app. right. now left. }
    unfold paint_all at 1. cbn [fold_left fst snd].
    assert (Hcov : forall p,
              (exists k, k < String.length w /\ cell_of v k = p) \/
              (forall k, In k (seq 0 (String.length w)) -> cell_of v k <> p)).
    { intros p.
      destruct (existsb (fun k => (fst (cell_of v k) =? fst p)
                                  && (snd (cell_of v k) =? snd p))
                        (seq 0 (String.length w))) eqn:E.
      - apply existsb_exists in E as (k & Hk & E). apply cell_eqb in E.
        apply in_seq in Hk. left. exists k. split; [lia | exact E].
      - right. intros k Hk Ep.
        assert (existsb (fun k => (fst (cell_of v k) =? fst p)
                                  && (snd (cell_of v k) =? snd p))
                        (seq 0 (String.length w)) = true); [|congruence].
        apply existsb_exists. exists k. split; auto. now apply cell_eqb. }
    split.
    + intros v' w' k' I Hk'. apply in_app_or in I as [I|[[= <- <-]|[]]].
      * destruct (Hcov (cell_of v' k')) as [(k & Hk & E)|Hn].
        -- rewrite <- E. rewrite R1 by (apply in_seq; lia).
           apply (Hc v w k v' w' k'); auto.
           ++ apply in_or_app. right. now left.
           ++ apply in_or_app. now left.
        -- rewrite R2 by assumption. now apply I1.
      * apply R1. apply in_seq. lia.
    + intros p Hp. rewrite R2.
      * apply I2. intros v' w' k' I Hk'. apply (Hp v' w' k'); auto. apply in_or_app. now left.
      * intros k Hk. apply in_seq in Hk. apply (Hp v w k); [|lia].
        apply in_or_app. right. now left.
Qed.

(** X11: when the assigned words agree wherever two of them run over the
    same cell, the array of [letter_grid] shows every word: the cell of the
    [k]-th letter of a variable holds the [k]-th letter of its word; and a
    cell that no assigned word runs over holds None. *)
Theorem letter_grid_reads_back width height (a : assignment) g :
  letter_grid width height a = Ok g -> crossings_agree a ->
  (forall v w k, In (v, w) a -> k < String.length w ->
     read g (cell_of v k) = String.get k w) /\
  (forall p, (forall v w k, In (v, w) a -> k < String.length w -> cell_of v k <> p) ->
     read g p = None).
Proof.
  rewrite letter_grid_eq.
  destruct (fits_gridb width height a) eqn:F; [|discriminate].
  intros [= <-] Hc. apply read_paint_all; auto. now apply fits_gridb_spec.
Qed.

(** ** The checkers *)

Lemma same_cell_spec p q : same_cell p q = true <-> p = q.
Proof. apply cell_eqb. Qed.

Lemma shared_cells_recordedb_ok :
  shared_cells_recordedb = true -> shared_cells_recorded.
Proof.
  unfold shared_cells_recordedb. rewrite forallb_forall.
  intros H x y kx ky Hx Hy Hne Hkx Hky E.
  specialize (H x Hx). rewrite forallb_forall in H. specialize (H y Hy).
  destruct (Var_eq_dec x y) as [|_]; [contradiction|].
  rewrite forallb_forall in H.
  assert (Ikx : In kx (seq 0 (var_length x))) by (apply in_seq; lia).
  specialize (H kx Ikx). rewrite forallb_forall in H.
  assert (Iky : In ky (seq 0 (var_length y))) by (apply in_seq; lia).
  specialize (H ky Iky).
  rewrite (proj2 (same_cell_spec _ _) E) in H.
  destruct (overlap x y) as [[i j]|]; [|discriminate].
  apply andb_true_iff in H as [H1 H2].
  apply Nat.eqb_eq in H1, H2. now subst.
Qed.

Lemma letter_eqb_eq x y : letter_eqb x y = true -> x = y.
Proof.
  destruct x as [a|], y as [b|]; cbn; try discriminate; auto.
  intros H. apply Ascii.eqb_eq in H. now subst.
Qed.

Lemma crossings_agreeb_ok (a : assignment) :
  crossings_agreeb a = true -> crossings_agree a.
Proof.
  unfold crossings_agreeb. rewrite forallb_forall.
  intros H v w k v' w' k' I I' Hk Hk' E.
  specialize (H (v, w) I). cbn [fst snd] in H. rewrite forallb_forall in H.
  assert (Ik : In k (seq 0 (String.length w))) by (apply in_seq; lia).
  specialize (H k Ik). rewrite forallb_forall in H.
  specialize (H (v', w') I'). cbn [fst snd] in H. rewrite forallb_forall in H.
  assert (Ik' : In k' (seq 0 (String.length w'))) by (apply in_seq; lia).
  specialize (H k' Ik').
  rewrite (proj2 (same_cell_spec _ _) E) in H. now apply letter_eqb_eq.
Qed.

Lemma drawn_fromb_ok s (r : assignment) : drawn_fromb s r = true -> drawn_from s r.
Proof.
  unfold drawn_fromb. rewrite forallb_forall. intros H v w E.
  apply dict_get_In in E. apply H in E. cbn [fst snd] in E. unfold inb in E.
  destruct (in_dec word_eq_dec w (dom s v)); [assumption | discriminate].
Qed.

Lemma lengths_fitb_ok (a : assignment) : lengths_fitb a = true -> lengths_fit a.
Proof.
  unfold lengths_fitb. rewrite forallb_forall. intros H v w E.
  apply dict_get_In in E. apply H in E. cbn [fst snd] in E. now apply Nat.eqb_eq.
Qed.

Lemma arc_consistentb_ok s : arc_consistentb s = true -> arc_consistent s.
Proof.
  unfold arc_consistentb. rewrite forallb_forall. intros H x y i j Eo wx Hwx.
  apply overlap_Some, dict_get_In in Eo. apply H in Eo.
  rewrite forallb_forall in Eo. now apply Eo.
Qed.

(** ** solve followed by letter_grid *)

Lemma complete_consistent_solution (r : assignment) :
  wf_crossword -> assignment_complete cw r = true -> NoDup (keys r) ->
  incl (keys r) (variables cw) -> consistent cw r = Ok true -> solution r.
Proof.
  intros WC C Hk Hi Hc. apply (consistent_valid r WC Hk Hi) in Hc.
  destruct Hc as (Hl & Ha & Hd). split; [|split].
  - intros v Hv. unfold assignment_complete in C. rewrite forallb_forall in C.
    apply C in Hv. unfold dict_mem in Hv.
    destruct (dict_get Var_eq_dec v r) as [w|] eqn:E; [|discriminate]. eauto.
  - intros x y i j wx wy Eo Ex Ey. eapply Ha; eauto.
  - intros x y wx wy Hne Ex Ey. eapply Hd; eauto.
Qed.

Lemma solve_Some_solution s r s' :
  wf_crossword -> solve cw s = Ok (Some r, s') ->
  solution r /\ NoDup (keys r) /\ incl (keys r) (variables cw).
Proof.
  intros WC H. unfold solve in H.
  apply bind_Ok in H as (s1 & _ & H). apply bind_Ok in H as ([b s2] & _ & H).
  unfold backtrack in H.
  apply backtrack_rec_Some in H as (C & Hk & Hi & Hr); [|constructor | intros v []].
  split; [|split; assumption].
  apply complete_consistent_solution; auto.
  destruct Hr as [->|Hr]; [|exact Hr]. reflexivity.
Qed.

Lemma agree_get i j wx wy : agree i j wx wy = true -> String.get i wx = String.get j wy.
Proof.
  unfold agree. destruct (String.get i wx), (String.get j wy); try discriminate.
  intros H. apply Ascii.eqb_eq in H. now subst.
Qed.

Lemma solution_crossings_agree (r : assignment) :
  shared_cells_recorded -> solution r -> NoDup (keys r) ->
  incl (keys r) (variables cw) -> crossings_agree r.
Proof.
  intros G (S1 & S2 & _) Hk Hi v w k v' w' k' I I' Hlt Hlt' E.
  assert (Hv : In v (variables cw)).
  { apply Hi. unfold keys. apply in_map_iff. exists (v, w). auto. }
  assert (Hv' : In v' (variables cw)).
  { apply Hi. unfold keys. apply in_map_iff. exists (v', w'). auto. }
  pose proof (@In_dict_get _ _ Var_eq_dec _ _ _ Hk I) as D.
  pose proof (@In_dict_get _ _ Var_eq_dec _ _ _ Hk I') as D'.
  destruct (Var_eq_dec v v') as [<-|Hne].
  - rewrite D in D'. injection D' as <-. apply cell_of_inj in E. now subst.
  - destruct (S1 v Hv) as (w0 & E0 & L0). rewrite D in E0. injection E0 as <-.
    destruct (S1 v' Hv') as (w1 & E1 & L1). rewrite D' in E1. injection E1 as <-.
    apply agree_get. apply (S2 v v' k k' w w'); auto.
    apply G; auto; lia.
Qed.

(** X13: [solve] followed by [letter_grid], as [main] chains them.  On a
    well-formed grid whose overlap table records every shared cell, when
    [solve] returns an assignment and [letter_grid] returns an array for
    it, every variable of the grid can be read off the array: the cell of
    its [k]-th letter holds the [k]-th letter of its word, which has the
    length of the variable; and a cell that no variable runs over holds
    None. *)
Theorem solve_then_letter_grid s r s' width height g :
  wf_crossword -> shared_cells_recorded ->
  solve cw s = Ok (Some r, s') -> letter_grid width height r = Ok g ->
  (forall v, In v (variables cw) ->
     exists w, dict_get Var_eq_dec v r = Some w /\ String.length w = var_length v /\
       forall k, k < var_length v -> read g (cell_of v k) = String.get k w) /\
  (forall p, (forall v k, In v (variables cw) -> k < var_length v -> cell_of v k <> p) ->
     read g p = None).
Proof.
  intros WC G H Hg.
  destruct (@solve_Some_solution s r s' WC H) as (Hsol & Hk & Hi).
  pose proof (@solution_crossings_agree r G Hsol Hk Hi) as Hc.
  rewrite letter_grid_eq in Hg.
  destruct (fits_gridb width height r) eqn:F; [|discriminate].
  injection Hg as <-. apply fits_gridb_spec in F.
  destruct (@read_paint_all width height r F Hc) as [R1 R2].
  destruct Hsol as (S1 & _). split.
  - intros v Hv. destruct (S1 v Hv) as (w & E & L). exists w.
    split; [exact E|]. split; [exact L|]. intros k Hlt.
    apply R1; [now apply dict_get_In in E | lia].
  - intros p Hp. apply R2. intros v w k I Hlt.
    assert (Hv : In v (variables cw)).
    { apply Hi. unfold keys. apply in_map_iff. exists (v, w). auto. }
    apply Hp; auto.
    destruct (S1 v Hv) as (w0 & E0 & L0).
    rewrite (@In_dict_get _ _ Var_eq_dec _ _ _ Hk I) in E0. injection E0 as <-. lia.
Qed.

(** ** What ac3 keeps *)

Lemma revise_keeps_wf x y b s s1 :
  wf_crossword -> wf_store s /\ node_consistent s ->
  revise cw x y s = Ok (b, s1) ->
  wf_store s1 /\ node_consistent s1.
Proof.
  intros WC (W & N) H.
  destruct (overlap x y) as [[i j]|] eqn:Eo.
  - destruct (@revise_arc s x y i j WC W N Eo)
      as (b' & s1' & Hr & W1 & N1 & _).
    rewrite Hr in H. injection H as <- <-. auto.
  - unfold revise, dict_item in H. unfold overlap in Eo.
    destruct (dict_get arc_eq_dec (x, y) (overlaps cw)) as [[o|]|]; try discriminate.
    injection H as <- <-. auto.
Qed.

(** X15: [ac3] keeps the solver object in shape, whatever the arcs and
    whichever of the two results it returns: on a well-formed grid, the
    dictionary of domains still maps every variable of the grid to a set
    object of its own, the same one as before, and if every word had the
    length of its variable before the call, so it has after. *)
Theorem ac3_keeps_store arcs s b s' :
  wf_crossword -> wf_store s -> node_consistent s ->
  ac3 cw arcs s = Ok (b, s') ->
  wf_store s' /\ node_consistent s' /\ domains s' = domains s.
Proof.
  intros WC W N H. apply ac3_revisions in H.
  assert (K : wf_store s' /\ node_consistent s').
  { apply (@revisions_inv (fun s => wf_store s /\ node_consistent s) s s'); auto.
    intros x y b0 s0 s1 P Hr. eapply revise_keeps_wf; eauto. }
  destruct K as [W' N']. split; [exact W'|]. split; [exact N'|].
  now apply revisions_shrinks in H as [E _].
Qed.

(** ** backtrack on a store that need not be arc consistent *)

Lemma same_store_wf s s0 :
  same_store s s0 -> wf_store s0 -> node_consistent s0 ->
  wf_store s /\ node_consistent s.
Proof.
  intros SS W N. pose proof (same_store_dom SS) as Hd. destruct SS as [D H]. split.
  - constructor.
    + rewrite D. apply W.
    + rewrite D. apply W.
    + rewrite D, H. apply W.
    + intros l. unfold deref. rewrite H. apply (wf_sets W).
  - intros v w Hv Hw. rewrite Hd in Hw. now apply N.
Qed.

Lemma NoDup_neighbor_arcs var :
  wf_crossword -> In var (variables cw) ->
  NoDup (map (fun x => (x, var)) (neighbors cw var)).
Proof.
  intros WC Hv. pose proof (@wfc_nb_nodup WC var Hv) as H.
  induction H as [|n l Hn _ IH]; cbn [map]; constructor; auto.
  intros I. apply in_map_iff in I as (m & E & Hm). injection E as ->. contradiction.
Qed.

Lemma ac3_inv arcs s b s' :
  wf_crossword -> wf_store s -> node_consistent s ->
  ac3 cw arcs s = Ok (b, s') ->
  wf_store s' /\ node_consistent s' /\ domains s' = domains s.
Proof.
  intros WC W N H. apply ac3_revisions in H.
  assert (K : wf_store s' /\ node_consistent s').
  { apply (@revisions_inv (fun s => wf_store s /\ node_consistent s) s s'); auto.
    intros x y b0 s0 s1 P Hr. eapply revise_keeps_wf; eauto. }
  destruct K as [W' N']. split; [exact W'|]. split; [exact N'|].
  now apply revisions_shrinks in H as [E _].
Qed.

Lemma ac3_drain_set_progress again q : forall s,
  wf_crossword -> NoDup q -> (forall x y, In (x, y) q -> overlap x y <> None) ->
  wf_store s -> node_consistent s ->
  (exists b s', ac3_drain cw again PySet q s = Ok (b, s')) \/
  ac3_drain cw again PySet q s = Raise AttributeError.
Proof.
  induction q as [|[x y] q IH]; intros s WC Hnd Ho W N; cbn [ac3_drain].
  - left. eauto.
  - inversion Hnd as [|? ? Hni Hnd']; subst.
    destruct (overlap x y) as [[i j]|] eqn:Eo;
      [|exfalso; apply (Ho x y); [now left | exact Eo]].
    destruct (@revise_arc s x y i j WC W N Eo)
      as (b & s1 & Hr & W1 & N1 & _ & _ & Hf & _).
    rewrite Hr. cbn [bind]. destruct b.
    + destruct (@wfc_arc WC _ _ _ _ Eo) as (Hx & _).
      rewrite domain_of_key by (rewrite (wf_keys W1); exact Hx). cbn [bind].
      destruct (List.length (dom s1 x) =? 0).
      * left. eauto.
      * right.
        assert (In y (neighbors cw x)) as Hy by (apply (@wfc_nb WC); auto; congruence).
        unfold requeue. rewrite (@requeue_set_raises x _ q y Hy Hni). reflexivity.
    + destruct (Hf eq_refl) as [-> _]. apply IH; auto.
      intros a b I. apply Ho. now right.
Qed.

Lemma ac3_set_progress arcs s :
  wf_crossword -> NoDup arcs -> (forall x y, In (x, y) arcs -> overlap x y <> None) ->
  wf_store s -> node_consistent s ->
  (exists b s', ac3 cw (Some (PySet, arcs)) s = Ok (b, s') /\
     wf_store s' /\ node_consistent s' /\ domains s' = domains s) \/
  ac3 cw (Some (PySet, arcs)) s = Raise AttributeError.
Proof.
  intros WC Hnd Ho W N.
  destruct (@ac3_drain_set_progress (ac3_loop cw (heap_size s) PySet) arcs s WC Hnd Ho W N)
    as [(b & s' & H)|H].
  - left. exists b, s'. split; [exact H|].
    exact (@ac3_inv (Some (PySet, arcs)) s b s' WC W N H).
  - right. exact H.
Qed.

Lemma backtrack_rec_progress fuel :
  wf_crossword ->
  forall (a : assignment) s,
    wf_store s -> node_consistent s -> List.length (unassigned cw a) < fuel ->
    NoDup (keys a) -> incl (keys a) (variables cw) -> lengths_fit a ->
    (exists r s', backtrack_rec cw fuel a s = Ok (r, s') /\
       wf_store s' /\ node_consistent s' /\ domains s' = domains s) \/
    backtrack_rec cw fuel a s = Raise AttributeError.
Proof.
  intros WC. induction fuel as [|fuel IH]; intros a s W N Hf Hk Hincl L; [lia|].
  cbn [backtrack_rec].
  assert (SSt : same_store (tick s) s) by (split; reflexivity).
  destruct (same_store_wf SSt W N) as (Wt & Nt).
  destruct (assignment_complete cw a) eqn:C.
  - left. exists (Some a), (tick s). auto.
  - destruct (@select_Ok a (tick s) (wfc_vars WC) (wf_keys Wt) C)
      as (v & -> & Hv & Mv & _).
    cbn [bind].
    destruct (@order_domain_values_Ok (tick s) v a WC Wt Nt Hv) as (cands & -> & P & _).
    cbn [bind].
    assert (Hlen : forall w, In w cands -> String.length w = var_length v).
    { intros w Hw. apply (Nt v w Hv). eapply Permutation_in; eauto. }
    assert (Hloop : forall (cs : list word) s1, wf_store s1 -> node_consistent s1 ->
      (forall w, In w cs -> String.length w = var_length v) ->
      (exists r s', backtrack_loop cw (backtrack_rec cw fuel) v a cs s1 = Ok (r, s') /\
         wf_store s' /\ node_consistent s' /\ domains s' = domains s1) \/
      backtrack_loop cw (backtrack_rec cw fuel) v a cs s1 = Raise AttributeError).
    { induction cs as [|w cs IHcs]; intros s1 W1 N1 Hl; cbn [backtrack_loop].
      - left. exists None, s1. auto.
      - assert (Hl' : forall w, In w cs -> String.length w = var_length v)
          by (intros x Hx; apply Hl; now right).
        set (na := dict_set Var_eq_dec v w a).
        assert (Hkn : NoDup (keys na)) by now apply NoDup_keys_dict_set.
        assert (Hin : incl (keys na) (variables cw)).
        { intros u Hu. apply In_keys_dict_set in Hu as [->|Hu]; auto. }
        assert (Ln : lengths_fit na).
        { intros u x Hu. unfold na in Hu. destruct (Var_eq_dec v u) as [<-|Hne].
          - rewrite dict_get_set_eq in Hu. injection Hu as <-. apply Hl. now left.
          - rewrite dict_get_set_ne in Hu by assumption. now apply L. }
        destruct (@consistent_returns na WC Hin Ln) as [b Hb]. rewrite Hb. cbn [bind].
        destruct b; [|now apply IHcs].
        destruct (@ac3_set_progress (map (fun x => (x, v)) (neighbors cw v)) s1 WC
                    (@NoDup_neighbor_arcs v WC Hv) (@neighbor_arcs_overlap v WC Hv) W1 N1)
          as [(b' & s2 & Ha & W2 & N2 & D2)|Ha]; rewrite Ha; cbn [bind];
          [|right; reflexivity].
        destruct (IH na s2 W2 N2) as [(r & s3 & Hr & W3 & N3 & D3)|Hr]; auto.
        { pose proof (@unassigned_set_lt a v w Hv Mv). fold na in H. lia. }
        + rewrite Hr. cbn [bind]. destruct r as [r'|].
          * left. exists (Some r'), s3. split; [reflexivity|].
            split; [exact W3|]. split; [exact N3|]. congruence.
          * assert (SS : same_store (with_domains (domains s1) s3) s3).
            { split; simpl; congruence. }
            destruct (same_store_wf SS W3 N3) as (W4 & N4).
            destruct (IHcs (with_domains (domains s1) s3) W4 N4 Hl')
              as [(r & s' & H & W' & N' & D')|H].
            -- left. exists r, s'. split; [exact H|]. split; [exact W'|].
               split; [exact N'|]. rewrite D'. reflexivity.
            -- right. exact H.
        + rewrite Hr. right. reflexivity. }
    destruct (Hloop cands (tick s) Wt Nt Hlen) as [(r & s' & H & W' & N' & D')|H].
    + left. exists r, s'. split; [exact H|]. split; [exact W'|]. split; [exact N'|].
      rewrite D'. reflexivity.
    + right. exact H.
Qed.

(** X16: [backtrack] called on a store that has not been made arc
    consistent.  On a well-formed grid and a well-formed, node-consistent
    store, with an assignment whose words have the lengths of their
    variables, [backtrack] either returns, leaving the store well formed and
    node consistent with the same dictionary, or raises AttributeError (from
    [append] on the set of arcs); it raises nothing else. *)
Theorem backtrack_returns_or_AttributeError (a : assignment) s :
  wf_crossword -> wf_store s -> node_consistent s ->
  NoDup (keys a) -> incl (keys a) (variables cw) -> lengths_fit a ->
  (exists r s', backtrack cw a s = Ok (r, s') /\
     wf_store s' /\ node_consistent s' /\ domains s' = domains s) \/
  backtrack cw a s = Raise AttributeError.
Proof.
  intros WC W N Hk Hi L. unfold backtrack.
  apply backtrack_rec_progress; auto.
Qed.

(** ** ac3 on a list of arcs *)

(** X17: [ac3(arcs)] with a list of arcs, as a caller that maintains arc
    consistency would use it.  On a well-formed grid and a well-formed,
    node-consistent store in which every arc outside the list is already
    consistent, [ac3] returns without raising; if it returns True the whole
    store is arc consistent and no domain became empty, and if it returns
    False some variable of the grid has an empty domain. *)
Theorem ac3_on_list arcs s :
  wf_crossword -> wf_store s -> node_consistent s ->
  (forall x y, In (x, y) arcs -> overlap x y <> None) ->
  (forall x y i j, overlap x y = Some (i, j) -> ~ In (x, y) arcs -> arc_ok s x y i j) ->
  exists b s', ac3 cw (Some (PyList, arcs)) s = Ok (b, s') /\
    (b = true -> arc_consistent s' /\ forall v, dom s' v = [] -> dom s v = []) /\
    (b = false -> exists x, In x (variables cw) /\ dom s' x = []).
Proof.
  intros WC W N Ho Ha. unfold ac3.
  destruct (@ac3_list_inv (S (heap_size s)) (rev arcs) s WC (Nat.lt_succ_diag_r _) W N)
    as (b & s' & H & _ & _ & Ht & Hf).
  - intros x y I. apply in_rev in I. now apply Ho.
  - intros x y i j Eo Hn. apply (Ha x y i j Eo). intros I. apply Hn.
    now apply -> in_rev.
  - exists b, s'. split; [exact H|]. split; [exact Ht|].
    intros E. destruct (Hf E) as (x & y & s1 & Hxy & _ & Ex).
    exists x. split; [|exact Ex].
    destruct (overlap x y) as [[i j]|] eqn:Eo; [|congruence].
    now destruct (@wfc_arc WC _ _ _ _ Eo).
Qed.

End Correctness.

(** * The properties on the concrete puzzles *)

Lemma grid1_wf : wf_crossword grid1.
Proof. apply wf_crosswordb_ok. vm_compute. reflexivity. Qed.

Lemma grid2_wf : wf_crossword grid2.
Proof. apply wf_crosswordb_ok. vm_compute. reflexivity. Qed.

(** C1, as the design document states it, fails: on [grid2] the full [ac3()]
    empties the domain of [slot_b] and returns False, and [solve] still
    invokes [backtrack] (the counter of invocations is 1, not 0). *)
Lemma solve_invokes_backtrack : ~ solve_skips_search grid2 (init grid2).
Proof.
  intros H.
  specialize (H grid2_nc grid2_ac3 eq_refl eq_refl).
  vm_compute in H. discriminate H.
Qed.

Lemma solve_after_ac3_failure_witness :
  ac3 grid2 None grid2_nc = Ok (false, grid2_ac3) /\
  solve grid2 (init grid2) = Ok (None, tick grid2_ac3) /\
  calls (tick grid2_ac3) = 1 /\ heap (tick grid2_ac3) = heap grid2_ac3.
Proof.
  split; [vm_compute; reflexivity|].
  apply (@solve_after_ac3_failure grid2 (init grid2) grid2_nc grid2_ac3).
  - apply nodupb_NoDup with (dec := Var_eq_dec). vm_compute. reflexivity.
  - vm_compute. reflexivity.
  - vm_compute. reflexivity.
  - vm_compute. reflexivity.
Defined.

(** C2: the restore of [backtrack] does not undo the removals of the failed
    branch.  On [grid2] after node consistency only, [backtrack({})] selects
    [slot_b] and tries "cyy"; the snapshot [prev_domains] is a copy of the
    dictionary that still refers to the same set objects; [ac3] removes "ab"
    and "ef" from the set of [slot_a]; the recursive call returns None; and
    after [self.domains = prev_domains] the domain of [slot_a] is empty,
    whereas it held two words when the snapshot was taken. *)
Theorem backtrack_restore_leaks :
  let s := tick grid2_nc in
  select_unassigned_variable grid2 [] s = Ok slot_b /\
  order_domain_values grid2 slot_b [] s = Ok ["cyy"%string] /\
  consistent grid2 [(slot_b, "cyy"%string)] = Ok true /\
  exists s1 s2,
    ac3 grid2 (Some (PySet, [(slot_a, slot_b)])) s = Ok (false, s1) /\
    backtrack_rec grid2 2 [(slot_b, "cyy"%string)] s1 = Ok (None, s2) /\
    dom s slot_a = ["ab"; "ef"]%string /\
    dom (with_domains (domains s) s2) slot_a = [] /\
    backtrack grid2 [] grid2_nc = Ok (None, with_domains (domains s) s2).
Proof.
  cbv zeta. split; [vm_compute; reflexivity|].
  split; [vm_compute; reflexivity|]. split; [vm_compute; reflexivity|].
  eexists _, _. split; [vm_compute; reflexivity|].
  split; [vm_compute; reflexivity|].
  split; [vm_compute; reflexivity|]. split; vm_compute; reflexivity.
Qed.

Lemma solve_returns_solution_witness :
  solve grid1 (init grid1) <> Raise OutOfFuel /\
  solution grid1 [(slot_across, "dog"%string); (slot_down, "frog"%string)].
Proof.
  destruct (@solve_returns_solution grid1 grid1_wf) as (H1 & H2 & _). split.
  - apply H1.
  - eapply (H2 (init grid1)). vm_compute. reflexivity.
Defined.

Lemma grid1_nc_wf : wf_store grid1 grid1_nc.
Proof. apply wf_storeb_ok. vm_compute. reflexivity. Qed.

Lemma grid1_nc_node_consistent : node_consistent grid1 grid1_nc.
Proof. apply node_consistentb_ok. vm_compute. reflexivity. Qed.

Lemma ac3_arc_consistency_witness :
  exists b s', ac3 grid1 None grid1_nc = Ok (b, s') /\
    (b = true ->
       (forall x y i j wx, overlap grid1 x y = Some (i, j) -> In wx (dom s' x) ->
          exists wy, In wy (dom s' y) /\ agree i j wx wy = true) /\
       (forall v, dom s' v = [] -> dom grid1_nc v = []) /\
       ac3_steps grid1 grid1_nc s') /\
    (b = false ->
       exists x y s1, overlap grid1 x y <> None /\
         revise grid1 x y s1 = Ok (true, s') /\ dom s' x = [] /\
         ac3_steps grid1 grid1_nc s1).
Proof.
  apply (@ac3_arc_consistency grid1 grid1_nc).
  - exact grid1_wf.
  - exact grid1_nc_wf.
  - exact grid1_nc_node_consistent.
Defined.

Lemma grid1_vars_NoDup : NoDup (variables grid1).
Proof. apply nodupb_NoDup with (dec := Var_eq_dec). vm_compute. reflexivity. Qed.

Lemma revise_spec_witness :
  exists b s', revise grid1 slot_across slot_down grid1_nc = Ok (b, s') /\
    dom s' slot_across
    = filter (supported 1 2 (dom grid1_nc slot_down)) (dom grid1_nc slot_across) /\
    (forall z, z <> slot_across -> dom s' z = dom grid1_nc z) /\
    (b = true <-> dom s' slot_across <> dom grid1_nc slot_across).
Proof.
  assert (Hx : In slot_across (variables grid1)) by (simpl; auto).
  assert (Hy : In slot_down (variables grid1)) by (simpl; auto).
  assert (Hne : slot_across <> slot_down) by discriminate.
  destruct (@revise_spec grid1 grid1_nc slot_across slot_down grid1_nc_wf Hx Hy Hne)
    as [_ H].
  apply (H 1 2).
  - vm_compute. reflexivity.
  - intros w Hw. vm_compute in Hw. destruct Hw as [<-|[<-|[]]]; vm_compute; lia.
  - intros w Hw. vm_compute in Hw. destruct Hw as [<-|[<-|[]]]; vm_compute; lia.
Defined.

Lemma select_unassigned_variable_spec_witness :
  exists v, select_unassigned_variable grid1 [] grid1_nc = Ok v /\
    In v (variables grid1) /\ dict_mem Var_eq_dec v (@nil (Var * word)) = false /\
    (forall u, In u (variables grid1) -> dict_mem Var_eq_dec u (@nil (Var * word)) = false ->
       List.length (dom grid1_nc v) <= List.length (dom grid1_nc u)) /\
    (forall u, In u (variables grid1) -> dict_mem Var_eq_dec u (@nil (Var * word)) = false ->
       List.length (dom grid1_nc u) = List.length (dom grid1_nc v) ->
       List.length (neighbors grid1 u) <= List.length (neighbors grid1 v)).
Proof.
  apply (@select_unassigned_variable_spec grid1 [] grid1_nc).
  - exact grid1_vars_NoDup.
  - vm_compute. reflexivity.
  - vm_compute. reflexivity.
Defined.

Lemma order_domain_values_spec_witness :
  exists l, order_domain_values grid1 slot_across [] grid1_nc = Ok l /\
    Permutation l (dom grid1_nc slot_across) /\ NoDup l /\
    StronglySorted (fun w1 w2 => eliminated grid1 grid1_nc slot_across [] w1
                                 <= eliminated grid1 grid1_nc slot_across [] w2) l.
Proof.
  apply (@order_domain_values_spec grid1 grid1_nc slot_across []).
  - exact grid1_wf.
  - exact grid1_nc_wf.
  - exact grid1_nc_node_consistent.
  - simpl. auto.
Defined.

Lemma consistent_spec_witness :
  consistent grid1 [(slot_across, "dog"%string); (slot_down, "frog"%string)] = Ok true /\
  valid grid1 [(slot_across, "dog"%string); (slot_down, "frog"%string)].
Proof.
  assert (Hk : NoDup (keys [(slot_across, "dog"%string); (slot_down, "frog"%string)])).
  { apply nodupb_NoDup with (dec := Var_eq_dec). vm_compute. reflexivity. }
  assert (Hi : incl (keys [(slot_across, "dog"%string); (slot_down, "frog"%string)])
                    (variables grid1)).
  { intros v Hv. exact Hv. }
  pose proof (@consistent_spec grid1 _ grid1_wf Hk Hi) as H.
  assert (Hc : consistent grid1 [(slot_across, "dog"%string); (slot_down, "frog"%string)]
               = Ok true) by (vm_compute; reflexivity).
  split; [exact Hc|]. exact (proj1 H Hc).
Defined.

Lemma grid1_init_wf : wf_store grid1 (init grid1).
Proof. apply wf_storeb_ok. vm_compute. reflexivity. Qed.

Lemma enforce_node_consistency_spec_witness :
  exists s', enforce_node_consistency grid1 (init grid1) = Ok s' /\
    (forall v, In v (variables grid1) ->
       dom s' v = filter (fun w => String.length w =? var_length v) (dom (init grid1) v)) /\
    (forall v w, In v (variables grid1) -> In w (dom s' v) ->
       String.length w = var_length v) /\
    enforce_node_consistency grid1 s' = Ok s'.
Proof.
  apply (@enforce_node_consistency_spec grid1 (init grid1)). exact grid1_init_wf.
Defined.

Lemma select_unassigned_variable_partial_witness :
  select_unassigned_variable grid1
    [(slot_across, "dog"%string); (slot_down, "frog"%string)] grid1_nc = Raise ValueError /\
  (exists v, select_unassigned_variable grid1 [] grid1_nc = Ok v) /\
  backtrack grid1 [] grid1_nc <> Raise ValueError.
Proof.
  split; [|split].
  - apply (@select_unassigned_variable_partial grid1). vm_compute. reflexivity.
  - apply (@select_unassigned_variable_partial grid1 [] grid1_nc).
    + vm_compute. reflexivity.
    + exact grid1_vars_NoDup.
    + vm_compute. reflexivity.
  - apply (@select_unassigned_variable_partial grid1 [] grid1_nc).
Defined.

(** The arcs that [backtrack] hands to [ac3] are a set.  When the inference
    of a branch shrinks a domain without emptying it, [ac3] goes on to
    [queue.append], which a set does not have: on [grid3], after node
    consistency only, "ab" is removed from the domain of [slot_a], "cd"
    stays, and the call ends with AttributeError. *)
Lemma backtrack_set_append :
  backtrack grid3 [] grid3_nc = Raise AttributeError.
Proof. vm_compute. reflexivity. Qed.

(** ** The properties beyond the design document, on the concrete puzzles *)

Lemma grid3_wf : wf_crossword grid3.
Proof. apply wf_crosswordb_ok. vm_compute. reflexivity. Qed.

Lemma grid2_init_wf : wf_store grid2 (init grid2).
Proof. apply wf_storeb_ok. vm_compute. reflexivity. Qed.

Lemma grid1_ac3_wf : wf_store grid1 grid1_ac3.
Proof. apply wf_storeb_ok. vm_compute. reflexivity. Qed.

Lemma grid1_ac3_node_consistent : node_consistent grid1 grid1_ac3.
Proof. apply node_consistentb_ok. vm_compute. reflexivity. Qed.

Lemma grid1_ac3_arc_consistent : arc_consistent grid1 grid1_ac3.
Proof. apply arc_consistentb_ok. vm_compute. reflexivity. Qed.

Lemma grid1_shared_cells : shared_cells_recorded grid1.
Proof. apply shared_cells_recordedb_ok. vm_compute. reflexivity. Qed.

Lemma grid1_answer_keys : NoDup (keys grid1_answer).
Proof. apply nodupb_NoDup with (dec := Var_eq_dec). vm_compute. reflexivity. Qed.

Lemma grid1_answer_incl : incl (keys grid1_answer) (variables grid1).
Proof. intros v Hv. exact Hv. Qed.

Lemma grid1_answer_solution : solution grid1 grid1_answer.
Proof.
  apply complete_consistent_solution.
  - exact grid1_wf.
  - vm_compute. reflexivity.
  - exact grid1_answer_keys.
  - exact grid1_answer_incl.
  - vm_compute. reflexivity.
Qed.

Lemma init_spec_witness :
  wf_store grid1 (init grid1) /\
  (forall v, In v (variables grid1) -> dom (init grid1) v = words grid1) /\
  (forall v, ~ In v (variables grid1) -> domain_of (init grid1) v = Raise KeyError).
Proof.
  apply (@init_spec grid1).
  - apply nodupb_NoDup with (dec := Var_eq_dec). vm_compute. reflexivity.
  - apply nodupb_NoDup with (dec := word_eq_dec). vm_compute. reflexivity.
Defined.

Lemma domains_never_grow_witness :
  (forall v, incl (dom grid1_nc v) (dom (init grid1) v)) /\
  (forall v, incl (dom grid1_ac3 v) (dom grid1_nc v)).
Proof.
  split.
  - apply (proj1 (@domains_never_grow grid1 (init grid1)) grid1_nc).
    vm_compute. reflexivity.
  - apply (proj1 (proj2 (proj2 (@domains_never_grow grid1 grid1_nc))) None true grid1_ac3).
    vm_compute. reflexivity.
Defined.

Lemma ac3_idempotent_witness :
  ac3 grid1 None grid1_ac3 = Ok (true, grid1_ac3) /\
  forall var, In var (variables grid1) ->
    ac3 grid1 (Some (PySet, map (fun x => (x, var)) (neighbors grid1 var))) grid1_ac3
    = Ok (true, grid1_ac3).
Proof.
  apply (@ac3_idempotent grid1 grid1_nc grid1_ac3).
  - exact grid1_wf.
  - exact grid1_nc_wf.
  - exact grid1_nc_node_consistent.
  - vm_compute. reflexivity.
Defined.

Lemma ac3_on_set_witness :
  ac3 grid3 (Some (PySet, [(slot_a, slot_b)])) grid3_nc = Raise AttributeError.
Proof.
  assert (Hnd : NoDup [(slot_a, slot_b)]).
  { apply nodupb_NoDup with (dec := arc_eq_dec). vm_compute. reflexivity. }
  destruct (@ac3_on_set grid3 [(slot_a, slot_b)] grid3_nc grid3_wf Hnd) as (_ & _ & H).
  eapply (H [] slot_a slot_b []).
  - reflexivity.
  - intros a b [].
  - vm_compute. reflexivity.
  - vm_compute. discriminate.
Defined.

Lemma ac3_False_empty_domain_witness :
  exists x, In x (keys (domains grid2_ac3)) /\ dom grid2_ac3 x = [].
Proof.
  apply (@ac3_False_empty_domain grid2 None grid2_nc grid2_ac3).
  vm_compute. reflexivity.
Defined.

Lemma backtrack_on_consistent_store_witness :
  exists r s', backtrack grid1 [] grid1_ac3 = Ok (r, s') /\
    domains s' = domains grid1_ac3 /\ heap s' = heap grid1_ac3 /\
    match r with
    | Some r' =>
        extends [] r' /\
        forall v w, dict_get Var_eq_dec v r' = Some w ->
                    dict_get Var_eq_dec v (@nil (Var * word)) = Some w \/
                    In w (dom grid1_ac3 v)
    | None =>
        forall r', solution grid1 r' -> drawn_from grid1_ac3 r' -> extends [] r' -> False
    end.
Proof.
  apply (@backtrack_on_consistent_store grid1 [] grid1_ac3).
  - exact grid1_wf.
  - exact grid1_ac3_wf.
  - exact grid1_ac3_node_consistent.
  - exact grid1_ac3_arc_consistent.
  - constructor.
  - intros v [].
  - apply lengths_fitb_ok. vm_compute. reflexivity.
Defined.

Lemma solve_total_witness : exists r s', solve grid1 (init grid1) = Ok (r, s').
Proof.
  apply (@solve_total grid1 (init grid1)).
  - exact grid1_wf.
  - exact grid1_init_wf.
Defined.

Lemma solve_None_unsolvable_witness :
  solve grid2 (init grid2) = Ok (None, tick grid2_ac3) /\
  (forall r, solution grid2 r -> drawn_from (init grid2) r -> False).
Proof.
  split; [vm_compute; reflexivity|].
  apply (@solve_None_unsolvable grid2 (init grid2) (tick grid2_ac3)).
  - exact grid2_wf.
  - exact grid2_init_wf.
  - vm_compute. reflexivity.
Defined.

Lemma solve_words_from_domains_witness :
  NoDup (keys grid1_answer) /\
  (forall v, In v (keys grid1_answer) <-> In v (variables grid1)) /\
  drawn_from (init grid1) grid1_answer.
Proof.
  eapply (@solve_words_from_domains grid1 (init grid1) grid1_answer).
  - exact grid1_wf.
  - exact grid1_init_wf.
  - vm_compute. reflexivity.
Defined.

Lemma letter_grid_shape_witness :
  (exists g, letter_grid 3 4 grid1_answer = Ok g) /\
  letter_grid 2 4 grid1_answer = Raise IndexError.
Proof.
  split.
  - apply (proj1 (@letter_grid_shape 3 4 grid1_answer)).
    apply fits_gridb_spec. vm_compute. reflexivity.
  - destruct (letter_grid 2 4 grid1_answer) as [g|e] eqn:E.
    + vm_compute in E. discriminate E.
    + f_equal. apply (proj2 (proj2 (@letter_grid_shape 2 4 grid1_answer)) e E).
Defined.

Lemma letter_grid_reads_back_witness :
  exists g, letter_grid 3 4 grid1_answer = Ok g /\
    (forall v w k, In (v, w) grid1_answer -> k < String.length w ->
       read g (cell_of v k) = String.get k w) /\
    (forall p, (forall v w k, In (v, w) grid1_answer -> k < String.length w ->
                  cell_of v k <> p) ->
       read g p = None).
Proof.
  eexists. split.
  - vm_compute. reflexivity.
  - apply (@letter_grid_reads_back 3 4 grid1_answer).
    + vm_compute. reflexivity.
    + apply crossings_agreeb_ok. vm_compute. reflexivity.
Defined.

Lemma consistent_total_witness : exists b, consistent grid1 grid1_answer = Ok b.
Proof.
  apply (@consistent_total grid1 grid1_answer).
  - exact grid1_wf.
  - exact grid1_answer_incl.
  - apply lengths_fitb_ok. vm_compute. reflexivity.
Defined.

Lemma solve_then_letter_grid_witness :
  exists g, letter_grid 3 4 grid1_answer = Ok g /\
    (forall v, In v (variables grid1) ->
       exists w, dict_get Var_eq_dec v grid1_answer = Some w /\
         String.length w = var_length v /\
         forall k, k < var_length v -> read g (cell_of v k) = String.get k w) /\
    (forall p, (forall v k, In v (variables grid1) -> k < var_length v ->
                  cell_of v k <> p) ->
       read g p = None).
Proof.
  eexists. split.
  - vm_compute. reflexivity.
  - eapply (@solve_then_letter_grid grid1 (init grid1) grid1_answer _ 3 4).
    + exact grid1_wf.
    + exact grid1_shared_cells.
    + vm_compute. reflexivity.
    + vm_compute. reflexivity.
Defined.

Lemma ac3_keeps_solutions_witness :
  drawn_from grid1_ac3 grid1_answer /\ true = true.
Proof.
  apply (@ac3_keeps_solutions grid1 None grid1_nc true grid1_ac3 grid1_answer).
  - exact grid1_wf.
  - exact grid1_nc_wf.
  - exact grid1_nc_node_consistent.
  - vm_compute. reflexivity.
  - exact grid1_answer_solution.
  - apply drawn_fromb_ok. vm_compute. reflexivity.
Defined.

Lemma ac3_keeps_store_witness :
  wf_store grid1 grid1_ac3 /\ node_consistent grid1 grid1_ac3 /\
  domains grid1_ac3 = domains grid1_nc.
Proof.
  apply (@ac3_keeps_store grid1 None grid1_nc true grid1_ac3).
  - exact grid1_wf.
  - exact grid1_nc_wf.
  - exact grid1_nc_node_consistent.
  - vm_compute. reflexivity.
Defined.

Lemma grid3_nc_wf : wf_store grid3 grid3_nc.
Proof. apply wf_storeb_ok. vm_compute. reflexivity. Qed.

Lemma grid3_nc_node_consistent : node_consistent grid3 grid3_nc.
Proof. apply node_consistentb_ok. vm_compute. reflexivity. Qed.

Lemma backtrack_returns_or_AttributeError_witness :
  (exists r s', backtrack grid3 [] grid3_nc = Ok (r, s') /\
     wf_store grid3 s' /\ node_consistent grid3 s' /\ domains s' = domains grid3_nc) \/
  backtrack grid3 [] grid3_nc = Raise AttributeError.
Proof.
  apply (@backtrack_returns_or_AttributeError grid3 [] grid3_nc).
  - exact grid3_wf.
  - exact grid3_nc_wf.
  - exact grid3_nc_node_consistent.
  - constructor.
  - intros v [].
  - apply lengths_fitb_ok. vm_compute. reflexivity.
Defined.

Lemma ac3_on_list_witness :
  exists b s', ac3 grid1 (Some (PyList, [(slot_across, slot_down)])) grid1_ac3 = Ok (b, s') /\
    (b = true ->
       arc_consistent grid1 s' /\ forall v, dom s' v = [] -> dom grid1_ac3 v = []) /\
    (b = false -> exists x, In x (variables grid1) /\ dom s' x = []).
Proof.
  apply (@ac3_on_list grid1 [(slot_across, slot_down)] grid1_ac3).
  - exact grid1_wf.
  - exact grid1_ac3_wf.
  - exact grid1_ac3_node_consistent.
  - intros x y [E|[]]. injection E as <- <-. vm_compute. discriminate.
  - intros x y i j Eo _. now apply grid1_ac3_arc_consistent.
Defined.
